(** * paperplane-api: the upload orchestration engine, embedded in Rocq

    The development follows the layout of the repository:

    - [Js]            the fragment of JavaScript the services rely on
                      (values, the object heap, property access, [Map], [Set]);
    - [UploadService] [src/services/uploadService.js] (extractor, rewriter,
                      single and batch upload);
    - [S3Eager], [S3Lazy]  the two revisions of [src/services/s3.js];
    - [MongoDB]       [src/services/mongodb.js];
    - [Lab]           a small scripted environment used to run the code on
                      concrete inputs;
    - [Schema], [Frame], [Slots], [Audit]  the vocabulary of the statements:
                      the shape of a question, heaps that only grow, what a
                      question holds place by place, and what a run asked of
                      the gateways;
    - [UploadServiceOld]  the earlier revision of [uploadService.js];
    - [Routes]        the upload and delete-batch handlers of
                      [src/routes/questions.js];
    - [MongoQueries]  the queries, the index set-up and the update of
                      [src/services/mongodb.js], over the driver operations
                      they use.

    The properties come after the definitions, one module per service.

    Strings are sequences of 8-bit code units (Latin-1). Numbers are the
    integer-valued doubles, [NaN] and the two infinities; a number with a
    fractional part has no value here, and [-0] is not told from [0]. *)

From stdpp Require Import base option list strings pretty.
From Stdlib Require Import Ascii ZArith Lia Sorted Permutation.

Open Scope Z_scope.

#[local] Set Warnings "-register-all".

(** ** JavaScript values, completions and the heap *)

Module Js.

(** Locations are indices into the heap. *)
Abbreviation loc := nat (only parsing).

Inductive value :=
| VUndef
| VNull
| VBool (b : bool)
| VNum (n : Z)
| VNaN
| VInfinity (negative : bool)
| VStr (s : string)
| VDate (ms : Z)
| VRef (l : loc).

#[global] Instance value_eq_dec : EqDecision value.
Proof. solve_decision. Defined.

(** A heap cell: every object has named properties (in insertion order);
    arrays have elements in addition. *)
Record obj := mkObj {
  elems : option (list value);
  props : list (string * value)
}.

(** The heap is the list of its cells; allocation appends. *)
Abbreviation Heap := (list obj) (only parsing).

Definition object (ps : list (string * value)) : obj := mkObj None ps.
Definition array (vs : list value) : obj := mkObj (Some vs) [].

(** What a [throw] carries: an [Error] instance (only its [message] is ever
    read) or any other value. *)
Inductive thrown :=
| JsError (message : string)
| JsThrow (v : value).

Inductive completion (A : Type) :=
| Normal (a : A)
| Throw (e : thrown).
Arguments Normal {A} a.
Arguments Throw {A} e.

#[global] Instance completion_ret : MRet completion := fun A a => Normal a.
#[global] Instance completion_bind : MBind completion := fun A B f c =>
  match c with
  | Normal a => f a
  | Throw e => Throw e
  end.

(** Stateful computations that may throw; the state reached at the point of
    the [throw] is kept. *)
Definition Eff (S A : Type) : Type := S → completion A * S.

Definition ret {S A} (a : A) : Eff S A := fun s => (Normal a, s).
Definition throw {S A} (e : thrown) : Eff S A := fun s => (Throw e, s).
Definition bind {S A B} (c : Eff S A) (k : A → Eff S B) : Eff S B := fun s =>
  match c s with
  | (Normal a, s') => k a s'
  | (Throw e, s') => (Throw e, s')
  end.
Definition try_catch {S A} (body : Eff S A) (handler : thrown → Eff S A) : Eff S A :=
  fun s =>
  match body s with
  | (Normal a, s') => (Normal a, s')
  | (Throw e, s') => handler e s'
  end.
Definition lift {S A} (c : completion A) : Eff S A := fun s => (c, s).
Definition reads {S A} (f : S → A) : Eff S A := fun s => (Normal (f s), s).
Definition modify {S} (f : S → S) : Eff S unit := fun s => (Normal tt, f s).

Declare Scope eff_scope.
Delimit Scope eff_scope with eff.
Notation "'let!' x ':=' c 'in' k" := (bind c (fun x => k))
  (at level 10, x pattern, c at level 100, k at level 200) : eff_scope.
Notation "c ';;' k" := (bind c (fun _ => k))
  (at level 100, k at level 200, right associativity) : eff_scope.

(** *** Primitive operations *)

Definition truthy (v : value) : bool :=
  match v with
  | VUndef | VNull | VNaN => false
  | VBool b => b
  | VNum n => negb (Z.eqb n 0)
  | VStr s => negb (bool_decide (s = ""))
  | VInfinity _ | VDate _ | VRef _ => true
  end.

Definition nullish (v : value) : bool :=
  match v with
  | VUndef | VNull => true
  | _ => false
  end.

Definition TypeError (msg : string) : thrown := JsError msg.

(** *** Numbers

    [VNum n] is the double whose value is the integer [n]. Every integer up
    to [2^53] in size is one; beyond, the doubles are 53 significant bits
    apart. [round_to_double x] is the double nearest to [x >= 0], ties to the
    even significand; from [2^1024] on it stands for an infinity. *)
Definition round_to_double (x : Z) : Z :=
  if x <? 2 ^ 53 then x
  else
    let e := Z.log2 x - 52 in
    let q := x / 2 ^ e in
    let r := x mod 2 ^ e in
    let half := 2 ^ (e - 1) in
    let q' := if (half <? r) || ((r =? half) && Z.odd q) then q + 1 else q in
    q' * 2 ^ e.

(** The number value of the mathematical integer [n]. *)
Definition number (n : Z) : value :=
  let x := round_to_double (Z.abs n) in
  if 2 ^ 1024 <=? x then VInfinity (n <? 0) else VNum (Z.sgn n * x).

Fixpoint lookup_prop (k : string) (ps : list (string * value)) : option value :=
  match ps with
  | [] => None
  | (k', v) :: ps' => if decide (k = k') then Some v else lookup_prop k ps'
  end.

(** Assignment keeps the position of an existing key and appends a new one. *)
Fixpoint set_prop (k : string) (v : value) (ps : list (string * value))
  : list (string * value) :=
  match ps with
  | [] => [(k, v)]
  | (k', v') :: ps' =>
      if decide (k = k') then (k, v) :: ps' else (k', v') :: set_prop k v ps'
  end.

Definition chars (s : string) : list value :=
  (fun c => VStr (String c "")) <$> String.list_ascii_of_string s.

(** Own properties of an object as seen by [obj.k]: named properties, and
    the computed [length] of arrays. *)
Definition own_prop (o : obj) (k : string) : value :=
  match lookup_prop k (props o) with
  | Some v => v
  | None =>
      match elems o with
      | Some vs => if decide (k = "length") then VNum (Z.of_nat (length vs)) else VUndef
      | None => VUndef
      end
  end.

(** [v.k] for the identifier keys the services use. *)
Definition get_prop (h : Heap) (v : value) (k : string) : completion value :=
  match v with
  | VUndef =>
      Throw (TypeError ("Cannot read properties of undefined (reading '" +:+ k +:+ "')"))
  | VNull =>
      Throw (TypeError ("Cannot read properties of null (reading '" +:+ k +:+ "')"))
  | VRef l =>
      match h !! l with
      | Some o => Normal (own_prop o k)
      | None => Normal VUndef
      end
  | VStr s =>
      Normal (if decide (k = "length") then VNum (Z.of_nat (String.length s)) else VUndef)
  | VBool _ | VNum _ | VNaN | VInfinity _ | VDate _ => Normal VUndef
  end.

(** [v?.k] *)
Definition get_prop_opt (h : Heap) (v : value) (k : string) : completion value :=
  if nullish v then Normal VUndef else get_prop h v k.

(** The elements of the iterable [v]: strings and arrays are the iterables
    of the model. How the engine words the [TypeError] for a value that is
    not iterable depends on the construct that iterates; [spread_args] and
    [for_of] below give the wording, and the services iterate in no other
    way. *)
Definition iterate (h : Heap) (v : value) : completion (list value) :=
  match v with
  | VStr s => Normal (chars s)
  | VRef l =>
      match h !! l with
      | Some (mkObj (Some vs) _) => Normal vs
      | _ => Throw (TypeError "not iterable")
      end
  | _ => Throw (TypeError "not iterable")
  end.

(** The arguments [f(...v)] passes; [source] is the text of the expression
    [v], which the engine quotes when [v] is [null] or [undefined]. *)
Definition spread_args (source : string) (h : Heap) (v : value)
  : completion (list value) :=
  if nullish v then
    Throw (TypeError (source
             +:+ " is not iterable (cannot read property Symbol(Symbol.iterator))"))
  else
    match iterate h v with
    | Normal vs => Normal vs
    | Throw _ =>
        Throw (TypeError
                 "Spread syntax requires ...iterable[Symbol.iterator] to be a function")
    end.

(** The elements [for (const x of v)] runs through; [source] is the text of
    the expression [v], which the engine quotes in its error. *)
Definition for_of (source : string) (h : Heap) (v : value) : completion (list value) :=
  match iterate h v with
  | Normal vs => Normal vs
  | Throw _ => Throw (TypeError (source +:+ " is not iterable"))
  end.

(** The receiver of [v.forEach(..)] / [v.map(..)]: only arrays have these
    methods. [source] is the text of the receiver expression, which the
    engine quotes in its error. *)
Definition array_method (h : Heap) (v : value) (source name : string)
  : completion (list value) :=
  let not_a_function := TypeError (source +:+ "." +:+ name +:+ " is not a function") in
  match v with
  | VUndef | VNull => get_prop h v name ≫= (fun _ => Normal [])
  | VRef l =>
      match h !! l with
      | Some (mkObj (Some vs) _) => Normal vs
      | _ => Throw not_a_function
      end
  | _ => Throw not_a_function
  end.

(** [String(x)] for a number: the shortest decimal digits that read back as
    the same double, written out in full below [10^21] and in exponent form
    from there on. Up to [2^53] every integer is its own shortest form. *)
Definition decimal_length (x : Z) : Z := Z.of_nat (String.length (pretty x)).

(** The shortest such digits, followed by zeros: a multiple [v] of a power
    of ten, with [k] or more significant digits, that rounds to [x]; of two
    that do, the nearer, and the even one if they are as near. *)
Fixpoint shortest_go (fuel : nat) (k : Z) (x : Z) : Z :=
  match fuel with
  | O => x
  | S fuel' =>
      let j := decimal_length x - k in
      if j <=? 0 then x
      else
        let lo := x / 10 ^ j * 10 ^ j in
        let hi := lo + 10 ^ j in
        match round_to_double lo =? x, round_to_double hi =? x with
        | true, true =>
            if x - lo <? hi - x then lo
            else if hi - x <? x - lo then hi
            else if Z.even (x / 10 ^ j) then lo else hi
        | true, false => lo
        | false, true => hi
        | false, false => shortest_go fuel' (k + 1) x
        end
  end.

Definition shortest (x : Z) : Z := shortest_go 17 1 x.

Fixpoint strip_zeros (reversed : string) : string :=
  match reversed with
  | String "0" s => strip_zeros s
  | _ => reversed
  end.

(** [d.ddde+N] *)
Definition exponent_form (v : Z) : string :=
  let digits := String.rev (strip_zeros (String.rev (pretty v))) in
  let exponent := "e+" +:+ pretty (decimal_length v - 1) in
  match digits with
  | String d "" => String d exponent
  | String d more => String d (String "." more) +:+ exponent
  | "" => exponent
  end.

Definition number_text (n : Z) : string :=
  if Z.abs n <=? 2 ^ 53 then pretty n
  else
    let v := shortest (Z.abs n) in
    (if n <? 0 then "-" else "")
      +:+ (if decimal_length v <=? 21 then pretty v else exponent_form v).

(** Template-literal conversion [`${v}`]. Arrays are joined (nested arrays up
    to [fuel] levels, which the heap size bounds for acyclic values). The
    services never convert a [Date]; its rendering here is a placeholder. *)
Fixpoint join (sep : string) (l : list string) : string :=
  match l with
  | [] => ""
  | [s] => s
  | s :: l' => s +:+ sep +:+ join sep l'
  end.

Fixpoint ToString_fuel (fuel : nat) (h : Heap) (v : value) : string :=
  match v with
  | VUndef => "undefined"
  | VNull => "null"
  | VBool true => "true"
  | VBool false => "false"
  | VNum n => number_text n
  | VNaN => "NaN"
  | VInfinity negative => if negative then "-Infinity" else "Infinity"
  | VStr s => s
  | VDate ms => "Date(" +:+ pretty ms +:+ ")"
  | VRef l =>
      match h !! l with
      | Some (mkObj (Some vs) _) =>
          match fuel with
          | O => ""
          | S fuel' =>
              join "," ((fun x => if nullish x then "" else ToString_fuel fuel' h x) <$> vs)
          end
      | _ => "[object Object]"
      end
  end.

Definition ToString (h : Heap) (v : value) : string :=
  ToString_fuel (length h) h v.

(** *** Strings *)

(** WhiteSpace and LineTerminator code units below 256. *)
Definition is_whitespace (c : ascii) : bool :=
  match c with
  | "009" | "010" | "011" | "012" | "013" | " " | "160" => true
  | _ => false
  end%char.

Fixpoint trimStart (s : string) : string :=
  match s with
  | "" => ""
  | String c s' => if is_whitespace c then trimStart s' else s
  end.

Definition trim (s : string) : string :=
  String.rev (trimStart (String.rev (trimStart s))).

(** [s.split(sep)] for a one-character separator. *)
Fixpoint split_go (sep : ascii) (cur : string) (s : string) : list string :=
  match s with
  | "" => [String.rev cur]
  | String c s' =>
      if decide (c = sep) then String.rev cur :: split_go sep "" s'
      else split_go sep (String c cur) s'
  end.

Definition split (sep : ascii) (s : string) : list string := split_go sep "" s.

Fixpoint substring_from (n : nat) (s : string) : string :=
  match n, s with
  | O, _ => s
  | S n', String _ s' => substring_from n' s'
  | S _, "" => ""
  end.

(** *** [Map] and [Set] *)

(** A [Map] from values to strings, in insertion order. *)
Definition JsMap := list (value * string).

Fixpoint map_get (m : JsMap) (k : value) : option string :=
  match m with
  | [] => None
  | (k', s) :: m' => if decide (k = k') then Some s else map_get m' k
  end.

Definition map_has (m : JsMap) (k : value) : bool :=
  match map_get m k with
  | Some _ => true
  | None => false
  end.

(** [m.get(k)] as a value. *)
Definition map_get_v (m : JsMap) (k : value) : value :=
  match map_get m k with
  | Some s => VStr s
  | None => VUndef
  end.

Fixpoint map_set (k : value) (s : string) (m : JsMap) : JsMap :=
  match m with
  | [] => [(k, s)]
  | (k', s') :: m' =>
      if decide (k = k') then (k, s) :: m' else (k', s') :: map_set k s m'
  end.

Definition map_values (m : JsMap) : list string := snd <$> m.

(** [[...new Set(l)]]: first occurrences, in order. *)
Definition set_add (seen : list value) (v : value) : list value :=
  if decide (v ∈ seen) then seen else seen ++ [v].

Definition set_of (l : list value) : list value := foldl set_add [] l.

(** *** Reading a heap from outside the program

    [field h v k] is [v?.k]; [items h v] are the elements of the array [v]
    (none if [v] is not an array). *)

Definition field (h : Heap) (v : value) (k : string) : value :=
  match get_prop h v k with
  | Normal x => x
  | Throw _ => VUndef
  end.

Definition items (h : Heap) (v : value) : list value :=
  match v with
  | VRef l =>
      match h !! l with
      | Some o => default [] (elems o)
      | None => []
      end
  | _ => []
  end.

(** *** Heap updates *)

Definition alloc (o : obj) : Eff Heap value :=
  fun h => (Normal (VRef (length h)), h ++ [o]).

Fixpoint index_props (i : nat) (vs : list value) : list (string * value) :=
  match vs with
  | [] => []
  | v :: vs' => (pretty i, v) :: index_props (S i) vs'
  end.

(** The own enumerable properties copied by [{...v}]. *)
Definition spread_props (h : Heap) (v : value) : list (string * value) :=
  match v with
  | VStr s => index_props 0 (chars s)
  | VRef l =>
      match h !! l with
      | Some (mkObj (Some vs) ps) => index_props 0 vs ++ ps
      | Some (mkObj None ps) => ps
      | None => []
      end
  | _ => []
  end.

(** [target.k = v] in strict mode (module code). A [Date] is an object: the
    assignment goes through; the model keeps no properties for it. *)
Definition put_prop (target : value) (k : string) (v : value) : Eff Heap unit :=
  fun h =>
  match target with
  | VUndef =>
      (Throw (TypeError ("Cannot set properties of undefined (setting '" +:+ k +:+ "')")), h)
  | VNull =>
      (Throw (TypeError ("Cannot set properties of null (setting '" +:+ k +:+ "')")), h)
  | VRef l =>
      match h !! l with
      | Some o => (Normal tt, <[l := mkObj (elems o) (set_prop k v (props o))]> h)
      | None => (Normal tt, h)
      end
  | VDate _ => (Normal tt, h)
  | VBool _ =>
      (Throw (TypeError ("Cannot create property '" +:+ k +:+ "' on boolean '"
                           +:+ ToString h target +:+ "'")), h)
  | VNum _ | VNaN | VInfinity _ =>
      (Throw (TypeError ("Cannot create property '" +:+ k +:+ "' on number '"
                           +:+ ToString h target +:+ "'")), h)
  | VStr s =>
      (Throw (TypeError ("Cannot create property '" +:+ k +:+ "' on string '" +:+ s +:+ "'")), h)
  end.

End Js.

(** ** Request bodies: JSON documents and the objects [JSON.parse] builds *)

Module Json.
Import Js.

Inductive json :=
| JNull
| JBool (b : bool)
| JNum (n : Z)
| JStr (s : string)
| JArr (items : list json)
| JObj (fields : list (string * json)).

(** Children are allocated before their parent; a repeated key keeps its
    first position and its last value; a numeral becomes the double nearest
    to it. *)
Fixpoint parse (j : json) (h : Heap) : value * Heap :=
  match j with
  | JNull => (VNull, h)
  | JBool b => (VBool b, h)
  | JNum n => (number n, h)
  | JStr s => (VStr s, h)
  | JArr items =>
      let '(vs, h') :=
        (fix parse_items (l : list json) (h : Heap) : list value * Heap :=
           match l with
           | [] => ([], h)
           | x :: l' =>
               let '(v, h1) := parse x h in
               let '(vs, h2) := parse_items l' h1 in
               (v :: vs, h2)
           end) items h in
      (VRef (length h'), h' ++ [array vs])
  | JObj fields =>
      let '(ps, h') :=
        (fix parse_fields (l : list (string * json)) (acc : list (string * value)) (h : Heap)
           : list (string * value) * Heap :=
           match l with
           | [] => (acc, h)
           | (k, x) :: l' =>
               let '(v, h1) := parse x h in
               parse_fields l' (set_prop k v acc) h1
           end) fields [] h in
      (VRef (length h'), h' ++ [object ps])
  end.

End Json.

(** ** The two gateways the upload service imports

    [uploadService.js] reaches the object store and the document store only
    through the functions it imports from [s3.js] and [mongodb.js]; [W] is
    the state of everything behind them. The gateways read the heap and do
    not write it. *)

Module Gateway.
Import Js.

Record ObjectStore (W : Type) := {
  uploadImageToS3 : Heap → value → W → completion string * W;
  deleteImageFromS3 : Heap → string → W → completion unit * W;
  extractS3Key : string → completion string
}.
Arguments uploadImageToS3 {W}.
Arguments deleteImageFromS3 {W}.
Arguments extractS3Key {W}.

Record DocumentStore (W : Type) := {
  questionExists : Heap → value → W → completion bool * W;
  saveQuestionToMongoDB : Heap → value → value → W → completion string * W;
  deleteQuestionFromMongoDB : Heap → string → W → completion unit * W
}.
Arguments questionExists {W}.
Arguments saveQuestionToMongoDB {W}.
Arguments deleteQuestionFromMongoDB {W}.

(** The calls a run makes on the gateways, each with its outcome. *)
Inductive Call :=
| CallQuestionExists (questionId : value) (result : completion bool)
| CallUploadImageToS3 (imageUrl : value) (result : completion string)
| CallSaveQuestionToMongoDB (question s3ImageUrl : value) (result : completion string)
| CallDeleteQuestionFromMongoDB (documentId : string) (result : completion unit)
| CallDeleteImageFromS3 (s3Key : string) (result : completion unit).

End Gateway.

(** ** [src/services/uploadService.js]: extractor and rewriter *)

Module UploadService.
Import Js.

(** *** [collectImageUrls] *)

(** [if (opt.image_url) imageUrls.push(opt.image_url)] *)
Definition option_image (h : Heap) (opt : value) : completion (list value) :=
  image_url ← get_prop h opt "image_url";
  mret (if truthy image_url then [image_url] else []).

Fixpoint forEach_collect (f : value → completion (list value)) (vs : list value)
  : completion (list value) :=
  match vs with
  | [] => mret []
  | v :: vs' =>
      pushed ← f v;
      rest ← forEach_collect f vs';
      mret (pushed ++ rest)
  end.

(** [if (x.options) x.options.forEach(opt => ..)], where [source] is the
    name [x]. *)
Definition options_images (source : string) (h : Heap) (owner : value)
  : completion (list value) :=
  options ← get_prop h owner "options";
  if truthy options then
    opts ← array_method h options (source +:+ ".options") "forEach";
    forEach_collect (option_image h) opts
  else mret [].

(** [if (x.field?.images) imageUrls.push(...x.field.images)], where
    [source] is the name [x]. *)
Definition block_images (source : string) (h : Heap) (owner : value) (field : string)
  : completion (list value) :=
  block ← get_prop h owner field;
  images ← get_prop_opt h block "images";
  if truthy images
  then spread_args (source +:+ "." +:+ field +:+ ".images") h images
  else mret [].

Definition sub_question_images (h : Heap) (subQ : value) : completion (list value) :=
  from_content ← block_images "subQ" h subQ "content";
  from_options ← options_images "subQ" h subQ;
  mret (from_content ++ from_options).

(** The array [imageUrls] as it stands before the final filter. *)
Definition pushedImageUrls (h : Heap) (question : value) : completion (list value) :=
  legacy ← get_prop h question "imageUrl";
  from_content ← block_images "question" h question "content";
  from_options ← options_images "question" h question;
  from_passage ← block_images "question" h question "comprehension_passage";
  sub_questions ← get_prop h question "sub_questions";
  from_subs ←
    (if truthy sub_questions then
       subs ← array_method h sub_questions "question.sub_questions" "forEach";
       forEach_collect (sub_question_images h) subs
     else mret []);
  mret ((if truthy legacy then [legacy] else [])
          ++ from_content ++ from_options ++ from_passage ++ from_subs).

(** [url => url && url.trim()], as the truth value [filter] acts on. *)
Definition keeps (url : value) : completion bool :=
  if truthy url then
    match url with
    | VStr s => mret (truthy (VStr (trim s)))
    | _ => Throw (TypeError "url.trim is not a function")
    end
  else mret false.

Fixpoint filter_urls (urls : list value) : completion (list value) :=
  match urls with
  | [] => mret []
  | url :: urls' =>
      keep ← keeps url;
      rest ← filter_urls urls';
      mret (if (keep : bool) then url :: rest else rest)
  end.

Definition collectImageUrls (h : Heap) (question : value) : completion (list value) :=
  imageUrls ← pushedImageUrls h question;
  kept ← filter_urls imageUrls;
  mret (set_of kept).

(** *** [replaceImageUrls] *)

Open Scope eff_scope.

(** [url => s3UrlMap.get(url) || url] *)
Definition mapped_or_same (s3UrlMap : JsMap) (url : value) : value :=
  if truthy (map_get_v s3UrlMap url) then map_get_v s3UrlMap url else url.

Definition peek {A} (f : Heap → completion A) : Eff Heap A :=
  fun h => (f h, h).

(** [if (x.field?.images) x.field.images = x.field.images.map(..)], where
    [source] is the name [x]. *)
Definition replace_block_images (source : string) (s3UrlMap : JsMap) (owner : value)
    (field : string) : Eff Heap unit :=
  let! block := peek (fun h => get_prop h owner field) in
  let! images := peek (fun h => get_prop_opt h block "images") in
  if truthy images then
    let! urls :=
      peek (fun h => array_method h images (source +:+ "." +:+ field +:+ ".images") "map") in
    let! mapped := alloc (array (mapped_or_same s3UrlMap <$> urls)) in
    put_prop block "images" mapped
  else ret tt.

(** [opt => (opt.image_url && s3UrlMap.has(opt.image_url))
            ? { ...opt, image_url: s3UrlMap.get(opt.image_url) } : opt] *)
Definition replace_option (s3UrlMap : JsMap) (opt : value) : Eff Heap value :=
  let! image_url := peek (fun h => get_prop h opt "image_url") in
  if truthy image_url && map_has s3UrlMap image_url then
    let! copied := reads (fun h => spread_props h opt) in
    alloc (object (set_prop "image_url" (map_get_v s3UrlMap image_url) copied))
  else ret opt.

Fixpoint map_array {A} (f : value → Eff Heap A) (vs : list value) : Eff Heap (list A) :=
  match vs with
  | [] => ret []
  | v :: vs' =>
      let! x := f v in
      let! xs := map_array f vs' in
      ret (x :: xs)
  end.

(** [if (x.options) x.options = x.options.map(..)], where [source] is the
    name [x]. *)
Definition replace_options (source : string) (s3UrlMap : JsMap) (owner : value)
  : Eff Heap unit :=
  let! options := peek (fun h => get_prop h owner "options") in
  if truthy options then
    let! opts := peek (fun h => array_method h options (source +:+ ".options") "map") in
    let! mapped := map_array (replace_option s3UrlMap) opts in
    let! arr := alloc (array mapped) in
    put_prop owner "options" arr
  else ret tt.

Definition copy_of (v : value) : Eff Heap value :=
  let! copied := reads (fun h => spread_props h v) in
  alloc (object copied).

Definition replace_sub_question (s3UrlMap : JsMap) (subQ : value) : Eff Heap value :=
  let! updatedSubQ := copy_of subQ in
  replace_block_images "updatedSubQ" s3UrlMap updatedSubQ "content";;
  replace_options "updatedSubQ" s3UrlMap updatedSubQ;;
  ret updatedSubQ.

(** [if (updated.imageUrl && s3UrlMap.has(updated.imageUrl))
      updated.imageUrl = s3UrlMap.get(updated.imageUrl)] *)
Definition replace_legacy (s3UrlMap : JsMap) (updated : value) : Eff Heap unit :=
  let! legacy := peek (fun h => get_prop h updated "imageUrl") in
  if truthy legacy && map_has s3UrlMap legacy
  then put_prop updated "imageUrl" (map_get_v s3UrlMap legacy)
  else ret tt.

(** [if (updated.sub_questions) updated.sub_questions = updated.sub_questions.map(..)] *)
Definition replace_sub_questions (s3UrlMap : JsMap) (updated : value) : Eff Heap unit :=
  let! sub_questions := peek (fun h => get_prop h updated "sub_questions") in
  if truthy sub_questions then
    let! subs := peek (fun h => array_method h sub_questions "updated.sub_questions" "map") in
    let! mapped := map_array (replace_sub_question s3UrlMap) subs in
    let! arr := alloc (array mapped) in
    put_prop updated "sub_questions" arr
  else ret tt.

Definition replaceImageUrls (question : value) (s3UrlMap : JsMap) : Eff Heap value :=
  let! updated := copy_of question in
  replace_legacy s3UrlMap updated;;
  replace_block_images "updated" s3UrlMap updated "content";;
  replace_options "updated" s3UrlMap updated;;
  replace_block_images "updated" s3UrlMap updated "comprehension_passage";;
  replace_sub_questions s3UrlMap updated;;
  ret updated.

(** *** [uploadQuestionToDB] *)

Record FailedImage := {
  url : value;
  error : value
}.

Record UploadResult := {
  success : bool;
  message : string;
  s3Urls : option (list string);
  resultMongoId : option string;
  failedImages : option (list FailedImage)
}.

Record BatchResult := {
  successful : nat;
  failed : nat;
  results : list UploadResult
}.

(** What survives a call: the heap, the world behind the gateways, and the
    log of gateway calls. *)
Record Machine (W : Type) := mkMachine {
  heap : Heap;
  world : W;
  calls : list Gateway.Call
}.
Arguments mkMachine {W}.
Arguments heap {W}.
Arguments world {W}.
Arguments calls {W}.

(** One invocation of [uploadQuestionToDB]: the machine plus the variables
    declared before the [try], which the [catch] block still sees. *)
Record Run (W : Type) := mkRun {
  machine : Machine W;
  uploadedS3Keys : list string;
  s3UrlMap : JsMap;
  mongoId : option string
}.
Arguments mkRun {W}.
Arguments machine {W}.
Arguments uploadedS3Keys {W}.
Arguments s3UrlMap {W}.
Arguments mongoId {W}.

Section Orchestrator.
Context {W : Type} (OS : Gateway.ObjectStore W) (DS : Gateway.DocumentStore W).

Definition start (m : Machine W) : Run W := mkRun m [] [] None.

Definition logged (c : Gateway.Call) (w : W) (r : Run W) : Run W :=
  mkRun (mkMachine (heap (machine r)) w (calls (machine r) ++ [c]))
        (uploadedS3Keys r) (s3UrlMap r) (mongoId r).

Definition with_heap (h : Heap) (r : Run W) : Run W :=
  mkRun (mkMachine h (world (machine r)) (calls (machine r)))
        (uploadedS3Keys r) (s3UrlMap r) (mongoId r).

Definition set_url (k : value) (s : string) (r : Run W) : Run W :=
  mkRun (machine r) (uploadedS3Keys r) (map_set k s (s3UrlMap r)) (mongoId r).

Definition push_key (k : string) (r : Run W) : Run W :=
  mkRun (machine r) (uploadedS3Keys r ++ [k]) (s3UrlMap r) (mongoId r).

Definition set_mongoId (id : string) (r : Run W) : Run W :=
  mkRun (machine r) (uploadedS3Keys r) (s3UrlMap r) (Some id).

(** Reading the heap, and running a heap computation, inside a run. *)
Definition inspect {A} (f : Heap → completion A) : Eff (Run W) A :=
  fun r => (f (heap (machine r)), r).

Definition on_heap {A} (c : Eff Heap A) : Eff (Run W) A :=
  fun r => let '(a, h) := c (heap (machine r)) in (a, with_heap h r).

(** The imported functions, as called from this module. *)
Definition call_questionExists (questionId : value) : Eff (Run W) bool :=
  fun r =>
  let '(res, w) := Gateway.questionExists DS (heap (machine r)) questionId (world (machine r)) in
  (res, logged (Gateway.CallQuestionExists questionId res) w r).

Definition call_uploadImageToS3 (imageUrl : value) : Eff (Run W) string :=
  fun r =>
  let '(res, w) := Gateway.uploadImageToS3 OS (heap (machine r)) imageUrl (world (machine r)) in
  (res, logged (Gateway.CallUploadImageToS3 imageUrl res) w r).

Definition call_saveQuestionToMongoDB (question s3ImageUrl : value) : Eff (Run W) string :=
  fun r =>
  let '(res, w) :=
    Gateway.saveQuestionToMongoDB DS (heap (machine r)) question s3ImageUrl (world (machine r)) in
  (res, logged (Gateway.CallSaveQuestionToMongoDB question s3ImageUrl res) w r).

Definition call_deleteQuestionFromMongoDB (documentId : string) : Eff (Run W) unit :=
  fun r =>
  let '(res, w) :=
    Gateway.deleteQuestionFromMongoDB DS (heap (machine r)) documentId (world (machine r)) in
  (res, logged (Gateway.CallDeleteQuestionFromMongoDB documentId res) w r).

Definition call_deleteImageFromS3 (s3Key : string) : Eff (Run W) unit :=
  fun r =>
  let '(res, w) := Gateway.deleteImageFromS3 OS (heap (machine r)) s3Key (world (machine r)) in
  (res, logged (Gateway.CallDeleteImageFromS3 s3Key res) w r).

(** [error.message] *)
Definition error_message (h : Heap) (e : thrown) : completion value :=
  match e with
  | JsError msg => Normal (VStr msg)
  | JsThrow v => get_prop h v "message"
  end.

(** The body of the [for (const imageUrl of imageUrls)] loop, with its own
    [try]/[catch]. *)
Definition upload_one (imageUrl : value) (failedImages : list FailedImage)
  : Eff (Run W) (list FailedImage) :=
  try_catch
    (let! s3Url := call_uploadImageToS3 imageUrl in
     modify (set_url imageUrl s3Url);;
     let! key := lift (Gateway.extractS3Key OS s3Url) in
     modify (push_key key);;
     ret failedImages)
    (fun e =>
     let! msg := inspect (fun h => error_message h e) in
     ret (failedImages ++ [{| url := imageUrl; error := msg |}])).

Fixpoint upload_all (imageUrls : list value) (failedImages : list FailedImage)
  : Eff (Run W) (list FailedImage) :=
  match imageUrls with
  | [] => ret failedImages
  | imageUrl :: rest =>
      let! failedImages' := upload_one imageUrl failedImages in
      upload_all rest failedImages'
  end.

Definition duplicate_message (h : Heap) (questionId : value) : string :=
  "Question " +:+ ToString h questionId
    +:+ " already exists in database. Please delete it first or use a different question.".

Definition success_message (failedImages : list FailedImage) : string :=
  "Successfully uploaded to database!" +:+
  (if bool_decide (failedImages = []) then ""
   else " Warning: " +:+ pretty (length failedImages)
          +:+ " image(s) failed to upload to S3. The question was saved with original image URLs.").

(** The [try] block. *)
Definition uploadQuestionToDB_try (question : value) : Eff (Run W) UploadResult :=
  let! questionId := inspect (fun h => get_prop h question "id") in
  let! exists_ := call_questionExists questionId in
  if (exists_ : bool) then
    let! h := reads (fun r => heap (machine r)) in
    ret {| success := false;
           message := duplicate_message h questionId;
           s3Urls := None; resultMongoId := None; failedImages := None |}
  else
    let! imageUrls := inspect (fun h => collectImageUrls h question) in
    let! failedImages := upload_all imageUrls [] in
    let! urlMap := reads s3UrlMap in
    let! questionWithS3Urls := on_heap (replaceImageUrls question urlMap) in
    let! legacy := inspect (fun h => get_prop h question "imageUrl") in
    let! id := call_saveQuestionToMongoDB questionWithS3Urls (map_get_v urlMap legacy) in
    modify (set_mongoId id);;
    ret {| success := true;
           message := success_message failedImages;
           s3Urls := Some (map_values urlMap);
           resultMongoId := Some id;
           failedImages := if bool_decide (failedImages = []) then None else Some failedImages |}.

Definition swallow (c : Eff (Run W) unit) : Eff (Run W) unit :=
  try_catch c (fun _ => ret tt).

Fixpoint delete_uploaded (keys : list string) : Eff (Run W) unit :=
  match keys with
  | [] => ret tt
  | s3Key :: rest => swallow (call_deleteImageFromS3 s3Key);; delete_uploaded rest
  end.

(** [error instanceof Error ? error.message : 'Unknown error occurred'] *)
Definition errorMessage (e : thrown) : string :=
  match e with
  | JsError msg => msg
  | JsThrow _ => "Unknown error occurred"
  end.

(** The [catch] block. *)
Definition uploadQuestionToDB_catch (e : thrown) : Eff (Run W) UploadResult :=
  let! saved := reads mongoId in
  (match saved with
   | Some id =>
       if truthy (VStr id) then swallow (call_deleteQuestionFromMongoDB id) else ret tt
   | None => ret tt
   end);;
  let! keys := reads uploadedS3Keys in
  delete_uploaded keys;;
  ret {| success := false;
         message := "Upload failed: " +:+ errorMessage e
                      +:+ ". All changes have been rolled back.";
         s3Urls := None; resultMongoId := None; failedImages := None |}.

(** The function: the logging line that reads [question.id] sits before the
    [try]. *)
Definition uploadQuestionToDB (question : value) : Eff (Machine W) UploadResult :=
  fun m =>
  match get_prop (heap m) question "id" with
  | Throw e => (Throw e, m)
  | Normal _ =>
      let '(res, r) :=
        try_catch (uploadQuestionToDB_try question) uploadQuestionToDB_catch (start m) in
      (res, machine r)
  end.

(** *** [uploadMultipleQuestions] *)

Fixpoint upload_each (questions : list value) (acc : BatchResult)
  : Eff (Machine W) BatchResult :=
  match questions with
  | [] => ret acc
  | question :: rest =>
      let! result := uploadQuestionToDB question in
      upload_each rest
        {| successful := if success result then S (successful acc) else successful acc;
           failed := if success result then failed acc else S (failed acc);
           results := results acc ++ [result] |}
  end.

Definition uploadMultipleQuestions (questions : value) : Eff (Machine W) BatchResult :=
  let! qs := (fun m => (for_of "questions" (heap m) questions, m)) in
  upload_each qs {| successful := 0; failed := 0; results := [] |}.

End Orchestrator.

Close Scope eff_scope.

End UploadService.

(** ** What the services stand on: configuration, SDK clients, platform *)

Module Platform.
Import Js.

(** [config] of [src/config/env.js]; an absent entry is [undefined]. *)
Record Config := {
  aws_region : option string;
  aws_accessKeyId : option string;
  aws_secretAccessKey : option string;
  aws_s3BucketName : option string;
  mongodb_uri : option string;
  mongodb_database : option string;
  mongodb_collection : option string
}.

(** [`${x}`] and [!x] for a configuration entry. *)
Definition shown (x : option string) : string :=
  match x with
  | Some s => s
  | None => "undefined"
  end.

Definition present (x : option string) : bool :=
  match x with
  | Some s => truthy (VStr s)
  | None => false
  end.

(** A [fetch] response, with the outcome its [arrayBuffer()] will have. *)
Record Response := {
  ok : bool;
  statusText : string;
  arrayBuffer : completion string
}.

Record PutObjectCommand := {
  put_Bucket : option string;
  put_Key : string;
  put_Body : string;
  put_ContentType : string;
  put_ACL : option string
}.

Record DeleteObjectCommand := {
  del_Bucket : option string;
  del_Key : string
}.

(** [client.db(dbName).collection(collectionName)] *)
Record Collection := {
  dbName : option string;
  collectionName : option string
}.

Inductive SdkCall :=
| Fetch (url : string)
| SendPutObject (cmd : PutObjectCommand)
| SendDeleteObject (cmd : DeleteObjectCommand)
| MongoConnect (uri : string)
| CountDocuments (coll : Collection) (id : value)
| InsertOne (coll : Collection) (document : list (string * value))
| DeleteOne (coll : Collection) (_id : string)
| FindOne (coll : Collection) (id : value).

(** The libraries and services outside the repository, over their own state
    [X]; [D] is what the driver hands back for a stored document. *)
Record Sdk (X D : Type) := {
  fetch : string → X → completion Response * X;
  send_PutObject : PutObjectCommand → X → completion unit * X;
  send_DeleteObject : DeleteObjectCommand → X → completion unit * X;
  Date_now : X → Z * X;
  random_suffix : X → string * X;
  SHA256 : string → string;
  URL_pathname : string → completion string;
  ObjectId : string → completion string;
  connect : string → X → completion unit * X;
  countDocuments : Collection → Heap → value → X → completion Z * X;
  insertOne : Collection → Heap → list (string * value) → X → completion string * X;
  deleteOne : Collection → string → X → completion unit * X;
  findOne : Collection → value → X → completion (option D) * X
}.
Arguments fetch {X D}.
Arguments send_PutObject {X D}.
Arguments send_DeleteObject {X D}.
Arguments Date_now {X D}.
Arguments random_suffix {X D}.
Arguments SHA256 {X D}.
Arguments URL_pathname {X D}.
Arguments ObjectId {X D}.
Arguments connect {X D}.
Arguments countDocuments {X D}.
Arguments insertOne {X D}.
Arguments deleteOne {X D}.
Arguments findOne {X D}.

(** The Node process: configuration, the module-level variables of [s3.js]
    and [mongodb.js], the outside world and the log of SDK calls. *)
Record Process (X : Type) := mkProcess {
  config : Config;
  BUCKET_NAME : option string;
  s3Client : bool;
  db : option (option string);
  outside : X;
  sdk_calls : list SdkCall
}.
Arguments mkProcess {X}.
Arguments config {X}.
Arguments BUCKET_NAME {X}.
Arguments s3Client {X}.
Arguments db {X}.
Arguments outside {X}.
Arguments sdk_calls {X}.

Definition set_BUCKET_NAME {X} (b : option string) (p : Process X) : Process X :=
  mkProcess (config p) b (s3Client p) (db p) (outside p) (sdk_calls p).

Definition set_s3Client {X} (p : Process X) : Process X :=
  mkProcess (config p) (BUCKET_NAME p) true (db p) (outside p) (sdk_calls p).

Definition set_db {X} (d : option string) (p : Process X) : Process X :=
  mkProcess (config p) (BUCKET_NAME p) (s3Client p) (Some d) (outside p) (sdk_calls p).

(** A call that crosses into the SDK: logged, then answered by the outside. *)
Definition sdk {X A} (c : SdkCall) (op : X → completion A * X) : Eff (Process X) A :=
  fun p =>
  let '(res, x) := op (outside p) in
  (res, mkProcess (config p) (BUCKET_NAME p) (s3Client p) (db p) x (sdk_calls p ++ [c])).

(** Clock and random source: they answer, and are not logged. *)
Definition ask {X A} (op : X → A * X) : Eff (Process X) A :=
  fun p =>
  let '(a, x) := op (outside p) in
  (Normal a, mkProcess (config p) (BUCKET_NAME p) (s3Client p) (db p) x (sdk_calls p)).

End Platform.

(** ** [src/services/s3.js] *)

(** What the two revisions share. *)
Module S3Common.
Import Js Platform.
Open Scope eff_scope.

Section WithSdk.
Context {X D : Type} (lib : Sdk X D).

Definition generateImageHash (h : Heap) (imageUrl : value) : Eff (Process X) string :=
  let! timestamp := ask (Date_now lib) in
  let! randomSuffix := ask (random_suffix lib) in
  let hash :=
    SHA256 lib (ToString h imageUrl +:+ "-" +:+ number_text timestamp +:+ "-" +:+ randomSuffix) in
  match imageUrl with
  | VStr s =>
      let urlParts := split "." (default "" (head (split "?" s))) in
      let extension :=
        if bool_decide (1 < length urlParts)%nat then default "" (last urlParts) else "jpg" in
      ret ("questions/" +:+ hash +:+ "." +:+ extension)
  | _ => throw (TypeError "imageUrl.split is not a function")
  end.

Definition downloadImage (h : Heap) (imageUrl : value) : Eff (Process X) string :=
  let url := ToString h imageUrl in
  let! response := sdk (Fetch url) (fetch lib url) in
  if negb (ok response) then
    throw (JsError ("Failed to download image from " +:+ url +:+ ": " +:+ statusText response))
  else
    lift (arrayBuffer response).

Definition extractS3Key (s3Url : string) : completion string :=
  pathname ← URL_pathname lib s3Url;
  mret (substring_from 1 pathname).

End WithSdk.

Close Scope eff_scope.
End S3Common.

(** The earlier revision: client and bucket name fixed when the module is
    loaded ([BUCKET_NAME] holds whatever the configuration had then). *)
Module S3Eager.
Import Js Platform S3Common.
Open Scope eff_scope.

Section WithSdk.
Context {X D : Type} (lib : Sdk X D).

Definition uploadImageToS3 (h : Heap) (imageUrl : value) : Eff (Process X) string :=
  if negb (truthy imageUrl) then throw (JsError "No image URL provided")
  else
    let! imageBuffer := downloadImage lib h imageUrl in
    let! key := generateImageHash lib h imageUrl in
    let! bucket := reads BUCKET_NAME in
    let command :=
      {| put_Bucket := bucket; put_Key := key; put_Body := imageBuffer;
         put_ContentType := "image/jpeg"; put_ACL := Some "public-read" |} in
    sdk (SendPutObject command) (send_PutObject lib command);;
    let! cfg := reads config in
    ret ("https://" +:+ shown bucket +:+ ".s3." +:+ shown (aws_region cfg)
           +:+ ".amazonaws.com/" +:+ key).

Definition deleteImageFromS3 (h : Heap) (s3Key : string) : Eff (Process X) unit :=
  if negb (truthy (VStr s3Key)) then ret tt
  else
    let! bucket := reads BUCKET_NAME in
    let command := {| del_Bucket := bucket; del_Key := s3Key |} in
    sdk (SendDeleteObject command) (send_DeleteObject lib command).

Definition gateway : Gateway.ObjectStore (Process X) :=
  {| Gateway.uploadImageToS3 := uploadImageToS3;
     Gateway.deleteImageFromS3 := deleteImageFromS3;
     Gateway.extractS3Key := extractS3Key lib |}.

End WithSdk.

Close Scope eff_scope.
End S3Eager.

(** The current revision: client and bucket name resolved on first use. *)
Module S3Lazy.
Import Js Platform S3Common.
Open Scope eff_scope.

Section WithSdk.
Context {X D : Type} (lib : Sdk X D).

Definition not_configured : thrown :=
  JsError "S3_BUCKET_NAME not configured. Make sure configuration is initialized.".

Definition getS3Client : Eff (Process X) unit :=
  let! client := reads s3Client in
  if negb client then
    let! cfg := reads config in
    modify (set_BUCKET_NAME (aws_s3BucketName cfg));;
    if negb (present (aws_s3BucketName cfg)) then throw not_configured
    else modify set_s3Client
  else ret tt.

Definition getBucketName : Eff (Process X) (option string) :=
  let! bucket := reads BUCKET_NAME in
  if negb (present bucket) then
    let! cfg := reads config in
    modify (set_BUCKET_NAME (aws_s3BucketName cfg));;
    if negb (present (aws_s3BucketName cfg)) then throw not_configured
    else ret (aws_s3BucketName cfg)
  else ret bucket.

Definition uploadImageToS3 (h : Heap) (imageUrl : value) : Eff (Process X) string :=
  if negb (truthy imageUrl) then throw (JsError "No image URL provided")
  else
    try_catch
      (let! imageBuffer := downloadImage lib h imageUrl in
       let! key := generateImageHash lib h imageUrl in
       let! bucketName := getBucketName in
       getS3Client;;
       let command :=
         {| put_Bucket := bucketName; put_Key := key; put_Body := imageBuffer;
            put_ContentType := "image/jpeg"; put_ACL := None |} in
       sdk (SendPutObject command) (send_PutObject lib command);;
       let! cfg := reads config in
       ret ("https://" +:+ shown bucketName +:+ ".s3." +:+ shown (aws_region cfg)
              +:+ ".amazonaws.com/" +:+ key))
      (fun e => throw e).

Definition deleteImageFromS3 (h : Heap) (s3Key : string) : Eff (Process X) unit :=
  if negb (truthy (VStr s3Key)) then ret tt
  else
    let! bucketName := getBucketName in
    getS3Client;;
    let command := {| del_Bucket := bucketName; del_Key := s3Key |} in
    sdk (SendDeleteObject command) (send_DeleteObject lib command).

Definition gateway : Gateway.ObjectStore (Process X) :=
  {| Gateway.uploadImageToS3 := uploadImageToS3;
     Gateway.deleteImageFromS3 := deleteImageFromS3;
     Gateway.extractS3Key := extractS3Key lib |}.

End WithSdk.

Close Scope eff_scope.
End S3Lazy.

(** ** [src/services/mongodb.js] *)

Module MongoDB.
Import Js Platform.
Open Scope eff_scope.

(** [parseInt(s)] without a radix: the digits are read as an integer, and
    the result is the double nearest to it. *)
Definition digit_value (radix : Z) (c : ascii) : option Z :=
  let n := Z.of_N (N_of_ascii c) in
  let d :=
    if (48 <=? n) && (n <=? 57) then Some (n - 48)
    else if (97 <=? n) && (n <=? 122) then Some (n - 87)
    else if (65 <=? n) && (n <=? 90) then Some (n - 55)
    else None in
  match d with
  | Some d => if d <? radix then Some d else None
  | None => None
  end.

Fixpoint parse_digits (radix : Z) (acc : option Z) (s : string) : option Z :=
  match s with
  | "" => acc
  | String c s' =>
      match digit_value radix c with
      | Some d => parse_digits radix (Some (default 0 acc * radix + d)) s'
      | None => acc
      end
  end.

Definition parseInt (s : string) : value :=
  let s := trimStart s in
  let '(sign, s) :=
    match s with
    | String "-" s' => (-1, s')
    | String "+" s' => (1, s')
    | _ => (1, s)
    end in
  let '(radix, s) :=
    match s with
    | String "0" (String "x" s') | String "0" (String "X" s') => (16, s')
    | _ => (10, s)
    end in
  match parse_digits radix None s with
  | Some n => number (sign * n)
  | None => VNaN
  end.

Section WithSdk.
Context {X D : Type} (lib : Sdk X D).

Definition connectToMongo : Eff (Process X) (option string) :=
  let! connected := reads db in
  match connected with
  | Some database => ret database
  | None =>
      let! cfg := reads config in
      if negb (present (mongodb_uri cfg)) then
        throw (JsError "MongoDB URI is not configured. Please set MONGODB_URI in your .env file")
      else
        sdk (MongoConnect (shown (mongodb_uri cfg))) (connect lib (shown (mongodb_uri cfg)));;
        modify (set_db (mongodb_database cfg));;
        ret (mongodb_database cfg)
  end.

Definition getQuestionsCollection : Eff (Process X) Collection :=
  let! database := connectToMongo in
  let! cfg := reads config in
  ret {| dbName := database; collectionName := mongodb_collection cfg |}.

(** The object literal [{ ...question, uploadedAt, originalImageUrl,
    s3ImageUrl, imageUrl }]. *)
Definition document_of (h : Heap) (question : value) (now : Z)
    (imageUrl s3ImageUrl : value) : list (string * value) :=
  let resolved := if truthy s3ImageUrl then s3ImageUrl else imageUrl in
  set_prop "imageUrl" resolved
    (set_prop "s3ImageUrl" resolved
       (set_prop "originalImageUrl" imageUrl
          (set_prop "uploadedAt" (VDate now) (spread_props h question)))).

Definition saveQuestionToMongoDB (h : Heap) (question s3ImageUrl : value)
  : Eff (Process X) string :=
  let! collection := getQuestionsCollection in
  let! now := ask (Date_now lib) in
  let! imageUrl := lift (get_prop h question "imageUrl") in
  let document := document_of h question now imageUrl s3ImageUrl in
  sdk (InsertOne collection document) (insertOne lib collection h document).

Definition deleteQuestionFromMongoDB (h : Heap) (documentId : string)
  : Eff (Process X) unit :=
  if negb (truthy (VStr documentId)) then ret tt
  else
    let! collection := getQuestionsCollection in
    let! _id := lift (ObjectId lib documentId) in
    sdk (DeleteOne collection _id) (deleteOne lib collection _id).

Definition questionExists (h : Heap) (questionId : value) : Eff (Process X) bool :=
  let! collection := getQuestionsCollection in
  let! count :=
    sdk (CountDocuments collection questionId) (countDocuments lib collection h questionId) in
  ret (0 <? count).

Definition getQuestionById (h : Heap) (questionId : value) : Eff (Process X) (option D) :=
  let! collection := getQuestionsCollection in
  let id := parseInt (ToString h questionId) in
  sdk (FindOne collection id) (findOne lib collection id).

Definition gateway : Gateway.DocumentStore (Process X) :=
  {| Gateway.questionExists := questionExists;
     Gateway.saveQuestionToMongoDB := saveQuestionToMongoDB;
     Gateway.deleteQuestionFromMongoDB := deleteQuestionFromMongoDB |}.

End WithSdk.

Close Scope eff_scope.
End MongoDB.

(** ** A scripted outside world, for running the services on examples *)

Module Lab.
Import Js Json Platform.

Definition Document := list (string * value).

Record World := mkWorld {
  clock : Z;
  unreachable : list string;
  insert_error : option string;
  bucket : list (string * string);
  documents : list (string * Document)
}.

Definition tick (w : World) : World :=
  mkWorld (clock w + 1) (unreachable w) (insert_error w) (bucket w) (documents w).

Definition with_bucket (b : list (string * string)) (w : World) : World :=
  mkWorld (clock w) (unreachable w) (insert_error w) b (documents w).

Definition with_documents (d : list (string * Document)) (w : World) : World :=
  mkWorld (clock w) (unreachable w) (insert_error w) (bucket w) d.

Definition lab_fetch (url : string) (w : World) : completion Response * World :=
  if bool_decide (url ∈ unreachable w)
  then (Throw (JsError ("request to " +:+ url +:+ " failed")), w)
  else (Normal {| ok := true; statusText := "OK"; arrayBuffer := Normal ("bytes of " +:+ url) |}, w).

(** The path of [https://host/path]: from the first [/] after the host up to
    a [?] or [#]. *)
Fixpoint until_query (s : string) : string :=
  match s with
  | "" => ""
  | String c s' =>
      if bool_decide (c = "?"%char) || bool_decide (c = "#"%char) then ""
      else String c (until_query s')
  end.

Fixpoint from_slash (s : string) : string :=
  match s with
  | "" => "/"
  | String c s' => if bool_decide (c = "/"%char) then until_query s else from_slash s'
  end.

Definition lab_pathname (s : string) : completion string :=
  match s with
  | String "h" (String "t" (String "t" (String "p" (String "s"
      (String ":" (String "/" (String "/" rest))))))) => Normal (from_slash rest)
  | _ => Throw (TypeError "Invalid URL")
  end.

Fixpoint checksum (s : string) : Z :=
  match s with
  | "" => 0
  | String c s' => Z.of_N (N_of_ascii c) + checksum s'
  end.

Definition has_id (id : value) (d : string * Document) : bool :=
  bool_decide (lookup_prop "id" d.2 = Some id).

Definition lab : Sdk World Document :=
  {| fetch := lab_fetch;
     send_PutObject := fun cmd w =>
       (Normal tt, with_bucket (bucket w ++ [(put_Key cmd, put_Body cmd)]) w);
     send_DeleteObject := fun cmd w =>
       (Normal tt,
        with_bucket (filter (fun o => negb (bool_decide (o.1 = del_Key cmd))) (bucket w)) w);
     Date_now := fun w => (clock w, tick w);
     random_suffix := fun w => ("k3x9", w);
     SHA256 := fun s => "digest" +:+ pretty (checksum s);
     URL_pathname := lab_pathname;
     ObjectId := fun s => Normal s;
     connect := fun uri w => (Normal tt, w);
     countDocuments := fun coll h id w =>
       (Normal (Z.of_nat (length (filter (fun d => has_id id d) (documents w)))), w);
     insertOne := fun coll h doc w =>
       match insert_error w with
       | Some msg => (Throw (JsError msg), w)
       | None =>
           let _id := "oid" +:+ pretty (length (documents w)) in
           (Normal _id, with_documents (documents w ++ [(_id, doc)]) w)
       end;
     deleteOne := fun coll _id w =>
       (Normal tt,
        with_documents (filter (fun d => negb (bool_decide (d.1 = _id))) (documents w)) w);
     findOne := fun coll id w =>
       (Normal (snd <$> head (filter (fun d => has_id id d) (documents w))), w) |}.

Definition lab_config : Config :=
  {| aws_region := Some "ap-southeast-2";
     aws_accessKeyId := Some "AKIA";
     aws_secretAccessKey := Some "secret";
     aws_s3BucketName := Some "paperplane-diagrams";
     mongodb_uri := Some "mongodb://localhost";
     mongodb_database := Some "question_bank";
     mongodb_collection := Some "questions" |}.

Definition boot (w : World) : Process World :=
  mkProcess lab_config None false None w [].

Definition quiet : World := mkWorld 1000 [] None [] [].

(** A fresh request: the body is parsed into an empty heap. *)
Definition request (body : json) (w : World) : value * UploadService.Machine (Process World) :=
  let '(v, h) := parse body [] in
  (v, UploadService.mkMachine h (boot w) []).

Definition upload (body : json) (w : World) :=
  let '(q, m) := request body w in
  UploadService.uploadQuestionToDB (S3Lazy.gateway lab) (MongoDB.gateway lab) q m.

End Lab.

(** ** The shape of a question, seen from outside the program *)

Module Schema.
Import Js.

(** A string, or nothing at all (any falsy value). *)
Definition url_like (v : value) : Prop :=
  truthy v = false ∨ ∃ s, v = VStr s.

Definition is_array (h : Heap) (v : value) : Prop :=
  ∃ l o vs, v = VRef l ∧ h !! l = Some o ∧ elems o = Some vs.

(** [block.images] is missing, or a list of strings. *)
Definition images_ok (h : Heap) (owner : value) (block : string) : Prop :=
  let images := field h (field h owner block) "images" in
  truthy images = false ∨ (is_array h images ∧ Forall url_like (items h images)).

Definition option_ok (h : Heap) (opt : value) : Prop :=
  nullish opt = false ∧ url_like (field h opt "image_url").

(** [owner.options] is missing, or a list of options. *)
Definition options_ok (h : Heap) (owner : value) : Prop :=
  let options := field h owner "options" in
  truthy options = false ∨ (is_array h options ∧ Forall (option_ok h) (items h options)).

Definition sub_question_ok (h : Heap) (subQ : value) : Prop :=
  nullish subQ = false ∧ images_ok h subQ "content" ∧ options_ok h subQ.

(** The fields that may carry image references have the types the data model
    gives them; any of them may be missing. *)
Definition question_ok (h : Heap) (question : value) : Prop :=
  nullish question = false
  ∧ url_like (field h question "imageUrl")
  ∧ images_ok h question "content"
  ∧ options_ok h question
  ∧ images_ok h question "comprehension_passage"
  ∧ (let subs := field h question "sub_questions" in
     truthy subs = false ∨ (is_array h subs ∧ Forall (sub_question_ok h) (items h subs))).

(** [question.field.images], read from outside. *)
Definition images_at (h : Heap) (question : value) (block : string) : list value :=
  items h (field h (field h question block) "images").

(** The six places an image reference can sit in. *)
Inductive image_location (h : Heap) (question : value) : value → Prop :=
| at_legacy :
    image_location h question (field h question "imageUrl")
| at_content v :
    v ∈ images_at h question "content" →
    image_location h question v
| at_option opt :
    opt ∈ items h (field h question "options") →
    image_location h question (field h opt "image_url")
| at_passage v :
    v ∈ images_at h question "comprehension_passage" →
    image_location h question v
| at_sub_content subQ v :
    subQ ∈ items h (field h question "sub_questions") →
    v ∈ images_at h subQ "content" →
    image_location h question v
| at_sub_option subQ opt :
    subQ ∈ items h (field h question "sub_questions") →
    opt ∈ items h (field h subQ "options") →
    image_location h question (field h opt "image_url").

(** A string with something other than white space in it. *)
Definition non_blank (v : value) : Prop :=
  ∃ s, v = VStr s ∧ trim s ≠ "".

End Schema.

(** ** Heaps that only grow

    The rewriter allocates copies and assigns properties; it removes
    nothing. These are the notions its effect is stated with. *)

Module Frame.
Import Js.

(** A reference points into the heap. *)
Definition valid (h : Heap) (v : value) : Prop :=
  match v with
  | VRef l => (l < length h)%nat
  | _ => True
  end.

(** Everything a cell holds points into the heap. *)
Definition closed_cell (h : Heap) (o : obj) : Prop :=
  Forall (valid h) (default [] (elems o)) ∧ Forall (fun kv => valid h kv.2) (props o).

(** No cell refers outside the heap. *)
Definition closed (h : Heap) : Prop := Forall (closed_cell h) h.

(** [h'] continues [h]: every cell of [h] is still there, with the same
    elements and the same properties except those listed in [W]. *)
Definition continues (W : list (loc * string)) (h h' : Heap) : Prop :=
  ∀ l o, h !! l = Some o →
    ∃ o', h' !! l = Some o'
          ∧ elems o' = elems o
          ∧ ∀ k, (l, k) ∉ W → lookup_prop k (props o') = lookup_prop k (props o).

(** A property name that starts with something other than a digit, and is
    not [length]. *)
Definition named (k : string) : Prop :=
  k ≠ "length"
  ∧ match k with
    | String c _ => ∀ d, pretty_N_char d ≠ c
    | "" => False
    end.

End Frame.

(** ** What a question holds, place by place *)

Module Slots.
Import Js UploadService Schema.

(** What one option contributes. *)
Definition pushed_of_option (h : Heap) (opt : value) : list value :=
  if truthy (field h opt "image_url") then [field h opt "image_url"] else [].

(** What the options of [owner] contribute. *)
Definition options_pushed (h : Heap) (owner : value) : list value :=
  concat (pushed_of_option h <$> items h (field h owner "options")).

Definition pushed_of_sub_question (h : Heap) (subQ : value) : list value :=
  images_at h subQ "content" ++ options_pushed h subQ.

Definition legacy_pushed (h : Heap) (question : value) : list value :=
  if truthy (field h question "imageUrl") then [field h question "imageUrl"] else [].

Definition subs_pushed (h : Heap) (question : value) : list value :=
  concat (pushed_of_sub_question h <$> items h (field h question "sub_questions")).

(** What the extractor pushes for a well-formed question, in the order it
    pushes it. *)
Definition pushed_of_question (h : Heap) (question : value) : list value :=
  legacy_pushed h question
    ++ images_at h question "content"
    ++ options_pushed h question
    ++ images_at h question "comprehension_passage"
    ++ subs_pushed h question.

(** The filter, as a test on values. *)
Definition kept (v : value) : bool :=
  match v with
  | VStr s => truthy (VStr (trim s))
  | _ => false
  end.

(** No reference is mapped to the empty string. *)
Definition map_ok (M : JsMap) : Prop := ∀ k s, map_get M k = Some s → s ≠ "".

(** The object [owner.block], if it is one. *)
Definition block_loc (h : Heap) (owner : value) (block : string) : list nat :=
  match field h owner block with
  | VRef c => [c]
  | _ => []
  end.

(** The [images] properties of the objects [cs]. *)
Definition images_of (cs : list nat) : list (nat * string) :=
  (fun c => (c, "images")) <$> cs.

(** The content blocks of the sub-questions [subs]. *)
Definition sub_blocks (h : Heap) (subs : list value) : list nat :=
  concat ((fun subQ => block_loc h subQ "content") <$> subs).

(** The objects whose [images] the rewriter assigns. *)
Definition image_blocks (h : Heap) (question : value) : list nat :=
  block_loc h question "content"
    ++ block_loc h question "comprehension_passage"
    ++ sub_blocks h (items h (field h question "sub_questions")).

(** A continuation that assigns no [content], [options] or [image_url], and
    no [images] of the content block of [subQ], leaves what [subQ] holds
    alone. *)
Definition spares (W : list (nat * string)) (h : Heap) (subQ : value) : Prop :=
  ∀ l k, (l, k) ∈ W →
    k ≠ "content" ∧ k ≠ "options" ∧ k ≠ "image_url"
    ∧ (k = "images" → l ∉ block_loc h subQ "content").

(** The property [k] of [owner], when [owner] is an object. *)
Definition own_key (owner : value) (k : string) : list (nat * string) :=
  match owner with
  | VRef n => [(n, k)]
  | _ => []
  end.

End Slots.

(** ** Reading a log of gateway calls *)

Module Audit.
Import Js Gateway UploadService.

(** Uploads that returned, with the URL they returned. *)
Definition migrated (log : list Call) : list (value * string) :=
  omap (fun c => match c with
                 | CallUploadImageToS3 imageUrl (Normal s3Url) => Some (imageUrl, s3Url)
                 | _ => None
                 end) log.

(** Uploads that threw. *)
Definition rejected (log : list Call) : list (value * thrown) :=
  omap (fun c => match c with
                 | CallUploadImageToS3 imageUrl (Throw e) => Some (imageUrl, e)
                 | _ => None
                 end) log.

Definition deleted_keys (log : list Call) : list string :=
  omap (fun c => match c with
                 | CallDeleteImageFromS3 s3Key _ => Some s3Key
                 | _ => None
                 end) log.

Definition deleted_documents (log : list Call) : list string :=
  omap (fun c => match c with
                 | CallDeleteQuestionFromMongoDB documentId _ => Some documentId
                 | _ => None
                 end) log.

(** What was handed to [saveQuestionToMongoDB]. *)
Definition saved (log : list Call) : list (value * value * completion string) :=
  omap (fun c => match c with
                 | CallSaveQuestionToMongoDB question s3ImageUrl res =>
                     Some (question, s3ImageUrl, res)
                 | _ => None
                 end) log.

(** The outcome of one pass through the upload loop. *)
Definition Outcome : Type := value * completion string.

Definition uploads (outcomes : list Outcome) : list Call :=
  (fun o => CallUploadImageToS3 o.1 o.2) <$> outcomes.

(** The object store can name the key of every URL it hands out, and hands
    out no empty URL. *)
Definition names_its_objects {W} (OS : ObjectStore W) : Prop :=
  ∀ h imageUrl w s3Url w',
    uploadImageToS3 OS h imageUrl w = (Normal s3Url, w') →
    s3Url ≠ "" ∧ ∃ s3Key, extractS3Key OS s3Url = Normal s3Key.

(** [key_of OS us k]: [k] is the key derived from the URL of [us]. *)
Definition key_of {W} (OS : ObjectStore W) (us : value * string) (k : string) : Prop :=
  extractS3Key OS us.2 = Normal k.

(** [record s3UrlMap l]: the map after [set]ting the pairs of [l] in turn. *)
Definition record (m : JsMap) (l : list (value * string)) : JsMap :=
  foldl (fun m us => map_set us.1 us.2 m) m l.

(** How the inner [catch] files an error under [failedImages]. *)
Definition filed (h : Heap) (ue : value * thrown) (f : FailedImage) : Prop :=
  url f = ue.1 ∧ error_message h ue.2 = Normal (error f).

(** [c] is the call that deletes the object [k]. *)
Definition deletes (c : Call) (k : string) : Prop :=
  ∃ res, c = CallDeleteImageFromS3 k res.

(** The document deletion the [catch] block attempts: one call if a store
    id is held, none otherwise. *)
Definition removal_of (saved : option string) (removal : list Call) : Prop :=
  match saved with
  | Some documentId =>
      if truthy (VStr documentId)
      then ∃ res, removal = [CallDeleteQuestionFromMongoDB documentId res]
      else removal = []
  | None => removal = []
  end.

Definition tally (acc : BatchResult) (new : list UploadResult) : BatchResult :=
  {| successful := successful acc + length (filter (fun r => success r = true) new);
     failed := failed acc + length (filter (fun r => success r = false) new);
     results := results acc ++ new |}.

(** The three ways the [try] block of [uploadQuestionToDB] can end, with the
    state it leaves: the question is a duplicate, the question is saved, or
    something is thrown. *)
Inductive attempt {W} (OS : ObjectStore W) (DS : DocumentStore W)
    (question : value) (m : Machine W) : completion UploadResult → Run W → Prop :=
| attempt_duplicate questionId w :
    get_prop (heap m) question "id" = Normal questionId →
    questionExists DS (heap m) questionId (world m) = (Normal true, w) →
    attempt OS DS question m
      (Normal {| success := false;
                 message := duplicate_message (heap m) questionId;
                 s3Urls := None; resultMongoId := None; failedImages := None |})
      (mkRun (mkMachine (heap m) w (calls m ++ [CallQuestionExists questionId (Normal true)]))
         [] [] None)
| attempt_saved questionId imageUrls outcomes keys entries question' documentId r1 :
    get_prop (heap m) question "id" = Normal questionId →
    collectImageUrls (heap m) question = Normal imageUrls →
    outcomes.*1 = imageUrls →
    s3UrlMap r1 = migrated (uploads outcomes) →
    uploadedS3Keys r1 = keys →
    Forall2 (key_of OS) (migrated (uploads outcomes)) keys →
    Forall (fun us => us.2 ≠ "") (migrated (uploads outcomes)) →
    Forall2 (filed (heap m)) (rejected (uploads outcomes)) entries →
    replaceImageUrls question (s3UrlMap r1) (heap m) = (Normal question', heap (machine r1)) →
    calls (machine r1)
    = calls m ++ [CallQuestionExists questionId (Normal false)] ++ uploads outcomes
        ++ [CallSaveQuestionToMongoDB question'
              (map_get_v (s3UrlMap r1) (field (heap (machine r1)) question "imageUrl"))
              (Normal documentId)] →
    mongoId r1 = Some documentId →
    attempt OS DS question m
      (Normal {| success := true;
                 message := success_message entries;
                 s3Urls := Some (map_values (s3UrlMap r1));
                 resultMongoId := Some documentId;
                 failedImages := if bool_decide (entries = []) then None else Some entries |})
      r1
| attempt_fault e tr keys r1 :
    calls (machine r1) = calls m ++ tr →
    deleted_keys tr = [] →
    deleted_documents tr = [] →
    uploadedS3Keys r1 = keys →
    Forall2 (key_of OS) (migrated tr) keys →
    mongoId r1 = None →
    Forall (fun x => ∃ e', x.2 = Throw e') (saved tr) →
    attempt OS DS question m (Throw e) r1.

(** One run of the single-question protocol after another. *)
Inductive in_sequence {W} (OS : ObjectStore W) (DS : DocumentStore W)
  : list value → Machine W → list UploadResult → Machine W → Prop :=
| sequence_nil m :
    in_sequence OS DS [] m [] m
| sequence_cons question questions m result m1 results m2 :
    uploadQuestionToDB OS DS question m = (Normal result, m1) →
    in_sequence OS DS questions m1 results m2 →
    in_sequence OS DS (question :: questions) m (result :: results) m2.

End Audit.

(** ** Requests and worlds used as examples *)

Module Scenarios.
Import Js Json Platform.

(** A collection holding one question whose id is the string ["q1"]. *)
Definition holding_q1 : Lab.World :=
  Lab.mkWorld 1000 [] None []
    [("oid0", [("id", VStr "q1"); ("description", VStr "What is React?")])].

Definition with_images : json :=
  JObj [("id", JStr "q1");
        ("content", JObj [("text", JStr "Which one?");
                          ("images", JArr [JStr "http://x/a.png"])]);
        ("comprehension_passage", JObj [("images", JArr [JStr "http://x/p.png"])]);
        ("sub_questions",
         JArr [JObj [("content", JObj [("images", JArr [JStr "http://x/s.png"])])]])].

Definition migration : JsMap :=
  [(VStr "http://x/a.png", "https://b.s3.r.amazonaws.com/questions/a.png");
   (VStr "http://x/p.png", "https://b.s3.r.amazonaws.com/questions/p.png");
   (VStr "http://x/s.png", "https://b.s3.r.amazonaws.com/questions/s.png")].

(** References in all six places, with a repeat, an empty string, a blank
    string and one padded with spaces. *)
Definition six_places : json :=
  JObj [("id", JStr "q6");
        ("imageUrl", JStr " http://x/legacy.png ");
        ("content", JObj [("images", JArr [JStr "http://x/a.png"; JStr ""; JStr "  ";
                                           JStr "http://x/a.png"])]);
        ("options", JArr [JObj [("text", JStr "A"); ("image_url", JStr "")];
                          JObj [("text", JStr "B"); ("image_url", JStr "http://x/o.png")];
                          JStr "C"]);
        ("comprehension_passage", JObj [("images", JArr [JStr "http://x/p.png"])]);
        ("sub_questions",
         JArr [JObj [("content", JObj [("images", JArr [JStr "http://x/s.png"])]);
                     ("options", JArr [JObj [("image_url", JStr "http://x/so.png")]])]])].

(** An image list holding a number. *)
Definition number_among_images : json :=
  JObj [("id", JStr "q7"); ("content", JObj [("images", JArr [JNum 5])])].

(** The legacy question of the README. *)
Definition legacy_question : json :=
  JObj [("id", JNum 1);
        ("description", JStr "What is React?");
        ("options", JArr [JStr "A library"; JStr "A framework"]);
        ("imageUrl", JStr "http://x/a.png")].

(** Two images in the content block. *)
Definition two_images : json :=
  JObj [("id", JStr "q2");
        ("content", JObj [("text", JStr "Which one?");
                          ("images", JArr [JStr "http://x/a.png"; JStr "http://x/b.png"])])].


Definition b_unreachable : Lab.World :=
  Lab.mkWorld 1000 ["http://x/b.png"] None [] [].

Definition insert_refused : Lab.World :=
  Lab.mkWorld 1000 [] (Some "E11000 duplicate key error") [] [].

Definition lab_s3 : Gateway.ObjectStore (Process Lab.World) := S3Lazy.gateway Lab.lab.
Definition lab_mongo : Gateway.DocumentStore (Process Lab.World) := MongoDB.gateway Lab.lab.

(** A question whose insert is refused after both images went up. *)
Definition refused : value * UploadService.Machine (Process Lab.World) :=
  Lab.request two_images insert_refused.

Definition refused_run : UploadService.Run (Process Lab.World) :=
  (UploadService.uploadQuestionToDB_try lab_s3 lab_mongo refused.1
     (UploadService.start refused.2)).2.

(** A question one of whose two images cannot be fetched. *)
Definition partial : value * UploadService.Machine (Process Lab.World) :=
  Lab.request two_images b_unreachable.

Definition partial_run : UploadService.Run (Process Lab.World) :=
  (UploadService.uploadQuestionToDB_try lab_s3 lab_mongo partial.1
     (UploadService.start partial.2)).2.

Definition partial_result : UploadService.UploadResult :=
  {| UploadService.success := true;
     UploadService.message := "Successfully uploaded to database! Warning: 1 image(s) failed to upload to S3. The question was saved with original image URLs.";
     UploadService.s3Urls :=
       Some ["https://paperplane-diagrams.s3.ap-southeast-2.amazonaws.com/questions/digest1853.png"];
     UploadService.resultMongoId := Some "oid0";
     UploadService.failedImages :=
       Some [{| UploadService.url := VStr "http://x/b.png";
                UploadService.error := VStr "request to http://x/b.png failed" |}] |}.

(** What that run asks of the gateways. *)
Definition partial_log : list Gateway.Call :=
  [Gateway.CallQuestionExists (VStr "q2") (Normal false);
   Gateway.CallUploadImageToS3 (VStr "http://x/a.png")
     (Normal "https://paperplane-diagrams.s3.ap-southeast-2.amazonaws.com/questions/digest1853.png");
   Gateway.CallUploadImageToS3 (VStr "http://x/b.png")
     (Throw (JsError "request to http://x/b.png failed"));
   Gateway.CallSaveQuestionToMongoDB (VRef 3) VUndef (Normal "oid0")].


(** A batch of three: the second repeats the id of the first. *)
Definition three_questions : value * UploadService.Machine (Process Lab.World) :=
  Lab.request (JArr [legacy_question; legacy_question; two_images]) Lab.quiet.

(** A batch of three whose second element is [null]. *)
Definition null_among_questions : value * UploadService.Machine (Process Lab.World) :=
  Lab.request (JArr [legacy_question; JNull; two_images]) Lab.quiet.

(** Questions whose id is a string: a name, and a numeral. *)
Definition named_question : json :=
  JObj [("id", JStr "test-question-123"); ("description", JStr "What is React?")].

Definition numeral_question : json :=
  JObj [("id", JStr "42"); ("description", JStr "What is React?")].

End Scenarios.

(** ** Text *)

Module Text.
Import Js.

(** The code unit [c] occurs in [s]. *)
Definition occurs (c : ascii) (s : string) : Prop := c ∈ String.list_ascii_of_string s.
(** Where the digits end: at the end of the text, or at a code unit that is
    not a decimal digit (and, after a lone [0], not the [x] of a hexadecimal
    prefix). *)
Definition stops (n : Z) (rest : string) : Prop :=
  match rest with
  | "" => True
  | String c _ =>
      MongoDB.digit_value 10 c = None ∧ (n = 0 → c ≠ "x"%char ∧ c ≠ "X"%char)
  end.

End Text.

(** ** What a run asked of the SDK *)

Module SdkLog.
Import Js Platform.

(** The [PutObject] commands among SDK calls. *)
Definition puts (log : list SdkCall) : list PutObjectCommand :=
  omap (fun c => match c with SendPutObject cmd => Some cmd | _ => None end) log.

(** The connection attempts among SDK calls. *)
Definition connects (log : list SdkCall) : list string :=
  omap (fun c => match c with MongoConnect uri => Some uri | _ => None end) log.

(** The documents handed to [insertOne] among SDK calls. *)
Definition inserts (log : list SdkCall) : list (list (string * value)) :=
  omap (fun c => match c with InsertOne _ document => Some document | _ => None end) log.

(** [p'] is [p] after some calls into the SDK: the configuration is the
    same, and the log has grown by [new]. *)
Definition after_calls {X} (new : list SdkCall) (p p' : Process X) : Prop :=
  config p' = config p ∧ sdk_calls p' = sdk_calls p ++ new.

(** The module-level variables of [mongodb.js] are as they were. *)
Definition same_mongo {X} (p p' : Process X) : Prop := db p' = db p.

(** The module-level variables of [s3.js] are as they were. *)
Definition same_s3 {X} (p p' : Process X) : Prop :=
  BUCKET_NAME p' = BUCKET_NAME p ∧ s3Client p' = s3Client p.

End SdkLog.

(** ** The earlier revision of [uploadService.js]

    It differs from the current one in three places: [question.id] is first
    read inside the [try]; an upload that throws is logged and forgotten;
    the success result carries neither a warning nor [failedImages]. *)

Module UploadServiceOld.
Import Js UploadService.
Open Scope eff_scope.

Section Orchestrator.
Context {W : Type} (OS : Gateway.ObjectStore W) (DS : Gateway.DocumentStore W).

(** The body of the loop; the [catch] reads [error.message] for its log
    line. *)
Definition upload_one (imageUrl : value) : Eff (Run W) unit :=
  try_catch
    (let! s3Url := call_uploadImageToS3 OS imageUrl in
     modify (set_url imageUrl s3Url);;
     let! key := lift (Gateway.extractS3Key OS s3Url) in
     modify (push_key key))
    (fun e =>
     inspect (fun h => error_message h e);;
     ret tt).

Fixpoint upload_all (imageUrls : list value) : Eff (Run W) unit :=
  match imageUrls with
  | [] => ret tt
  | imageUrl :: rest => upload_one imageUrl;; upload_all rest
  end.

Definition uploadQuestionToDB_try (question : value) : Eff (Run W) UploadResult :=
  let! questionId := inspect (fun h => get_prop h question "id") in
  let! exists_ := call_questionExists DS questionId in
  if (exists_ : bool) then
    let! h := reads (fun r => heap (machine r)) in
    ret {| success := false;
           message := duplicate_message h questionId;
           s3Urls := None; resultMongoId := None; failedImages := None |}
  else
    let! imageUrls := inspect (fun h => collectImageUrls h question) in
    upload_all imageUrls;;
    let! urlMap := reads s3UrlMap in
    let! questionWithS3Urls := on_heap (replaceImageUrls question urlMap) in
    let! legacy := inspect (fun h => get_prop h question "imageUrl") in
    let! id := call_saveQuestionToMongoDB DS questionWithS3Urls (map_get_v urlMap legacy) in
    modify (set_mongoId id);;
    ret {| success := true;
           message := "Successfully uploaded to database!";
           s3Urls := Some (map_values urlMap);
           resultMongoId := Some id;
           failedImages := None |}.

Definition uploadQuestionToDB (question : value) : Eff (Machine W) UploadResult :=
  fun m =>
  let '(res, r) :=
    try_catch (uploadQuestionToDB_try question) (uploadQuestionToDB_catch OS DS) (start m) in
  (res, machine r).

Fixpoint upload_each (questions : list value) (acc : BatchResult)
  : Eff (Machine W) BatchResult :=
  match questions with
  | [] => ret acc
  | question :: rest =>
      let! result := uploadQuestionToDB question in
      upload_each rest
        {| successful := if success result then S (successful acc) else successful acc;
           failed := if success result then failed acc else S (failed acc);
           results := results acc ++ [result] |}
  end.

Definition uploadMultipleQuestions (questions : value) : Eff (Machine W) BatchResult :=
  let! qs := (fun m => (for_of "questions" (heap m) questions, m)) in
  upload_each qs {| successful := 0; failed := 0; results := [] |}.

End Orchestrator.

(** What the earlier revision reports for a result of the current one. *)
Definition reported_before (result : UploadResult) : UploadResult :=
  if success result then
    {| success := true;
       message := "Successfully uploaded to database!";
       s3Urls := s3Urls result;
       resultMongoId := resultMongoId result;
       failedImages := None |}
  else result.

Close Scope eff_scope.
End UploadServiceOld.

(** ** [src/routes/questions.js]: the upload endpoints *)

Module Routes.
Import Js UploadService.
Open Scope eff_scope.

(** What [res.status(..).json(..)] is given. *)
Inductive Body :=
| Message (success : bool) (message : value)
| Uploaded (result : UploadResult)
| BatchReport (report : BatchResult).

Record Reply := {
  status : Z;
  body : Body
}.

(** [const { k } = source] *)
Definition destructure (h : Heap) (v : value) (k source : string) : completion value :=
  match v with
  | VUndef =>
      Throw (TypeError ("Cannot destructure property '" +:+ k +:+ "' of '" +:+ source
                          +:+ "' as it is undefined."))
  | VNull =>
      Throw (TypeError ("Cannot destructure property '" +:+ k +:+ "' of '" +:+ source
                          +:+ "' as it is null."))
  | _ => get_prop h v k
  end.

Definition isArray (h : Heap) (v : value) : bool :=
  match v with
  | VRef l =>
      match h !! l with
      | Some (mkObj (Some _) _) => true
      | _ => false
      end
  | _ => false
  end.

Definition refuse (message : string) : Reply :=
  {| status := 400; body := Message false (VStr message) |}.

(** The [catch] of a handler:
    [res.status(500).json({ success: false, message: error.message || fallback })]. *)
Definition internal_error (fallback : string) (h : Heap) (e : thrown) : completion Reply :=
  message ← error_message h e;
  mret {| status := 500;
          body := Message false (if truthy message then message else VStr fallback) |}.

(** The validation that depends on [question.type]; [Some] is the message of
    the refusal. *)
Definition type_refusal (h : Heap) (questionType question : value)
  : completion (option string) :=
  if decide (questionType = VStr "comprehension") then
    passage ← get_prop h question "comprehension_passage";
    if negb (truthy passage)
    then mret (Some "Comprehension questions require passage and sub_questions")
    else
      sub_questions ← get_prop h question "sub_questions";
      mret (if negb (truthy sub_questions)
            then Some "Comprehension questions require passage and sub_questions"
            else None)
  else if decide (questionType = VStr "matrix") then
    matrix_match ← get_prop h question "matrix_match";
    mret (if negb (truthy matrix_match)
          then Some "Matrix questions require matrix_match field" else None)
  else if decide (questionType = VStr "integer") then
    content ← get_prop h question "content";
    mret (if negb (truthy content)
          then Some "Integer questions require content field" else None)
  else
    content ← get_prop h question "content";
    if truthy content then mret None
    else
      description ← get_prop h question "description";
      mret (if negb (truthy description)
            then Some "Questions require content or description field" else None).

Section Handlers.
Context {W : Type} (OS : Gateway.ObjectStore W) (DS : Gateway.DocumentStore W).

Definition look {A} (f : Heap → completion A) : Eff (Machine W) A :=
  fun m => (f (heap m), m).

(** [router.post('/upload', ..)]; [reqBody] is [req.body]. *)
Definition post_upload (reqBody : value) : Eff (Machine W) Reply :=
  try_catch
    (let! question := look (fun h => destructure h reqBody "question" "req.body") in
     if negb (truthy question) then ret (refuse "Question data is required")
     else
       let! type := look (fun h => get_prop h question "type") in
       let questionType := if truthy type then type else VStr "single" in
       let! id := look (fun h => get_prop h question "id") in
       if negb (truthy id) then ret (refuse "Invalid question format. Required field: id")
       else
         let! refusal := look (fun h => type_refusal h questionType question) in
         match refusal with
         | Some message => ret (refuse message)
         | None =>
             let! result := uploadQuestionToDB OS DS question in
             ret {| status := if success result then 200 else 400;
                    body := Uploaded result |}
         end)
    (fun e => look (fun h => internal_error "Internal server error" h e)).

(** [router.post('/upload-batch', ..)] *)
Definition post_upload_batch (reqBody : value) : Eff (Machine W) Reply :=
  try_catch
    (let! questions := look (fun h => destructure h reqBody "questions" "req.body") in
     let! array := look (fun h => Normal (isArray h questions)) in
     if negb (truthy questions) || negb array then ret (refuse "Questions array is required")
     else
       let! length := look (fun h => get_prop h questions "length") in
       if decide (length = VNum 0) then ret (refuse "Questions array cannot be empty")
       else
         let! result := uploadMultipleQuestions OS DS questions in
         ret {| status := 200; body := BatchReport result |})
    (fun e => look (fun h => internal_error "Internal server error" h e)).

(** [router.post('/delete-batch', ..)]. [mongodb.js] exports no
    [deleteMultipleQuestionsFromMongoDB]: the name taken from the imported
    module is [undefined], and calling it throws. *)
Definition post_delete_batch (reqBody : value) : Eff (Machine W) Reply :=
  try_catch
    (let! questionIds := look (fun h => destructure h reqBody "questionIds" "req.body") in
     let! array := look (fun h => Normal (isArray h questionIds)) in
     if negb (truthy questionIds) || negb array then ret (refuse "questionIds array is required")
     else
       let! length := look (fun h => get_prop h questionIds "length") in
       if decide (length = VNum 0) then ret (refuse "questionIds array cannot be empty")
       else throw (TypeError "deleteMultipleQuestionsFromMongoDB is not a function"))
    (fun e => look (fun h => internal_error "Failed to delete questions" h e)).

End Handlers.

Close Scope eff_scope.
End Routes.

(** ** [src/services/mongodb.js]: queries and updates *)

Module MongoQueries.
Import Js Platform MongoDB.
Open Scope eff_scope.

(** What [createIndex] is given: the keys (each ascending) and whether the
    index is to be unique. *)
Record IndexSpec := {
  index_keys : list string;
  index_unique : bool
}.

(** The driver calls; a [createIndex] is logged with what it answered. *)
Inductive DriverCall :=
| Find (coll : Collection) (query : list (string * value))
| Distinct (coll : Collection) (field : string)
| CreateIndex (coll : Collection) (spec : IndexSpec) (outcome : completion unit)
| UpdateOne (coll : Collection) (_id : string) (set : list (string * value)).

(** The driver operations these functions use, over the same outside world
    as the rest of the SDK. [updateOne] answers [matchedCount]. *)
Record Driver (X D : Type) := {
  find_toArray : Collection → list (string * value) → X → completion (list D) * X;
  distinct : Collection → string → X → completion (list value) * X;
  createIndex : Collection → IndexSpec → X → completion unit * X;
  updateOne : Collection → string → list (string * value) → X → completion Z * X
}.
Arguments find_toArray {X D}.
Arguments distinct {X D}.
Arguments createIndex {X D}.
Arguments updateOne {X D}.

(** The process together with the log of these driver calls. *)
Record Session (X : Type) := mkSession {
  process : Process X;
  driver_calls : list DriverCall
}.
Arguments mkSession {X}.
Arguments process {X}.
Arguments driver_calls {X}.

Definition in_process {X A} (c : Eff (Process X) A) : Eff (Session X) A :=
  fun s =>
  let '(res, p) := c (process s) in
  (res, mkSession p (driver_calls s)).

(** A call into the driver: answered by the outside, then logged; the log
    entry may hold the answer. *)
Definition drive_logged {X A} (c : completion A → DriverCall) (op : X → completion A * X)
  : Eff (Session X) A :=
  fun s =>
  let p := process s in
  let '(res, x) := op (outside p) in
  (res,
   mkSession (mkProcess (config p) (BUCKET_NAME p) (s3Client p) (db p) x (sdk_calls p))
     (driver_calls s ++ [c res])).

Definition drive {X A} (c : DriverCall) (op : X → completion A * X) : Eff (Session X) A :=
  drive_logged (fun _ => c) op.

(** [const { _id, ...rest } = v]: the properties other than [_id]. *)
Definition without_id (ps : list (string * value)) : list (string * value) :=
  filter (fun kv => kv.1 ≠ "_id") ps.

Definition rest_without_id (h : Heap) (updatedQuestion : value)
  : completion (list (string * value)) :=
  match updatedQuestion with
  | VUndef =>
      Throw (TypeError "Cannot destructure property '_id' of 'updatedQuestion' as it is undefined.")
  | VNull =>
      Throw (TypeError "Cannot destructure property '_id' of 'updatedQuestion' as it is null.")
  | _ => Normal (without_id (spread_props h updatedQuestion))
  end.

(** [l.filter(s => s && s !== 'Unknown')] *)
Definition known (vs : list value) : list value :=
  filter (fun v => truthy v = true ∧ v ≠ VStr "Unknown") vs.

(** [l.sort()]: by the code units of the string forms; equal forms keep
    their order. *)
Fixpoint sort_insert (h : Heap) (v : value) (sorted : list value) : list value :=
  match sorted with
  | [] => [v]
  | w :: rest =>
      if String.ltb (ToString h v) (ToString h w) then v :: w :: rest
      else w :: sort_insert h v rest
  end.

Definition sort (h : Heap) (vs : list value) : list value :=
  foldl (fun sorted v => sort_insert h v sorted) [] vs.

(** The order [sort] puts values in: by the code units of their string
    forms. *)
Definition in_order (h : Heap) (v w : value) : Prop :=
  String.leb (ToString h v) (ToString h w) = true.

(** What the filter and the sort make of a list of values. *)
Definition presented (h : Heap) (answer shown : list value) : Prop :=
  Sorted (in_order h) shown
  ∧ shown ≡ₚ known answer
  ∧ ∀ v, v ∈ shown ↔ v ∈ answer ∧ truthy v = true ∧ v ≠ VStr "Unknown".

Record FilterOptions := {
  subjects : list value;
  chapters : list value;
  sections : list value
}.

Section WithSdk.
Context {X D : Type} (lib : Sdk X D) (driver : Driver X D).

(** One line of the query: [if (filters.k) query.k = filters.k]. The default
    [filters = {}] stands in for [undefined]. *)
Definition query_entry (h : Heap) (filters : value) (k : string)
  : completion (list (string * value)) :=
  v ← match filters with
      | VUndef => Normal VUndef
      | _ => get_prop h filters k
      end;
  mret (if truthy v then [(k, v)] else []).

Definition getAllQuestions (h : Heap) (filters : value) : Eff (Session X) (list D) :=
  let! collection := in_process (getQuestionsCollection lib) in
  let! subject := lift (query_entry h filters "subject") in
  let! chapter := lift (query_entry h filters "chapter") in
  let! section := lift (query_entry h filters "section") in
  let query := subject ++ chapter ++ section in
  drive (Find collection query) (find_toArray driver collection query).

Definition getFilterOptions (h : Heap) : Eff (Session X) FilterOptions :=
  let! collection := in_process (getQuestionsCollection lib) in
  let! subjects :=
    drive (Distinct collection "subject") (distinct driver collection "subject") in
  let! chapters :=
    drive (Distinct collection "chapter") (distinct driver collection "chapter") in
  let! sections :=
    drive (Distinct collection "section") (distinct driver collection "section") in
  ret {| subjects := sort h (known subjects);
         chapters := sort h (known chapters);
         sections := sort h (known sections) |}.

Definition the_indexes : list IndexSpec :=
  [ {| index_keys := ["subject"; "chapter"; "section"]; index_unique := false |};
    {| index_keys := ["subject"]; index_unique := false |};
    {| index_keys := ["chapter"]; index_unique := false |};
    {| index_keys := ["section"]; index_unique := false |};
    {| index_keys := ["id"]; index_unique := true |} ].

Fixpoint create_each (collection : Collection) (specs : list IndexSpec)
  : Eff (Session X) unit :=
  match specs with
  | [] => ret tt
  | spec :: rest =>
      drive_logged (CreateIndex collection spec) (createIndex driver collection spec);;
      create_each collection rest
  end.

Definition createIndexes : Eff (Session X) unit :=
  let! collection := in_process (getQuestionsCollection lib) in
  create_each collection the_indexes.

Definition updateQuestionInMongoDB (h : Heap) (documentId : string) (updatedQuestion : value)
  : Eff (Session X) Z :=
  if negb (truthy (VStr documentId)) then throw (JsError "Document ID is required")
  else
    let! collection := in_process (getQuestionsCollection lib) in
    let! questionData := lift (rest_without_id h updatedQuestion) in
    let! now := in_process (ask (Date_now lib)) in
    let updateData := set_prop "updatedAt" (VDate now) questionData in
    let! _id := lift (ObjectId lib documentId) in
    let! matchedCount :=
      drive (UpdateOne collection _id updateData)
        (updateOne driver collection _id updateData) in
    if decide (matchedCount = 0) then throw (JsError "Question not found")
    else ret matchedCount.

End WithSdk.

Close Scope eff_scope.
End MongoQueries.

(** ** Further requests and environments used as examples *)

Module Requests.
Import Js Json Platform Scenarios.

(** A process started without [S3_BUCKET_NAME]. *)
Definition unconfigured : Process Lab.World :=
  mkProcess
    {| aws_region := Some "ap-southeast-2";
       aws_accessKeyId := Some "AKIA";
       aws_secretAccessKey := Some "secret";
       aws_s3BucketName := None;
       mongodb_uri := Some "mongodb://localhost";
       mongodb_database := Some "question_bank";
       mongodb_collection := Some "questions" |}
    None false None Lab.quiet [].

(** The scripted environment, except that every download is answered with
    [404 Not Found]. *)
Definition not_found : Sdk Lab.World Lab.Document :=
  {| fetch := fun url w =>
       (Normal {| ok := false; statusText := "Not Found"; arrayBuffer := Normal "" |}, w);
     send_PutObject := send_PutObject Lab.lab;
     send_DeleteObject := send_DeleteObject Lab.lab;
     Date_now := Date_now Lab.lab;
     random_suffix := random_suffix Lab.lab;
     SHA256 := SHA256 Lab.lab;
     URL_pathname := URL_pathname Lab.lab;
     ObjectId := ObjectId Lab.lab;
     connect := connect Lab.lab;
     countDocuments := countDocuments Lab.lab;
     insertOne := insertOne Lab.lab;
     deleteOne := deleteOne Lab.lab;
     findOne := findOne Lab.lab |}.

(** The body of a [POST /upload] request. *)
Definition upload_request : value * UploadService.Machine (Process Lab.World) :=
  Lab.request (JObj [("question", legacy_question)]) Lab.quiet.

(** The body of a [POST /upload-batch] request with two questions. *)
Definition batch_request : value * UploadService.Machine (Process Lab.World) :=
  Lab.request (JObj [("questions", JArr [legacy_question; two_images])]) Lab.quiet.

(** The same, with a [null] between the two questions. *)
Definition broken_batch : value * UploadService.Machine (Process Lab.World) :=
  Lab.request (JObj [("questions", JArr [legacy_question; JNull; two_images])]) Lab.quiet.

(** An array of questions that starts with [null]. *)
Definition with_null : value * UploadService.Machine (Process Lab.World) :=
  Lab.request (JArr [JNull; legacy_question]) Lab.quiet.

End Requests.

(** * Properties *)

(** ** The object-store gateway *)

Module S3Facts.
Import Js Platform.

(** C10. A falsy source URL (the empty string, [null], [undefined], ...) makes
    [uploadImageToS3] throw [Error('No image URL provided')] in both
    revisions of [s3.js], leaving the process as it was: nothing is fetched,
    nothing is sent to the object store, no clock or random value is drawn. *)
Theorem uploadImageToS3_requires_url {X D} (lib : Sdk X D) (h : Heap)
    (imageUrl : value) (p : Process X) :
  truthy imageUrl = false →
  S3Eager.uploadImageToS3 lib h imageUrl p = (Throw (JsError "No image URL provided"), p)
  ∧ S3Lazy.uploadImageToS3 lib h imageUrl p = (Throw (JsError "No image URL provided"), p).
Proof.
  intros Hfalsy.
  unfold S3Eager.uploadImageToS3, S3Lazy.uploadImageToS3.
  rewrite Hfalsy. simpl. split; reflexivity.
Qed.

Lemma uploadImageToS3_requires_url_witness :
  truthy (VStr "") = false
  ∧ S3Eager.uploadImageToS3 Lab.lab [] (VStr "") (Lab.boot Lab.quiet)
    = (Throw (JsError "No image URL provided"), Lab.boot Lab.quiet)
  ∧ S3Lazy.uploadImageToS3 Lab.lab [] (VStr "") (Lab.boot Lab.quiet)
    = (Throw (JsError "No image URL provided"), Lab.boot Lab.quiet).
Proof.
  split; [reflexivity |].
  apply (uploadImageToS3_requires_url Lab.lab [] (VStr "") (Lab.boot Lab.quiet)).
  reflexivity.
Defined.

End S3Facts.

(** ** The document-store gateway *)

Module MongoFacts.
Import Js Platform Scenarios.

Lemma number_not_string (n : Z) (s : string) : number n ≠ VStr s.
Proof. unfold number. by case_match. Qed.

Lemma parseInt_not_string (s t : string) : MongoDB.parseInt s ≠ VStr t.
Proof.
  unfold MongoDB.parseInt.
  destruct (match trimStart s with
            | String "-" s' => (-1, s')
            | String "+" s' => (1, s')
            | _ => (1, trimStart s)
            end) as [sign rest].
  destruct (match rest with
            | String "0" (String "x" s') | String "0" (String "X" s') => (16, s')
            | _ => (10, rest)
            end) as [radix digits].
  destruct (MongoDB.parse_digits radix None digits); [apply number_not_string | done].
Qed.

(** Whatever it is given, [getQuestionById] asks the driver for one document
    whose [id] is [parseInt(String(questionId))]: a number, never a string. *)
Lemma getQuestionById_asks_for_a_number {X D} (lib : Sdk X D) (h : Heap)
    (questionId : value) (p p1 : Process X) (coll : Collection) :
  MongoDB.getQuestionsCollection lib p = (Normal coll, p1) →
  ∃ id,
    (∀ s, id ≠ VStr s)
    ∧ MongoDB.getQuestionById lib h questionId p
      = sdk (FindOne coll id) (findOne lib coll id) p1.
Proof.
  intros Hcoll. exists (MongoDB.parseInt (ToString h questionId)).
  split; [intros s; apply parseInt_not_string |].
  unfold MongoDB.getQuestionById, bind. by rewrite Hcoll.
Qed.

End MongoFacts.

(** ** The extractor *)

Module ExtractorFacts.
Import Js Json UploadService Schema Slots Scenarios.

Lemma get_prop_field (h : Heap) (v : value) (k : string) :
  nullish v = false → get_prop h v k = Normal (field h v k).
Proof.
  intros Hv. unfold field.
  destruct v; try discriminate; simpl; try reflexivity.
  destruct (h !! l); reflexivity.
Qed.

Lemma get_prop_opt_field (h : Heap) (v : value) (k : string) :
  get_prop_opt h v k = Normal (field h v k).
Proof.
  unfold get_prop_opt. destruct (nullish v) eqn:Hv.
  - destruct v; try discriminate; reflexivity.
  - by apply get_prop_field.
Qed.

Lemma items_falsy (h : Heap) (v : value) : truthy v = false → items h v = [].
Proof. destruct v; try discriminate; reflexivity. Qed.

Lemma iterate_array (h : Heap) (v : value) :
  is_array h v → iterate h v = Normal (items h v).
Proof.
  intros (l & o & vs & -> & Hl & Hvs). simpl. rewrite Hl.
  destruct o as [el ps]; simpl in *. by subst.
Qed.

Lemma array_method_array (h : Heap) (v : value) (source name : string) :
  is_array h v → array_method h v source name = Normal (items h v).
Proof.
  intros (l & o & vs & -> & Hl & Hvs). simpl. rewrite Hl.
  destruct o as [el ps]; simpl in *. by subst.
Qed.

Lemma forEach_collect_all (f : value → completion (list value))
    (g : value → list value) (vs : list value) :
  Forall (fun v => f v = Normal (g v)) vs →
  forEach_collect f vs = Normal (concat (g <$> vs)).
Proof.
  induction 1 as [| v vs Hv _ IH]; [reflexivity |].
  simpl. rewrite Hv. simpl. rewrite IH. reflexivity.
Qed.

Lemma block_images_ok (source : string) (h : Heap) (owner : value) (block : string) :
  nullish owner = false → images_ok h owner block →
  block_images source h owner block = Normal (images_at h owner block).
Proof.
  intros Howner Hok. unfold block_images, images_at.
  rewrite (get_prop_field _ _ _ Howner). simpl.
  rewrite get_prop_opt_field. simpl.
  destruct Hok as [Hfalsy | [Harr _]].
  - rewrite Hfalsy, (items_falsy _ _ Hfalsy). reflexivity.
  - pose proof Harr as (l & o & vs & Heq & _).
    rewrite Heq in *. cbn [truthy]. unfold spread_args. cbn [nullish].
    by rewrite (iterate_array _ _ Harr).
Qed.

Lemma options_images_ok (source : string) (h : Heap) (owner : value) :
  nullish owner = false → options_ok h owner →
  options_images source h owner
  = Normal (concat (pushed_of_option h <$> items h (field h owner "options"))).
Proof.
  intros Howner Hok. unfold options_images.
  rewrite (get_prop_field _ _ _ Howner). simpl.
  destruct Hok as [Hfalsy | [Harr Hopts]].
  - rewrite Hfalsy, (items_falsy _ _ Hfalsy). reflexivity.
  - pose proof Harr as (l & o & vs & Heq & _).
    rewrite Heq in *. cbn [truthy].
    rewrite (array_method_array _ _ _ _ Harr). simpl.
    apply forEach_collect_all.
    eapply Forall_impl; [exact Hopts |].
    intros opt [Hopt _]. unfold option_image.
    rewrite (get_prop_field _ _ _ Hopt). reflexivity.
Qed.

Lemma sub_question_images_ok (h : Heap) (subQ : value) :
  sub_question_ok h subQ →
  sub_question_images h subQ = Normal (pushed_of_sub_question h subQ).
Proof.
  intros (Hsub & Himgs & Hopts). unfold sub_question_images.
  rewrite (block_images_ok _ _ _ _ Hsub Himgs). simpl.
  rewrite (options_images_ok _ _ _ Hsub Hopts). reflexivity.
Qed.

Lemma pushedImageUrls_ok (h : Heap) (question : value) :
  question_ok h question →
  pushedImageUrls h question = Normal (pushed_of_question h question).
Proof.
  intros (Hq & _ & Hcontent & Hopts & Hpassage & Hsubs).
  unfold pushedImageUrls.
  rewrite (get_prop_field _ _ _ Hq). simpl.
  rewrite (block_images_ok _ _ _ _ Hq Hcontent). simpl.
  rewrite (options_images_ok _ _ _ Hq Hopts). simpl.
  rewrite (block_images_ok _ _ _ _ Hq Hpassage). simpl.
  rewrite (get_prop_field _ _ _ Hq). simpl.
  destruct Hsubs as [Hfalsy | [Harr Hall]].
  - rewrite Hfalsy. simpl. unfold pushed_of_question, legacy_pushed, options_pushed, subs_pushed.
    rewrite (items_falsy _ _ Hfalsy). reflexivity.
  - pose proof Harr as (l & o & vs & Heq & _).
    unfold pushed_of_question, legacy_pushed, options_pushed, subs_pushed. rewrite Heq in *. cbn [truthy].
    rewrite (array_method_array _ _ _ _ Harr). simpl.
    rewrite (forEach_collect_all _ (pushed_of_sub_question h)); [reflexivity |].
    eapply Forall_impl; [exact Hall |]. intros subQ. apply sub_question_images_ok.
Qed.

Lemma keeps_url_like (v : value) : url_like v → keeps v = Normal (kept v).
Proof.
  intros [Hfalsy | [s ->]]; unfold keeps.
  - rewrite Hfalsy. destruct v; try reflexivity.
    cbn [truthy] in Hfalsy. apply negb_false_iff in Hfalsy.
    apply bool_decide_eq_true_1 in Hfalsy. subst. reflexivity.
  - destruct (truthy (VStr s)) eqn:Hs; [reflexivity |].
    cbn [truthy] in Hs. apply negb_false_iff in Hs.
    apply bool_decide_eq_true_1 in Hs. subst. reflexivity.
Qed.

Lemma filter_urls_ok (urls : list value) :
  Forall url_like urls →
  filter_urls urls = Normal (filter (fun v => kept v) urls).
Proof.
  induction 1 as [| v urls Hv _ IH]; [reflexivity |].
  simpl. rewrite (keeps_url_like _ Hv). simpl. rewrite IH. simpl.
  destruct (kept v) eqn:Hk.
  - rewrite filter_cons_True; [reflexivity | by rewrite Hk].
  - rewrite filter_cons_False; [reflexivity | rewrite Hk; intros []].
Qed.

Lemma kept_non_blank (v : value) : kept v ↔ non_blank v.
Proof.
  unfold non_blank. split.
  - destruct v; try done. simpl. intros Hs. exists s. split; [done |].
    apply Is_true_true, negb_true_iff, bool_decide_eq_false in Hs. done.
  - intros (s & -> & Hs). simpl. apply Is_true_true, negb_true_iff.
    by apply bool_decide_eq_false.
Qed.

Lemma non_blank_truthy (v : value) : non_blank v → truthy v = true.
Proof.
  intros (s & -> & Hs). simpl. apply negb_true_iff, bool_decide_eq_false.
  intros ->. by apply Hs.
Qed.

Lemma set_add_NoDup (seen : list value) (v : value) :
  NoDup seen → NoDup (set_add seen v).
Proof.
  intros Hseen. unfold set_add. case_decide; [done |].
  apply NoDup_app. repeat split; [done | | apply NoDup_singleton].
  intros x Hx ->%list_elem_of_singleton. done.
Qed.

Lemma elem_of_set_add (seen : list value) (v x : value) :
  x ∈ set_add seen v ↔ x ∈ seen ∨ x = v.
Proof.
  unfold set_add. case_decide.
  - split; [by left | intros [? | ->]; done].
  - rewrite elem_of_app, list_elem_of_singleton. done.
Qed.

Lemma foldl_set_add_NoDup (l seen : list value) :
  NoDup seen → NoDup (foldl set_add seen l).
Proof.
  revert seen. induction l as [| v l IH]; intros seen Hseen; [done |].
  simpl. apply IH. by apply set_add_NoDup.
Qed.

Lemma elem_of_foldl_set_add (l seen : list value) (x : value) :
  x ∈ foldl set_add seen l ↔ x ∈ seen ∨ x ∈ l.
Proof.
  revert seen. induction l as [| v l IH]; intros seen; simpl.
  - rewrite elem_of_nil. tauto.
  - rewrite IH, elem_of_set_add, elem_of_cons. tauto.
Qed.

Lemma set_of_NoDup (l : list value) : NoDup (set_of l).
Proof. apply foldl_set_add_NoDup, NoDup_nil_2. Qed.

Lemma elem_of_set_of (l : list value) (x : value) : x ∈ set_of l ↔ x ∈ l.
Proof. unfold set_of. rewrite elem_of_foldl_set_add, elem_of_nil. tauto. Qed.

Lemma images_at_url_like (h : Heap) (owner : value) (block : string) :
  images_ok h owner block → Forall url_like (images_at h owner block).
Proof.
  intros [Hfalsy | [_ Hall]]; unfold images_at; [| done].
  rewrite (items_falsy _ _ Hfalsy). constructor.
Qed.

Lemma pushed_of_options_url_like (h : Heap) (owner : value) :
  options_ok h owner →
  Forall url_like (concat (pushed_of_option h <$> items h (field h owner "options"))).
Proof.
  intros [Hfalsy | [_ Hall]].
  - rewrite (items_falsy _ _ Hfalsy). constructor.
  - apply Forall_concat, Forall_fmap.
    eapply Forall_impl; [exact Hall |].
    intros opt [_ Hurl]. unfold pushed_of_option. simpl.
    destruct (truthy _); [apply Forall_cons_2; [done | apply Forall_nil_2] | apply Forall_nil_2].
Qed.

Lemma pushed_of_question_url_like (h : Heap) (question : value) :
  question_ok h question → Forall url_like (pushed_of_question h question).
Proof.
  intros (_ & Hlegacy & Hcontent & Hopts & Hpassage & Hsubs).
  unfold pushed_of_question, legacy_pushed, options_pushed, subs_pushed. repeat apply Forall_app_2.
  - destruct (truthy _); [apply Forall_cons_2; [done | apply Forall_nil_2] | apply Forall_nil_2].
  - by apply images_at_url_like.
  - by apply pushed_of_options_url_like.
  - by apply images_at_url_like.
  - destruct Hsubs as [Hfalsy | [_ Hall]].
    + rewrite (items_falsy _ _ Hfalsy). constructor.
    + apply Forall_concat, Forall_fmap.
      eapply Forall_impl; [exact Hall |].
      intros subQ (_ & Himgs & Hsubopts). unfold pushed_of_sub_question, options_pushed. simpl.
      apply Forall_app_2;
        [by apply images_at_url_like | by apply pushed_of_options_url_like].
Qed.

Lemma elem_of_concat {A} (ls : list (list A)) (x : A) :
  x ∈ concat ls ↔ ∃ l, x ∈ l ∧ l ∈ ls.
Proof.
  induction ls as [| l ls IH]; simpl.
  - rewrite elem_of_nil. split; [done | intros (l & _ & []%elem_of_nil)].
  - rewrite elem_of_app, IH. split.
    + intros [Hx | (l' & Hx & Hl')]; [exists l | exists l'];
        rewrite elem_of_cons; auto.
    + intros (l' & Hx & [-> | Hl']%elem_of_cons); eauto.
Qed.

Lemma elem_of_pushed_of_options (h : Heap) (opts : list value) (v : value) :
  v ∈ concat (pushed_of_option h <$> opts)
  ↔ ∃ opt, opt ∈ opts ∧ v = field h opt "image_url" ∧ truthy v = true.
Proof.
  rewrite elem_of_concat. split.
  - intros (l & Hv & (opt & -> & Hopt)%list_elem_of_fmap).
    exists opt. split; [done |]. unfold pushed_of_option in Hv.
    destruct (truthy (field h opt "image_url")) eqn:Ht.
    + apply list_elem_of_singleton in Hv. by subst.
    + by apply elem_of_nil in Hv.
  - intros (opt & Hopt & -> & Ht). exists (pushed_of_option h opt).
    split; [| apply list_elem_of_fmap; eauto].
    unfold pushed_of_option. rewrite Ht. by apply list_elem_of_singleton.
Qed.

(** What is pushed and passes the filter is what sits in one of the six
    places and is a non-blank string. *)
Lemma kept_pushed_iff_location (h : Heap) (question : value) (v : value) :
  v ∈ pushed_of_question h question ∧ non_blank v
  ↔ image_location h question v ∧ non_blank v.
Proof.
  split; intros [Hv Hnb]; (split; [| done]).
  - unfold pushed_of_question, legacy_pushed, options_pushed, subs_pushed in Hv.
    rewrite !elem_of_app in Hv.
    destruct Hv as [Hv | [Hv | [Hv | [Hv | Hv]]]].
    + destruct (truthy _); [| by apply elem_of_nil in Hv].
      apply list_elem_of_singleton in Hv as ->. constructor.
    + by apply at_content.
    + apply elem_of_pushed_of_options in Hv as (opt & Hopt & -> & _).
      by apply at_option.
    + by apply at_passage.
    + apply elem_of_concat in Hv as (l & Hv & (subQ & -> & HsubQ)%list_elem_of_fmap).
      unfold pushed_of_sub_question, options_pushed in Hv. apply elem_of_app in Hv as [Hv | Hv].
      * by eapply at_sub_content.
      * apply elem_of_pushed_of_options in Hv as (opt & Hopt & -> & _).
        by eapply at_sub_option.
  - pose proof (non_blank_truthy _ Hnb) as Ht.
    unfold pushed_of_question, legacy_pushed, options_pushed, subs_pushed. rewrite !elem_of_app.
    destruct Hv as [| v Hv | opt Hopt | v Hv | subQ v HsubQ Hv | subQ opt HsubQ Hopt].
    + left. rewrite Ht. by apply list_elem_of_singleton.
    + right; left. done.
    + right; right; left. apply elem_of_pushed_of_options. eauto.
    + right; right; right; left. done.
    + right; right; right; right. apply elem_of_concat.
      exists (pushed_of_sub_question h subQ).
      split; [| apply list_elem_of_fmap; eauto].
      unfold pushed_of_sub_question, options_pushed. apply elem_of_app. by left.
    + right; right; right; right. apply elem_of_concat.
      exists (pushed_of_sub_question h subQ).
      split; [| apply list_elem_of_fmap; eauto].
      unfold pushed_of_sub_question, options_pushed. apply elem_of_app. right.
      apply elem_of_pushed_of_options. eauto.
Qed.

Lemma collectImageUrls_ok (h : Heap) (question : value) :
  question_ok h question →
  collectImageUrls h question
  = Normal (set_of (filter (fun v => kept v) (pushed_of_question h question))).
Proof.
  intros Hok. unfold collectImageUrls.
  rewrite (pushedImageUrls_ok _ _ Hok). simpl.
  rewrite (filter_urls_ok _ (pushed_of_question_url_like _ _ Hok)). reflexivity.
Qed.

(** C5, as the code has it. On a question whose image-bearing fields have the
    types of the data model (any of them may be missing), [collectImageUrls]
    returns, without throwing, a duplicate-free list holding exactly the
    strings that sit in one of the six places and contain something other
    than white space. The strings are returned as stored: they are tested
    with [trim], not trimmed. *)
Theorem collectImageUrls_collects_non_blank (h : Heap) (question : value) :
  question_ok h question →
  ∃ urls,
    collectImageUrls h question = Normal urls
    ∧ NoDup urls
    ∧ ∀ v, v ∈ urls ↔ image_location h question v ∧ non_blank v.
Proof.
  intros Hok.
  exists (set_of (filter (fun v => kept v) (pushed_of_question h question))).
  split; [| split].
  - by apply collectImageUrls_ok.
  - apply set_of_NoDup.
  - intros v. rewrite elem_of_set_of, list_elem_of_filter, kept_non_blank.
    rewrite <- kept_pushed_iff_location. tauto.
Qed.

Ltac url_like_here :=
  first [ left; reflexivity | right; eexists; reflexivity ].

Ltac array_here :=
  eexists _, _, _; repeat split; reflexivity.

Ltac shape_here :=
  repeat first
    [ apply Forall_nil_2
    | apply Forall_cons_2
    | split
    | reflexivity
    | url_like_here
    | left; reflexivity
    | right; split; [array_here |] ].

Lemma collectImageUrls_collects_non_blank_witness :
  question_ok (parse six_places []).2 (parse six_places []).1
  ∧ ∃ urls,
      collectImageUrls (parse six_places []).2 (parse six_places []).1 = Normal urls
      ∧ NoDup urls
      ∧ ∀ v, v ∈ urls
             ↔ image_location (parse six_places []).2 (parse six_places []).1 v ∧ non_blank v.
Proof.
  assert (Hok : question_ok (parse six_places []).2 (parse six_places []).1).
  { vm_compute parse. unfold question_ok, images_ok, options_ok. shape_here. }
  split; [exact Hok |].
  exact (collectImageUrls_collects_non_blank _ _ Hok).
Defined.

(** C5, as stated, fails twice over. A reference padded with spaces comes
    back padded, not trimmed; and a number in an image list makes the
    extractor throw. *)
Lemma collectImageUrls_neither_trims_nor_total :
  (collectImageUrls (parse six_places []).2 (parse six_places []).1
   = Normal [VStr " http://x/legacy.png "; VStr "http://x/a.png"; VStr "http://x/o.png";
             VStr "http://x/p.png"; VStr "http://x/s.png"; VStr "http://x/so.png"]
   ∧ trim " http://x/legacy.png " = "http://x/legacy.png")
  ∧ collectImageUrls (parse number_among_images []).2 (parse number_among_images []).1
    = Throw (TypeError "url.trim is not a function").
Proof. repeat split; vm_compute; reflexivity. Qed.

End ExtractorFacts.

(** ** Heaps under allocation and assignment *)

Module HeapFacts.
Import Js Schema Frame.

Lemma continues_refl (W : list (loc * string)) (h : Heap) : continues W h h.
Proof. intros l o Hl. eauto. Qed.

Lemma continues_trans (W1 W2 : list (loc * string)) (h1 h2 h3 : Heap) :
  continues W1 h1 h2 → continues W2 h2 h3 → continues (W1 ++ W2) h1 h3.
Proof.
  intros H12 H23 l o Hl.
  destruct (H12 _ _ Hl) as (o2 & Hl2 & He2 & Hp2).
  destruct (H23 _ _ Hl2) as (o3 & Hl3 & He3 & Hp3).
  exists o3. split_and!; [done | congruence |].
  intros k Hk. apply not_elem_of_app in Hk as [Hk1 Hk2].
  rewrite Hp3, Hp2; done.
Qed.

(** Entries about cells the first heap does not have can be dropped, and
    entries can be added. *)
Lemma continues_restrict (W W' : list (loc * string)) (h h' : Heap) :
  (∀ l k, (l, k) ∈ W → (l < length h)%nat → (l, k) ∈ W') →
  continues W h h' → continues W' h h'.
Proof.
  intros Hsub Hc l o Hl.
  destruct (Hc _ _ Hl) as (o' & Hl' & He & Hp).
  exists o'. split_and!; try done.
  intros k Hk. apply Hp. intros Hin. apply Hk, Hsub; [done |].
  by eapply lookup_lt_Some.
Qed.

Lemma continues_length (W : list (loc * string)) (h h' : Heap) :
  continues W h h' → (length h ≤ length h')%nat.
Proof.
  intros Hc. destruct (decide (length h = 0)%nat) as [-> | Hne]; [lia |].
  destruct (lookup_lt_is_Some_2 h (length h - 1)) as [o Hl]; [lia |].
  destruct (Hc _ _ Hl) as (o' & Hl' & _).
  apply lookup_lt_Some in Hl'. lia.
Qed.

Lemma valid_continues (W : list (loc * string)) (h h' : Heap) (v : value) :
  continues W h h' → valid h v → valid h' v.
Proof.
  intros Hc Hv. destruct v; try done. simpl in *.
  pose proof (continues_length _ _ _ Hc). lia.
Qed.

Lemma continues_alloc (h : Heap) (o : obj) : continues [] h (h ++ [o]).
Proof.
  intros l o' Hl. exists o'. split_and!; try done.
  by apply lookup_app_l_Some.
Qed.

Lemma lookup_set_prop (k k' : string) (v : value) (ps : list (string * value)) :
  lookup_prop k' (set_prop k v ps) = if decide (k' = k) then Some v else lookup_prop k' ps.
Proof.
  induction ps as [| [k0 v0] ps IH]; simpl.
  - reflexivity.
  - destruct (decide (k = k0)) as [Heq | Hne]; simpl.
    + subst k0. destruct (decide (k' = k)); reflexivity.
    + destruct (decide (k' = k0)) as [Heq' | Hne'].
      * subst k0. rewrite decide_False; [reflexivity | congruence].
      * exact IH.
Qed.

Lemma put_prop_ref (l : loc) (k : string) (v : value) (h : Heap) (o : obj) :
  h !! l = Some o →
  put_prop (VRef l) k v h
  = (Normal tt, <[l := mkObj (elems o) (set_prop k v (props o))]> h).
Proof. intros Hl. unfold put_prop. by rewrite Hl. Qed.

Lemma continues_put (l : loc) (k : string) (v : value) (h : Heap) (o : obj) :
  h !! l = Some o →
  continues [(l, k)] h (<[l := mkObj (elems o) (set_prop k v (props o))]> h).
Proof.
  intros Hl l' o' Hl'.
  destruct (decide (l' = l)) as [-> | Hne].
  - simplify_eq. eexists. split_and!.
    + apply list_lookup_insert_eq. by eapply lookup_lt_Some.
    + reflexivity.
    + intros k' Hk'. simpl. rewrite lookup_set_prop.
      rewrite decide_False; [done |]. intros ->. apply Hk'. by left.
  - exists o'. split_and!; try done. by rewrite list_lookup_insert_ne.
Qed.

(** Reads that a continuation leaves alone. *)
Lemma field_continues (W : list (loc * string)) (h h' : Heap) (v : value) (k : string) :
  continues W h h' → valid h v →
  (∀ l, v = VRef l → (l, k) ∉ W) →
  field h' v k = field h v k.
Proof.
  intros Hc Hv Hk. destruct v as [| | | | | | | | l]; try reflexivity.
  simpl in Hv. destruct (lookup_lt_is_Some_2 h l Hv) as [o Hl].
  destruct (Hc _ _ Hl) as (o' & Hl' & He & Hp).
  unfold field. simpl. rewrite Hl, Hl'. unfold own_prop.
  rewrite (Hp k (Hk l eq_refl)), He. reflexivity.
Qed.

Lemma items_continues (W : list (loc * string)) (h h' : Heap) (v : value) :
  continues W h h' → valid h v → items h' v = items h v.
Proof.
  intros Hc Hv. destruct v as [| | | | | | | | l]; try reflexivity.
  simpl in Hv. destruct (lookup_lt_is_Some_2 h l Hv) as [o Hl].
  destruct (Hc _ _ Hl) as (o' & Hl' & He & Hp).
  simpl. rewrite Hl, Hl', He. reflexivity.
Qed.

Lemma is_array_continues (W : list (loc * string)) (h h' : Heap) (v : value) :
  continues W h h' → is_array h v → is_array h' v.
Proof.
  intros Hc (l & o & vs & -> & Hl & Hvs).
  destruct (Hc _ _ Hl) as (o' & Hl' & He & _).
  exists l, o', vs. split_and!; [done | done | congruence].
Qed.

(** What a closed heap hands out stays inside it. *)
Lemma field_valid (h : Heap) (v : value) (k : string) :
  closed h → valid h (field h v k).
Proof.
  intros Hclosed. unfold field.
  destruct v as [| | | | | | s | | l]; simpl; try done.
  - by destruct (decide (k = "length")).
  - destruct (h !! l) as [o |] eqn:Hl; [| done].
    pose proof (Forall_lookup_1 _ _ _ _ Hclosed Hl) as [Hel Hps].
    unfold own_prop.
    destruct (lookup_prop k (props o)) as [x |] eqn:Hk.
    + clear -Hps Hk. induction (props o) as [| [k0 v0] ps IH]; [done |].
      simpl in Hk. apply Forall_cons in Hps as [Hv0 Hps].
      destruct (decide (k = k0)); [by simplify_eq | by apply IH].
    + destruct (elems o); [| done]. by destruct (decide (k = "length")).
Qed.

Lemma items_valid (h : Heap) (v : value) :
  closed h → Forall (valid h) (items h v).
Proof.
  intros Hclosed. destruct v as [| | | | | | | | l]; simpl; try apply Forall_nil_2.
  destruct (h !! l) as [o |] eqn:Hl; [| apply Forall_nil_2].
  by pose proof (Forall_lookup_1 _ _ _ _ Hclosed Hl) as [Hel _].
Qed.

Lemma closed_cell_mono (h h' : Heap) (o : obj) :
  (length h ≤ length h')%nat → closed_cell h o → closed_cell h' o.
Proof.
  intros Hle [Hel Hps]. split.
  - eapply Forall_impl; [exact Hel |]. intros [] ?; simpl in *; try done. lia.
  - eapply Forall_impl; [exact Hps |]. intros [k []] ?; simpl in *; try done. lia.
Qed.

Lemma closed_alloc (h : Heap) (o : obj) :
  closed h → closed_cell h o → closed (h ++ [o]).
Proof.
  intros Hclosed Ho. unfold closed. apply Forall_app. split.
  - eapply Forall_impl; [exact Hclosed |]. intros o'.
    apply closed_cell_mono. rewrite length_app. lia.
  - apply Forall_singleton. eapply closed_cell_mono; [| exact Ho].
    rewrite length_app. lia.
Qed.

Lemma closed_put (l : loc) (k : string) (v : value) (h : Heap) (o : obj) :
  closed h → h !! l = Some o → valid h v →
  closed (<[l := mkObj (elems o) (set_prop k v (props o))]> h).
Proof.
  intros Hclosed Hl Hv.
  assert (Hlen : ∀ o', closed_cell h o' →
                 closed_cell (<[l := mkObj (elems o) (set_prop k v (props o))]> h) o').
  { intros o'. apply closed_cell_mono. by rewrite length_insert. }
  unfold closed. apply Forall_insert.
  - eapply Forall_impl; [exact Hclosed | exact Hlen].
  - apply Hlen. pose proof (Forall_lookup_1 _ _ _ _ Hclosed Hl) as [Hel Hps].
    split; [done |]. simpl. clear -Hps Hv.
    induction (props o) as [| [k0 v0] ps IH]; simpl.
    + by apply Forall_singleton.
    + apply Forall_cons in Hps as [Hv0 Hps].
      destruct (decide (k = k0)); apply Forall_cons; split; try done. by apply IH.
Qed.

(** Index keys are numerals; the property names the services read are not. *)
Lemma pretty_N_go_head (c : ascii) (x : N) (s : string) :
  (∀ d, pretty_N_char d ≠ c) →
  (∀ s', s ≠ String c s') →
  ∀ s', pretty_N_go x s ≠ String c s'.
Proof.
  intros Hc. revert s. induction (N.lt_wf_0 x) as [x _ IH]; intros s Hs s'.
  assert (x = 0 ∨ 0 < x)%N as [-> | Hpos] by lia.
  - rewrite pretty_N_go_0. apply Hs.
  - rewrite pretty_N_go_step by done. apply IH.
    + by apply N.div_lt.
    + intros s'' [= Hd _]. by apply (Hc _ Hd).
Qed.

Lemma pretty_nat_head (c : ascii) (i : nat) (s' : string) :
  (∀ d, pretty_N_char d ≠ c) → pretty i ≠ String c s'.
Proof.
  intros Hc. unfold pretty, pretty_nat, pretty, pretty_N.
  case_decide.
  - intros [= Hd _]. by apply (Hc 0%N).
  - by apply pretty_N_go_head.
Qed.

Lemma lookup_index_props (k : string) (i : nat) (vs : list value) :
  named k → lookup_prop k (index_props i vs) = None.
Proof.
  intros [_ Hk]. revert i. induction vs as [| v vs IH]; intros i; [done |].
  simpl. rewrite decide_False; [apply IH |].
  destruct k as [| c k']; [done |]. intros Heq.
  by apply (pretty_nat_head c i k' Hk).
Qed.

Lemma lookup_prop_app (k : string) (ps qs : list (string * value)) :
  lookup_prop k (ps ++ qs)
  = match lookup_prop k ps with
    | Some v => Some v
    | None => lookup_prop k qs
    end.
Proof.
  induction ps as [| [k0 v0] ps IH]; [done |].
  simpl. by destruct (decide (k = k0)).
Qed.

Ltac named_here :=
  split; [done | intros d; unfold pretty_N_char; by repeat case_match].

Lemma named_imageUrl : named "imageUrl". Proof. named_here. Qed.
Lemma named_content : named "content". Proof. named_here. Qed.
Lemma named_options : named "options". Proof. named_here. Qed.
Lemma named_comprehension_passage : named "comprehension_passage". Proof. named_here. Qed.
Lemma named_sub_questions : named "sub_questions". Proof. named_here. Qed.

(** The copy [{...v}] answers [v]'s named properties as [v] does. *)
Lemma field_copy (h : Heap) (v : value) (k : string) :
  named k →
  field (h ++ [object (spread_props h v)]) (VRef (length h)) k = field h v k.
Proof.
  intros Hk. pose proof Hk as [Hlen _].
  unfold field. simpl. rewrite lookup_app_r, Nat.sub_diag by done. simpl.
  unfold own_prop. simpl.
  destruct v as [| | | | | | s | | l]; simpl; try reflexivity.
  - rewrite (lookup_index_props _ _ _ Hk).
    destruct (decide (k = "length")) as [Heq | ?]; [by destruct Hlen | reflexivity].
  - destruct (h !! l) as [[[vs |] ps] |]; unfold own_prop; simpl; try reflexivity.
    rewrite lookup_prop_app, (lookup_index_props _ _ _ Hk). simpl.
    destruct (lookup_prop k ps); [reflexivity |].
    destruct (decide (k = "length")) as [Heq | ?]; [by destruct Hlen | reflexivity].
Qed.

Lemma index_props_valid (h : Heap) (i : nat) (vs : list value) :
  Forall (valid h) vs → Forall (fun kv => valid h kv.2) (index_props i vs).
Proof.
  intros Hvs. revert i. induction Hvs as [| v vs Hv _ IH]; intros i; [constructor |].
  simpl. constructor; [done | apply IH].
Qed.

Lemma closed_cell_copy (h : Heap) (v : value) :
  closed h → closed_cell h (object (spread_props h v)).
Proof.
  intros Hclosed. split; [constructor |]. simpl.
  destruct v as [| | | | | | s | | l]; simpl; try constructor.
  - apply index_props_valid. unfold chars.
    apply Forall_fmap, Forall_true. done.
  - destruct (h !! l) as [[[vs |] ps] |] eqn:Hl; try constructor.
    + pose proof (Forall_lookup_1 _ _ _ _ Hclosed Hl) as [Hel Hps].
      apply Forall_app. split; [by apply index_props_valid | done].
    + by pose proof (Forall_lookup_1 _ _ _ _ Hclosed Hl) as [_ Hps].
Qed.

Lemma set_prop_valid (h : Heap) (k : string) (v : value) (ps : list (string * value)) :
  valid h v → Forall (fun kv => valid h kv.2) ps →
  Forall (fun kv => valid h kv.2) (set_prop k v ps).
Proof.
  intros Hv Hps. induction ps as [| [k0 v0] ps IH]; simpl.
  - by apply Forall_singleton.
  - apply Forall_cons in Hps as [Hv0 Hps].
    destruct (decide (k = k0)); apply Forall_cons; split; try done. by apply IH.
Qed.

Lemma closed_lookup (h : Heap) (l : nat) (o : obj) :
  closed h → h !! l = Some o → closed_cell h o.
Proof. intros Hclosed Hl. exact (Forall_lookup_1 _ _ _ _ Hclosed Hl). Qed.

End HeapFacts.

(** ** The rewriter *)

Module RewriterFacts.
Import Js Json UploadService Schema Frame Slots Scenarios ExtractorFacts HeapFacts.

(** C4 does not hold of the code. [updated.content] is the caller's own
    object, so the assignment to [updated.content.images] lands in the input:
    after the call the caller's question carries the object-store URLs in
    [content.images], in [comprehension_passage.images] and in each
    sub-question's [content.images]. *)
Theorem replaceImageUrls_writes_into_input :
  let '(question, h) := parse with_images [] in
  let '(_, h') := replaceImageUrls question migration h in
  (images_at h question "content" = [VStr "http://x/a.png"]
   ∧ images_at h' question "content"
     = [VStr "https://b.s3.r.amazonaws.com/questions/a.png"])
  ∧ (images_at h question "comprehension_passage" = [VStr "http://x/p.png"]
     ∧ images_at h' question "comprehension_passage"
       = [VStr "https://b.s3.r.amazonaws.com/questions/p.png"])
  ∧ ((fun subQ => images_at h subQ "content") <$> items h (field h question "sub_questions")
     = [[VStr "http://x/s.png"]]
     ∧ (fun subQ => images_at h' subQ "content") <$> items h' (field h' question "sub_questions")
       = [[VStr "https://b.s3.r.amazonaws.com/questions/s.png"]]).
Proof. vm_compute. repeat split. Qed.

(** *** What the rewriter returns

    The copy it returns holds, place by place, what the input held, each
    reference replaced by what the map gives for it. The statements follow
    the heap through the allocations and assignments of the function. *)

Lemma mapped_or_same_valid (h : Heap) (M : JsMap) (v : value) :
  valid h v → valid h (mapped_or_same M v).
Proof.
  intros Hv. unfold mapped_or_same, map_get_v.
  destruct (map_get M v); simpl; [| done]. by destruct (negb _).
Qed.

Lemma fmap_ext_Forall {A B} (f g : A → B) (l : list A) :
  Forall (fun x => f x = g x) l → f <$> l = g <$> l.
Proof. induction 1 as [| x l Hx _ IH]; [done |]. rewrite !fmap_cons. by rewrite Hx, IH. Qed.

Lemma elem_of_block_loc (h : Heap) (owner : value) (block : string) (c : nat) :
  field h owner block = VRef c → c ∈ block_loc h owner block.
Proof. intros Hc. unfold block_loc. rewrite Hc. by apply list_elem_of_singleton. Qed.

(** *** Reads that a continuation leaves alone *)

Lemma pushed_of_option_continues (W : list (nat * string)) (h h' : Heap) (opt : value) :
  continues W h h' → valid h opt →
  (∀ l, (l, "image_url") ∉ W) →
  pushed_of_option h' opt = pushed_of_option h opt.
Proof.
  intros Hc Hv HW. unfold pushed_of_option.
  rewrite (field_continues W h h'); auto.
Qed.

Lemma option_ok_continues (W : list (nat * string)) (h h' : Heap) (opt : value) :
  continues W h h' → valid h opt →
  (∀ l, (l, "image_url") ∉ W) →
  option_ok h opt → option_ok h' opt.
Proof.
  intros Hc Hv HW [Hn Hurl]. split; [done |].
  rewrite (field_continues W h h'); auto.
Qed.

Lemma options_pushed_transfer (W : list (nat * string)) (h h' : Heap) (o o' : value) :
  continues W h h' → closed h →
  field h' o' "options" = field h o "options" →
  (∀ l, (l, "image_url") ∉ W) →
  options_pushed h' o' = options_pushed h o.
Proof.
  intros Hc Hclosed Hfield HW. unfold options_pushed.
  rewrite Hfield.
  rewrite (items_continues W h h') by auto using field_valid.
  f_equal. apply fmap_ext_Forall.
  eapply Forall_impl; [apply (items_valid h _ Hclosed) |].
  intros opt Hopt. by apply (pushed_of_option_continues W).
Qed.

Lemma options_ok_transfer (W : list (nat * string)) (h h' : Heap) (o o' : value) :
  continues W h h' → closed h →
  field h' o' "options" = field h o "options" →
  (∀ l, (l, "image_url") ∉ W) →
  options_ok h o → options_ok h' o'.
Proof.
  intros Hc Hclosed Hfield HW. unfold options_ok.
  rewrite Hfield.
  rewrite (items_continues W h h') by auto using field_valid.
  intros [Hfalsy | [Harr Hall]]; [by left | right].
  split; [by eapply is_array_continues |].
  pose proof (items_valid h (field h o "options") Hclosed) as Hvalid.
  rewrite Forall_forall in *. intros opt Hopt.
  apply (option_ok_continues W h h'); auto.
Qed.

Lemma images_at_transfer (W : list (nat * string)) (h h' : Heap) (o o' : value)
    (block : string) :
  continues W h h' → closed h →
  field h' o' block = field h o block →
  (∀ c, c ∈ block_loc h o block → (c, "images") ∉ W) →
  images_at h' o' block = images_at h o block.
Proof.
  intros Hc Hclosed Hfield Hblock. unfold images_at.
  rewrite Hfield.
  rewrite (field_continues W h h' (field h o block))
    by auto using field_valid, elem_of_block_loc.
  rewrite (items_continues W h h') by auto using field_valid.
  reflexivity.
Qed.

Lemma images_ok_transfer (W : list (nat * string)) (h h' : Heap) (o o' : value)
    (block : string) :
  continues W h h' → closed h →
  field h' o' block = field h o block →
  (∀ c, c ∈ block_loc h o block → (c, "images") ∉ W) →
  images_ok h o block → images_ok h' o' block.
Proof.
  intros Hc Hclosed Hfield Hblock. unfold images_ok.
  rewrite Hfield.
  rewrite (field_continues W h h' (field h o block))
    by auto using field_valid, elem_of_block_loc.
  rewrite (items_continues W h h') by auto using field_valid.
  intros [Hfalsy | [Harr Hall]]; [by left | right].
  split; [by eapply is_array_continues | done].
Qed.

Lemma block_loc_transfer (h h' : Heap) (o o' : value) (block : string) :
  field h' o' block = field h o block →
  block_loc h' o' block = block_loc h o block.
Proof. intros Hfield. unfold block_loc. by rewrite Hfield. Qed.

Lemma field_ref_owner (h : Heap) (v : value) (k : string) (l : nat) :
  field h v k = VRef l → ∃ c o, v = VRef c ∧ h !! c = Some o.
Proof.
  unfold field. destruct v as [| | | | | | s | | c]; simpl; try discriminate.
  - by destruct (decide (k = "length")).
  - destruct (h !! c) as [o |] eqn:Hc; [eauto | discriminate].
Qed.

Lemma field_put_same (h : Heap) (c : nat) (o : obj) (k : string) (v : value) :
  h !! c = Some o →
  field (<[c := mkObj (elems o) (set_prop k v (props o))]> h) (VRef c) k = v.
Proof.
  intros Hc. unfold field. simpl.
  rewrite list_lookup_insert_eq by (by eapply lookup_lt_Some).
  unfold own_prop. simpl. rewrite lookup_set_prop. by rewrite decide_True.
Qed.

Lemma items_fresh (h : Heap) (vs : list value) (W : list (nat * string)) (h' : Heap) :
  continues W (h ++ [array vs]) h' → items h' (VRef (length h)) = vs.
Proof.
  intros Hc.
  destruct (Hc (length h) (array vs)) as (o' & Hl' & He & _).
  { by rewrite lookup_app_r, Nat.sub_diag by done. }
  simpl. rewrite Hl', He. reflexivity.
Qed.

Lemma elem_of_sub_blocks (h : Heap) (subs : list value) (subQ : value) (c : nat) :
  subQ ∈ subs → c ∈ block_loc h subQ "content" → c ∈ sub_blocks h subs.
Proof.
  intros Hsub Hc. unfold sub_blocks. apply elem_of_concat.
  exists (block_loc h subQ "content"). split; [done |].
  apply list_elem_of_fmap. by exists subQ.
Qed.

Lemma pushed_of_sub_question_continues (W : list (nat * string)) (h h' : Heap)
    (subQ : value) :
  continues W h h' → closed h → valid h subQ → spares W h subQ →
  pushed_of_sub_question h' subQ = pushed_of_sub_question h subQ.
Proof.
  intros Hc Hclosed Hv HW. unfold pushed_of_sub_question. f_equal.
  - apply (images_at_transfer W); [done | done | |].
    + apply (field_continues W); [done | done |].
      intros l _ Hin. by destruct (HW _ _ Hin) as (? & ? & ? & ?).
    + intros c Hin Hw. destruct (HW _ _ Hw) as (_ & _ & _ & Hc'). by apply Hc'.
  - apply (options_pushed_transfer W); [done | done | |].
    + apply (field_continues W); [done | done |].
      intros l _ Hin. by destruct (HW _ _ Hin) as (? & ? & ? & ?).
    + intros l Hin. by destruct (HW _ _ Hin) as (? & ? & ? & ?).
Qed.

Lemma sub_question_ok_continues (W : list (nat * string)) (h h' : Heap) (subQ : value) :
  continues W h h' → closed h → valid h subQ → spares W h subQ →
  sub_question_ok h subQ → sub_question_ok h' subQ.
Proof.
  intros Hc Hclosed Hv HW (Hsub & Himgs & Hopts). split_and!; [done | |].
  - apply (images_ok_transfer W h h' subQ); [done | done | | | done].
    + apply (field_continues W); [done | done |].
      intros l _ Hin. by destruct (HW _ _ Hin) as (? & ? & ? & ?).
    + intros c Hin Hw. destruct (HW _ _ Hw) as (_ & _ & _ & Hc'). by apply Hc'.
  - apply (options_ok_transfer W h h' subQ); [done | done | | | done].
    + apply (field_continues W); [done | done |].
      intros l _ Hin. by destruct (HW _ _ Hin) as (? & ? & ? & ?).
    + intros l Hin. by destruct (HW _ _ Hin) as (? & ? & ? & ?).
Qed.

Lemma block_loc_continues (W : list (nat * string)) (h h' : Heap) (subQ : value) :
  continues W h h' → valid h subQ → spares W h subQ →
  block_loc h' subQ "content" = block_loc h subQ "content".
Proof.
  intros Hc Hv HW. apply block_loc_transfer.
  apply (field_continues W); [done | done |].
  intros l _ Hin. by destruct (HW _ _ Hin) as (? & ? & ? & ?).
Qed.

Lemma spares_images_of (cs : list nat) (h : Heap) (subQ : value) :
  (∀ c, c ∈ cs → c ∉ block_loc h subQ "content") → spares (images_of cs) h subQ.
Proof.
  intros Hcs l k (c & [= -> ->] & Hc)%list_elem_of_fmap.
  split_and!; [done | done | done |]. intros _. by apply Hcs.
Qed.

Lemma not_in_images_of (c : nat) (cs : list nat) :
  c ∉ cs → (c, "images") ∉ images_of cs.
Proof. intros Hc (c' & [= ->] & Hin)%list_elem_of_fmap. done. Qed.

Lemma not_in_images_of_key (l : nat) (k : string) (cs : list nat) :
  k ≠ "images" → (l, k) ∉ images_of cs.
Proof. intros Hk (c' & [= _ ->] & Hin)%list_elem_of_fmap. done. Qed.

(** Splits [x ∉ W] along the appends of [W]. *)
Ltac apart :=
  rewrite ?not_elem_of_app, ?not_elem_of_cons; split_and?;
  try apply not_elem_of_nil;
  try (by apply not_in_images_of_key);
  try (by intros [=]);
  try (apply not_in_images_of; auto).

Section Rewriter.
Variable M : JsMap.
Hypothesis HM : map_ok M.

(** [owner.block.images], when present, is assigned a new array holding the
    images of its elements; nothing else changes. *)
Lemma replace_block_images_spec (source : string) (h : Heap) (owner : value)
    (block : string) :
  closed h → valid h owner → nullish owner = false → block ≠ "images" →
  images_ok h owner block →
  ∃ h', replace_block_images source M owner block h = (Normal tt, h')
      ∧ closed h'
      ∧ continues (images_of (block_loc h owner block)) h h'
      ∧ images_at h' owner block = mapped_or_same M <$> images_at h owner block.
Proof.
  intros Hclosed Hvalid Howner Hblock Hok.
  unfold replace_block_images, bind, peek.
  rewrite (get_prop_field _ _ _ Howner). cbn beta iota.
  rewrite get_prop_opt_field. cbn beta iota.
  unfold images_at.
  destruct Hok as [Hfalsy | [Harr Hurls]].
  - rewrite Hfalsy. exists h. split_and!; [done | done | apply continues_refl |].
    by rewrite (items_falsy _ _ Hfalsy).
  - pose proof Harr as (a & oa & vs & Heq & Ha & Hvs).
    rewrite Heq in Harr |- *. cbn [truthy].
    rewrite (array_method_array _ _ _ _ Harr). cbn beta iota. unfold alloc.
    destruct (field_ref_owner _ _ _ _ Heq) as (c & oc & HB & Hc).
    unfold block_loc. rewrite HB.
    set (urls := mapped_or_same M <$> items h (VRef a)).
    assert (Hc1 : (h ++ [array urls]) !! c = Some oc) by (by apply lookup_app_l_Some).
    rewrite (put_prop_ref _ _ _ _ _ Hc1).
    eexists. split; [reflexivity |].
    assert (Hput : continues [(c, "images")] (h ++ [array urls])
              (<[c := mkObj (elems oc) (set_prop "images" (VRef (length h)) (props oc))]>
                 (h ++ [array urls]))) by (by apply continues_put).
    pose proof (continues_trans [] _ _ _ _ (continues_alloc h (array urls)) Hput) as Hall.
    split_and!.
    + apply closed_put; [| done | simpl; rewrite length_app; simpl; lia].
      apply closed_alloc; [done |]. split; [| constructor]. simpl.
      apply Forall_fmap. eapply Forall_impl; [apply (items_valid _ _ Hclosed) |].
      intros v Hv. by apply mapped_or_same_valid.
    + exact Hall.
    + rewrite (field_continues _ _ _ owner block Hall Hvalid), HB.
      * rewrite (field_put_same _ _ _ _ _ Hc1).
        apply (items_fresh _ _ _ _ Hput).
      * intros l _ [Hin | Hin]%elem_of_cons; [congruence | by apply elem_of_nil in Hin].
Qed.

Lemma replace_option_spec (h : Heap) (opt : value) :
  closed h → valid h opt → option_ok h opt →
  ∃ opt' h', replace_option M opt h = (Normal opt', h')
      ∧ closed h' ∧ continues [] h h' ∧ valid h' opt'
      ∧ pushed_of_option h' opt' = mapped_or_same M <$> pushed_of_option h opt.
Proof.
  intros Hclosed Hv [Hopt Hurl].
  unfold replace_option, bind, peek.
  rewrite (get_prop_field _ _ _ Hopt). cbn beta iota.
  unfold pushed_of_option, mapped_or_same, map_has, map_get_v.
  destruct (truthy (field h opt "image_url")) eqn:Htruthy; simpl.
  - destruct (map_get M (field h opt "image_url")) as [s |] eqn:Hget; simpl.
    + unfold reads, alloc. eexists _, _. split; [reflexivity |].
      pose proof (HM _ _ Hget) as Hs.
      split_and!.
      * apply closed_alloc; [done |]. split; [constructor |]. simpl.
        apply set_prop_valid; [done |]. by destruct (closed_cell_copy h opt Hclosed).
      * apply continues_alloc.
      * simpl. rewrite length_app. simpl. lia.
      * unfold field at 1 2. simpl.
        rewrite lookup_app_r, Nat.sub_diag by done. simpl.
        unfold own_prop. simpl. rewrite lookup_set_prop, decide_True by done.
        simpl. by rewrite !bool_decide_eq_false_2.
    + exists opt, h. split_and!; [done | done | apply continues_refl | done |].
      by rewrite Htruthy.
  - exists opt, h. split_and!; [done | done | apply continues_refl | done |].
    by rewrite Htruthy.
Qed.

Lemma replace_option_each (h : Heap) (opts : list value) :
  closed h → Forall (valid h) opts → Forall (option_ok h) opts →
  ∃ opts' h', map_array (replace_option M) opts h = (Normal opts', h')
      ∧ closed h' ∧ continues [] h h' ∧ Forall (valid h') opts'
      ∧ concat (pushed_of_option h' <$> opts')
        = mapped_or_same M <$> concat (pushed_of_option h <$> opts).
Proof.
  revert h. induction opts as [| opt opts IH]; intros h Hclosed Hvs Hoks.
  - exists [], h. split_and!; [done | done | apply continues_refl | constructor | done].
  - apply Forall_cons in Hvs as [Hv Hvs]. apply Forall_cons in Hoks as [Hok Hoks].
    destruct (replace_option_spec h opt Hclosed Hv Hok)
      as (opt' & h1 & Hrun1 & Hclosed1 & Hc1 & Hv1 & Hpushed1).
    assert (Hnone : ∀ l : nat, (l, "image_url") ∉ @nil (nat * string)) by (intros l; apply not_elem_of_nil).
    destruct (IH h1 Hclosed1) as (opts' & h2 & Hrun2 & Hclosed2 & Hc2 & Hvs2 & Hpushed2).
    { eapply Forall_impl; [exact Hvs |]. intros v. by apply valid_continues with (W := []). }
    { rewrite Forall_forall in *. intros v Hin.
      apply (option_ok_continues [] h h1); auto. }
    exists (opt' :: opts'), h2. split_and!.
    + simpl. unfold bind at 1. rewrite Hrun1. unfold bind at 1. by rewrite Hrun2.
    + done.
    + apply (continues_trans [] [] _ _ _ Hc1 Hc2).
    + constructor; [by eapply valid_continues |]. done.
    + rewrite !fmap_cons. cbn [concat]. rewrite fmap_app.
      rewrite (pushed_of_option_continues [] h1 h2) by done.
      rewrite Hpushed1, Hpushed2. do 3 f_equal.
      apply fmap_ext_Forall. rewrite Forall_forall in *. intros v Hin.
      apply (pushed_of_option_continues [] h h1); auto.
Qed.

Lemma replace_options_spec (source : string) (h : Heap) (owner : value) :
  closed h → nullish owner = false → options_ok h owner →
  ∃ h', replace_options source M owner h = (Normal tt, h')
      ∧ closed h'
      ∧ continues (own_key owner "options") h h'
      ∧ options_pushed h' owner = mapped_or_same M <$> options_pushed h owner.
Proof.
  intros Hclosed Howner Hok.
  unfold replace_options, bind, peek.
  rewrite (get_prop_field _ _ _ Howner). cbn beta iota.
  unfold options_pushed.
  destruct Hok as [Hfalsy | [Harr Hopts]].
  - rewrite Hfalsy. exists h. split_and!; [done | done | apply continues_refl |].
    by rewrite (items_falsy _ _ Hfalsy).
  - pose proof Harr as (a & oa & vs & Heq & Ha & Hvs).
    destruct (field_ref_owner _ _ _ _ Heq) as (c & oc & -> & Hc).
    rewrite Heq in Harr, Hopts |- *. cbn [truthy].
    rewrite (array_method_array _ _ _ _ Harr). cbn beta iota.
    destruct (replace_option_each h (items h (VRef a)) Hclosed (items_valid _ _ Hclosed) Hopts)
      as (opts' & h1 & Hrun & Hclosed1 & Hc1 & Hvs1 & Hpushed).
    rewrite Hrun. cbn beta iota. unfold alloc.
    destruct (Hc1 _ _ Hc) as (oc1 & Hc' & _).
    assert (Hc2 : (h1 ++ [array opts']) !! c = Some oc1) by (by apply lookup_app_l_Some).
    rewrite (put_prop_ref _ _ _ _ _ Hc2).
    eexists. split; [reflexivity |].
    assert (Hput : continues [(c, "options")] (h1 ++ [array opts'])
              (<[c := mkObj (elems oc1) (set_prop "options" (VRef (length h1)) (props oc1))]>
                 (h1 ++ [array opts']))) by (by apply continues_put).
    pose proof (continues_trans [] _ _ _ _ (continues_alloc h1 (array opts')) Hput) as Hc3.
    split_and!.
    + apply closed_put; [| done | simpl; rewrite length_app; simpl; lia].
      apply closed_alloc; [done |]. split; [done | constructor].
    + apply (continues_trans [] _ _ _ _ Hc1 Hc3).
    + rewrite (field_put_same _ _ _ _ _ Hc2), (items_fresh _ _ _ _ Hput).
      rewrite <- Hpushed. f_equal. apply fmap_ext_Forall.
      rewrite Forall_forall in *. intros opt Hin.
      apply (pushed_of_option_continues _ _ _ _ Hc3); [auto |].
      intros l [Hl | Hl]%elem_of_cons; [congruence | by apply elem_of_nil in Hl].
Qed.

Lemma replace_sub_question_spec (g : Heap) (subQ : value) :
  closed g → sub_question_ok g subQ →
  ∃ subQ' g', replace_sub_question M subQ g = (Normal subQ', g')
      ∧ closed g' ∧ valid g' subQ'
      ∧ continues (images_of (block_loc g subQ "content")) g g'
      ∧ field g' subQ' "content" = field g subQ "content"
      ∧ pushed_of_sub_question g' subQ'
        = mapped_or_same M <$> pushed_of_sub_question g subQ.
Proof.
  intros Hclosed (Hsub & Himgs & Hopts).
  unfold replace_sub_question, copy_of, bind at 1 2, reads, alloc. cbn beta iota.
  set (u := VRef (length g)). set (g0 := g ++ [object (spread_props g subQ)]).
  assert (Hc0 : continues [] g g0) by apply continues_alloc.
  assert (Hclosed0 : closed g0) by (apply closed_alloc; [done | by apply closed_cell_copy]).
  assert (Hcopy : ∀ k, named k → field g0 u k = field g subQ k)
    by (intros; by apply field_copy).
  assert (Hu : valid g0 u) by (simpl; unfold g0; rewrite length_app; simpl; lia).
  destruct (replace_block_images_spec "updatedSubQ" g0 u "content" Hclosed0 Hu eq_refl) as
    (g1 & Hrun1 & Hclosed1 & Hc1 & Himages1); [done | |].
  { apply (images_ok_transfer [] g g0 subQ u); auto using named_content.
    intros c _. apply not_elem_of_nil. }
  rewrite (block_loc_transfer g g0 subQ u "content") in Hc1 by apply Hcopy, named_content.
  assert (Hfield1 : ∀ k, k ≠ "images" → field g1 u k = field g0 u k).
  { intros k Hk. apply (field_continues _ _ _ _ _ Hc1 Hu).
    intros l _ (c & Heq & _)%list_elem_of_fmap. congruence. }
  pose proof (continues_trans _ _ _ _ _ Hc0 Hc1) as Hc01.
  destruct (replace_options_spec "updatedSubQ" g1 u Hclosed1 eq_refl) as (g2 & Hrun2 & Hclosed2 & Hc2 & Hpushed2).
  { apply (options_ok_transfer _ g g1 subQ u Hc01 Hclosed); [| | done].
    - rewrite Hfield1 by done. apply Hcopy, named_options.
    - intros l (c & Heq & _)%list_elem_of_fmap. congruence. }
  unfold bind. rewrite Hrun1, Hrun2. exists u, g2.
  assert (Hfield2 : ∀ k, k ≠ "options" → field g2 u k = field g1 u k).
  { intros k Hk. apply (field_continues _ _ _ _ _ Hc2); [exact (valid_continues _ _ _ _ Hc1 Hu) |].
    intros l _ [Hin | Hin]%elem_of_cons; [congruence | by apply elem_of_nil in Hin]. }
  split_and!.
  - reflexivity.
  - done.
  - exact (valid_continues _ _ _ _ Hc2 (valid_continues _ _ _ _ Hc1 Hu)).
  - eapply continues_restrict; [| exact (continues_trans _ _ _ _ _ Hc01 Hc2)].
    intros l k Hin Hl. simpl in Hin.
    apply elem_of_app in Hin as [Hin | [Hin | Hin]%elem_of_cons]; [done | | by apply elem_of_nil in Hin].
    injection Hin as -> _. lia.
  - rewrite Hfield2, Hfield1 by done. apply Hcopy, named_content.
  - unfold pushed_of_sub_question. rewrite fmap_app. f_equal.
    + rewrite (images_at_transfer _ g1 g2 u u "content" Hc2 Hclosed1).
      * rewrite Himages1. f_equal.
        apply (images_at_transfer [] g g0); auto using named_content.
        intros c _. apply not_elem_of_nil.
      * by apply Hfield2.
      * intros c _ [Hin | Hin]%elem_of_cons; [congruence | by apply elem_of_nil in Hin].
    + rewrite Hpushed2. f_equal.
      apply (options_pushed_transfer _ g g1 subQ u Hc01 Hclosed).
      * rewrite Hfield1 by done. apply Hcopy, named_options.
      * intros l (c & Heq & _)%list_elem_of_fmap. congruence.
Qed.

Lemma replace_sub_question_each (g : Heap) (subs : list value) :
  closed g → Forall (valid g) subs → Forall (sub_question_ok g) subs →
  NoDup (sub_blocks g subs) →
  ∃ subs' g', map_array (replace_sub_question M) subs g = (Normal subs', g')
      ∧ closed g' ∧ Forall (valid g') subs'
      ∧ continues (images_of (sub_blocks g subs)) g g'
      ∧ concat (pushed_of_sub_question g' <$> subs')
        = mapped_or_same M <$> concat (pushed_of_sub_question g <$> subs).
Proof.
  revert g. induction subs as [| subQ subs IH]; intros g Hclosed Hvs Hoks Hdistinct.
  - exists [], g. split_and!; [done | done | constructor | apply continues_refl | done].
  - apply Forall_cons in Hvs as [Hv Hvs]. apply Forall_cons in Hoks as [Hok Hoks].
    unfold sub_blocks in Hdistinct. rewrite fmap_cons in Hdistinct. cbn [concat] in Hdistinct.
    fold (sub_blocks g subs) in Hdistinct.
    apply NoDup_app in Hdistinct as (_ & Hapart & Hdistinct).
    destruct (replace_sub_question_spec g subQ Hclosed Hok)
      as (subQ' & g1 & Hrun1 & Hclosed1 & Hv1 & Hc1 & Hcontent1 & Hpushed1).
    assert (Hspares : ∀ r, r ∈ subs → spares (images_of (block_loc g subQ "content")) g r).
    { intros r Hr. apply spares_images_of. intros c Hc Hcr.
      apply (Hapart c Hc). by apply (elem_of_sub_blocks g subs r). }
    assert (Hblocks : sub_blocks g1 subs = sub_blocks g subs).
    { unfold sub_blocks. f_equal. apply fmap_ext_Forall.
      rewrite Forall_forall in *. intros r Hr.
      apply (block_loc_continues _ _ _ _ Hc1); auto. }
    destruct (IH g1 Hclosed1) as (subs' & g2 & Hrun2 & Hclosed2 & Hvs2 & Hc2 & Hpushed2).
    { eapply Forall_impl; [exact Hvs |]. intros v. by apply valid_continues with (1 := Hc1). }
    { rewrite Forall_forall in *. intros r Hr.
      apply (sub_question_ok_continues _ _ _ _ Hc1); auto. }
    { by rewrite Hblocks. }
    rewrite Hblocks in Hc2.
    exists (subQ' :: subs'), g2. split_and!.
    + simpl. unfold bind at 1. rewrite Hrun1. unfold bind at 1. by rewrite Hrun2.
    + done.
    + constructor; [by apply valid_continues with (1 := Hc2) | done].
    + unfold sub_blocks. rewrite fmap_cons. cbn [concat]. unfold images_of.
      rewrite fmap_app. exact (continues_trans _ _ _ _ _ Hc1 Hc2).
    + rewrite !fmap_cons. cbn [concat]. rewrite fmap_app.
      rewrite (pushed_of_sub_question_continues _ g1 g2 subQ' Hc2 Hclosed1 Hv1).
      * rewrite Hpushed1, Hpushed2. do 3 f_equal.
        apply fmap_ext_Forall. rewrite Forall_forall in *. intros r Hr.
        apply (pushed_of_sub_question_continues _ _ _ _ Hc1); auto.
      * apply spares_images_of. intros c Hc Hc'.
        rewrite (block_loc_transfer g g1 subQ subQ' "content" Hcontent1) in Hc'.
        by apply (Hapart c Hc').
Qed.

Lemma replace_legacy_spec (h : Heap) (n : nat) (o : obj) :
  closed h → h !! n = Some o →
  ∃ h', replace_legacy M (VRef n) h = (Normal tt, h')
      ∧ closed h' ∧ continues [(n, "imageUrl")] h h'
      ∧ legacy_pushed h' (VRef n) = mapped_or_same M <$> legacy_pushed h (VRef n).
Proof.
  intros Hclosed Hn.
  unfold replace_legacy, bind, peek.
  rewrite (get_prop_field h (VRef n) "imageUrl" eq_refl). cbn beta iota.
  unfold legacy_pushed, mapped_or_same, map_has, map_get_v.
  destruct (truthy (field h (VRef n) "imageUrl")) eqn:Htruthy; simpl.
  - destruct (map_get M (field h (VRef n) "imageUrl")) as [s |] eqn:Hget; simpl.
    + pose proof (HM _ _ Hget) as Hs.
      unfold put_prop. rewrite Hn.
      eexists. split; [reflexivity |]. split_and!.
      * by apply closed_put.
      * by apply continues_put.
      * rewrite (field_put_same _ _ _ _ _ Hn). simpl.
        by rewrite !bool_decide_eq_false_2.
    + exists h. split_and!; [done | done | apply continues_refl |]. by rewrite Htruthy.
  - exists h. split_and!; [done | done | apply continues_refl |]. by rewrite Htruthy.
Qed.

Lemma replace_sub_questions_spec (g : Heap) (n : nat) (o : obj) :
  closed g → g !! n = Some o →
  (let subs := field g (VRef n) "sub_questions" in
   truthy subs = false ∨ (is_array g subs ∧ Forall (sub_question_ok g) (items g subs))) →
  NoDup (sub_blocks g (items g (field g (VRef n) "sub_questions"))) →
  ∃ g', replace_sub_questions M (VRef n) g = (Normal tt, g')
      ∧ closed g'
      ∧ continues (images_of (sub_blocks g (items g (field g (VRef n) "sub_questions")))
                     ++ [(n, "sub_questions")]) g g'
      ∧ subs_pushed g' (VRef n) = mapped_or_same M <$> subs_pushed g (VRef n).
Proof.
  intros Hclosed Hn Hok Hdistinct.
  unfold replace_sub_questions, bind, peek.
  rewrite (get_prop_field g (VRef n) "sub_questions" eq_refl). cbn beta iota.
  unfold subs_pushed. cbn zeta in Hok.
  destruct Hok as [Hfalsy | [Harr Hsubs]].
  - rewrite Hfalsy. exists g. split_and!; [done | done | apply continues_refl |].
    by rewrite (items_falsy _ _ Hfalsy).
  - pose proof Harr as (a & oa & vs & Heq & Ha & Hvs).
    rewrite Heq in Harr, Hsubs, Hdistinct |- *. cbn [truthy].
    rewrite (array_method_array _ _ _ _ Harr). cbn beta iota.
    destruct (replace_sub_question_each g (items g (VRef a)) Hclosed
                (items_valid _ _ Hclosed) Hsubs Hdistinct)
      as (subs' & g1 & Hrun & Hclosed1 & Hvs1 & Hc1 & Hpushed).
    rewrite Hrun. cbn beta iota. unfold alloc.
    destruct (Hc1 _ _ Hn) as (o1 & Hn1 & _).
    assert (Hn2 : (g1 ++ [array subs']) !! n = Some o1) by (by apply lookup_app_l_Some).
    rewrite (put_prop_ref _ _ _ _ _ Hn2).
    eexists. split; [reflexivity |].
    assert (Hput : continues [(n, "sub_questions")] (g1 ++ [array subs'])
              (<[n := mkObj (elems o1)
                        (set_prop "sub_questions" (VRef (length g1)) (props o1))]>
                 (g1 ++ [array subs']))) by (by apply continues_put).
    pose proof (continues_trans [] _ _ _ _ (continues_alloc g1 (array subs')) Hput) as Hc2.
    split_and!.
    + apply closed_put; [| done | simpl; rewrite length_app; simpl; lia].
      apply closed_alloc; [done |]. split; [done | constructor].
    + exact (continues_trans _ _ _ _ _ Hc1 Hc2).
    + rewrite (field_put_same _ _ _ _ _ Hn2), (items_fresh _ _ _ _ Hput).
      rewrite <- Hpushed. f_equal. apply fmap_ext_Forall.
      rewrite Forall_forall in *. intros subQ Hin.
      apply (pushed_of_sub_question_continues _ _ _ _ Hc2); [done | auto |].
      intros l k [Hl | Hl]%elem_of_cons; [| by apply elem_of_nil in Hl].
      injection Hl as -> ->. done.
Qed.

(** On a well-formed question whose image blocks are distinct objects, the
    rewriter returns a question that holds, in each place, the image of what
    the input held there. *)
Lemma replaceImageUrls_spec (h : Heap) (question : value) :
  closed h → question_ok h question → NoDup (image_blocks h question) →
  ∃ question' h', replaceImageUrls question M h = (Normal question', h')
      ∧ closed h' ∧ valid h' question'
      ∧ pushed_of_question h' question'
        = mapped_or_same M <$> pushed_of_question h question.
Proof.
  intros Hclosed (Hq & Hlegacy & Hcontent & Hopts & Hpassage & Hsubs) Hdistinct.
  unfold image_blocks in Hdistinct.
  set (Bc := block_loc h question "content") in *.
  set (Bp := block_loc h question "comprehension_passage") in *.
  set (Bs := sub_blocks h (items h (field h question "sub_questions"))) in *.
  apply NoDup_app in Hdistinct as (_ & Hcp & Hdistinct).
  apply NoDup_app in Hdistinct as (_ & Hps & HBs).
  assert (Hcp' : ∀ c, c ∈ Bc → c ∉ Bp) by (intros c Hc Hc'; apply (Hcp c Hc), elem_of_app; auto).
  assert (Hcs : ∀ c, c ∈ Bc → c ∉ Bs) by (intros c Hc Hc'; apply (Hcp c Hc), elem_of_app; auto).
  assert (Hpc : ∀ c, c ∈ Bp → c ∉ Bc) by (intros c Hc Hc'; by apply (Hcp' c Hc')).
  clear Hcp.
  unfold replaceImageUrls, copy_of, bind at 1 2, reads, alloc. cbn beta iota.
  set (n := length h). set (u := VRef n). set (h0 := h ++ [object (spread_props h question)]).
  assert (Hc0 : continues [] h h0) by apply continues_alloc.
  assert (Hclosed0 : closed h0) by (apply closed_alloc; [done | by apply closed_cell_copy]).
  assert (Hcopy : ∀ k, named k → field h0 u k = field h question k)
    by (intros; by apply field_copy).
  assert (Hu : valid h0 u) by (simpl; unfold h0; rewrite length_app; simpl; lia).
  assert (Hn0 : h0 !! n = Some (object (spread_props h question)))
    by (unfold h0, n; by rewrite lookup_app_r, Nat.sub_diag by done).
  (* the legacy field *)
  destruct (replace_legacy_spec h0 n _ Hclosed0 Hn0) as (h1 & Hrun1 & Hclosed1 & Hc1 & Hp1).
  fold u in Hrun1, Hp1.
  pose proof (continues_trans _ _ _ _ _ Hc0 Hc1) as C01.
  pose proof (valid_continues _ _ _ _ Hc1 Hu) as Hu1.
  (* content *)
  assert (Hcontent1 : field h1 u "content" = field h question "content").
  { rewrite (field_continues _ _ _ u "content" Hc1 Hu) by (intros l _; apart).
    apply Hcopy, named_content. }
  destruct (replace_block_images_spec "updated" h1 u "content" Hclosed1 Hu1 eq_refl)
    as (h2 & Hrun2 & Hclosed2 & Hc2 & Hp2); [done | |].
  { apply (images_ok_transfer _ h h1 question u "content" C01 Hclosed Hcontent1);
      [| done]. intros c _. apart. }
  rewrite (block_loc_transfer _ _ _ _ _ Hcontent1) in Hc2. fold Bc in Hc2.
  pose proof (continues_trans _ _ _ _ _ C01 Hc2) as C02.
  pose proof (continues_trans _ _ _ _ _ Hc1 Hc2) as D02.
  pose proof (valid_continues _ _ _ _ Hc2 Hu1) as Hu2.
  (* options *)
  assert (Hoptions2 : field h2 u "options" = field h question "options").
  { rewrite (field_continues _ _ _ u "options" D02 Hu) by (intros l _; apart).
    apply Hcopy, named_options. }
  destruct (replace_options_spec "updated" h2 u Hclosed2 eq_refl)
    as (h3 & Hrun3 & Hclosed3 & Hc3 & Hp3).
  { apply (options_ok_transfer _ h h2 question u C02 Hclosed Hoptions2); [| done].
    intros l. apart. }
  simpl in Hc3.
  pose proof (continues_trans _ _ _ _ _ C02 Hc3) as C03.
  pose proof (continues_trans _ _ _ _ _ D02 Hc3) as D03.
  pose proof (valid_continues _ _ _ _ Hc3 Hu2) as Hu3.
  (* the passage *)
  assert (Hpassage3 : field h3 u "comprehension_passage"
                      = field h question "comprehension_passage").
  { rewrite (field_continues _ _ _ u "comprehension_passage" D03 Hu) by (intros l _; apart).
    apply Hcopy, named_comprehension_passage. }
  destruct (replace_block_images_spec "updated" h3 u "comprehension_passage" Hclosed3 Hu3 eq_refl)
    as (h4 & Hrun4 & Hclosed4 & Hc4 & Hp4); [done | |].
  { apply (images_ok_transfer _ h h3 question u "comprehension_passage" C03 Hclosed
             Hpassage3); [| done]. intros c Hc. fold Bp in Hc. apart. }
  rewrite (block_loc_transfer _ _ _ _ _ Hpassage3) in Hc4. fold Bp in Hc4.
  pose proof (continues_trans _ _ _ _ _ C03 Hc4) as C04.
  pose proof (continues_trans _ _ _ _ _ D03 Hc4) as D04.
  pose proof (valid_continues _ _ _ _ Hc4 Hu3) as Hu4.
  (* the sub-questions *)
  assert (Hsubs4 : field h4 u "sub_questions" = field h question "sub_questions").
  { rewrite (field_continues _ _ _ u "sub_questions" D04 Hu) by (intros l _; apart).
    apply Hcopy, named_sub_questions. }
  assert (A4 : continues (images_of (Bc ++ Bp)) h h4).
  { eapply continues_restrict; [| exact C04]. intros l k Hin Hl.
    unfold images_of. rewrite fmap_app. fold (images_of Bc) (images_of Bp).
    rewrite !elem_of_app in Hin. rewrite elem_of_app.
    destruct Hin as [[[[Hin | Hin] | Hin] | Hin] | Hin]; auto.
    - by apply elem_of_nil in Hin.
    - apply list_elem_of_singleton in Hin. injection Hin as -> _. unfold n in Hl. lia.
    - apply list_elem_of_singleton in Hin. injection Hin as -> _. unfold n in Hl. lia. }
  set (Sv := field h question "sub_questions") in *.
  assert (Hitems4 : items h4 Sv = items h Sv)
    by (apply (items_continues _ _ _ _ C04), field_valid, Hclosed).
  pose proof (items_valid h Sv Hclosed) as Hvalid.
  assert (Hspares : ∀ r, r ∈ items h Sv → spares (images_of (Bc ++ Bp)) h r).
  { intros r Hr. apply spares_images_of. intros c Hc Hcr.
    pose proof (elem_of_sub_blocks h _ r c Hr Hcr) as Hin. fold Bs in Hin.
    apply elem_of_app in Hc as [Hc | Hc]; [by apply (Hcs c) | by apply (Hps c)]. }
  assert (Hblocks4 : sub_blocks h4 (items h Sv) = Bs).
  { unfold Bs, sub_blocks. f_equal. apply fmap_ext_Forall.
    rewrite Forall_forall in *. intros r Hr.
    apply (block_loc_continues _ _ _ _ A4); auto. }
  destruct (D04 _ _ Hn0) as (o4 & Hn4 & _).
  destruct (replace_sub_questions_spec h4 n o4 Hclosed4 Hn4)
    as (h5 & Hrun5 & Hclosed5 & Hc5 & Hp5).
  { fold u. cbn zeta. rewrite Hsubs4, Hitems4.
    destruct Hsubs as [Hfalsy | [Harr Hall]]; [by left | right].
    split; [by apply (is_array_continues _ _ _ _ C04) |].
    rewrite Forall_forall in *. intros r Hr.
    apply (sub_question_ok_continues _ _ _ _ A4); auto. }
  { fold u. by rewrite Hsubs4, Hitems4, Hblocks4. }
  fold u in Hrun5, Hc5, Hp5. rewrite Hsubs4, Hitems4, Hblocks4 in Hc5.
  unfold bind. rewrite Hrun1, Hrun2, Hrun3, Hrun4, Hrun5.
  exists u, h5. split_and!; [reflexivity | done | exact (valid_continues _ _ _ _ Hc5 Hu4) |].
  pose proof (continues_trans _ _ _ _ _ Hc4 Hc5) as G35.
  pose proof (continues_trans _ _ _ _ _ Hc3 G35) as F25.
  pose proof (continues_trans _ _ _ _ _ Hc2 F25) as E15.
  unfold pushed_of_question. rewrite !fmap_app.
  assert (L1 : legacy_pushed h5 u = mapped_or_same M <$> legacy_pushed h question).
  { transitivity (legacy_pushed h1 u).
    - unfold legacy_pushed.
      by rewrite (field_continues _ _ _ u "imageUrl" E15 Hu1) by (intros l _; apart).
    - rewrite Hp1. f_equal. unfold legacy_pushed. by rewrite Hcopy by apply named_imageUrl. }
  assert (L2 : images_at h5 u "content"
               = mapped_or_same M <$> images_at h question "content").
  { transitivity (images_at h2 u "content").
    - apply (images_at_transfer _ _ _ _ _ _ F25 Hclosed2).
      + apply (field_continues _ _ _ _ _ F25 Hu2). intros l _. apart.
      + intros c Hc.
        rewrite (block_loc_transfer h h2 question u "content") in Hc
          by (rewrite (field_continues _ _ _ u "content" Hc2 Hu1) by (intros l _; apart);
              exact Hcontent1).
        fold Bc in Hc. apart.
    - rewrite Hp2. f_equal.
      apply (images_at_transfer _ _ _ _ _ _ C01 Hclosed Hcontent1). intros c _. apart. }
  assert (L3 : options_pushed h5 u = mapped_or_same M <$> options_pushed h question).
  { transitivity (options_pushed h3 u).
    - apply (options_pushed_transfer _ _ _ _ _ G35 Hclosed3).
      + apply (field_continues _ _ _ _ _ G35 Hu3). intros l _. apart.
      + intros l. apart.
    - rewrite Hp3. f_equal.
      apply (options_pushed_transfer _ _ _ _ _ C02 Hclosed Hoptions2). intros l. apart. }
  assert (L4 : images_at h5 u "comprehension_passage"
               = mapped_or_same M <$> images_at h question "comprehension_passage").
  { transitivity (images_at h4 u "comprehension_passage").
    - apply (images_at_transfer _ _ _ _ _ _ Hc5 Hclosed4).
      + apply (field_continues _ _ _ _ _ Hc5 Hu4). intros l _. apart.
      + intros c Hc.
        rewrite (block_loc_transfer h h4 question u "comprehension_passage") in Hc
          by (rewrite (field_continues _ _ _ u "comprehension_passage" Hc4 Hu3)
                by (intros l _; apart);
              exact Hpassage3).
        fold Bp in Hc. apart.
    - rewrite Hp4. f_equal.
      apply (images_at_transfer _ _ _ _ _ _ C03 Hclosed Hpassage3).
      intros c Hc. fold Bp in Hc. apart. }
  assert (L5 : subs_pushed h5 u = mapped_or_same M <$> subs_pushed h question).
  { rewrite Hp5. f_equal. unfold subs_pushed. fold Sv. rewrite Hsubs4, Hitems4.
    f_equal. apply fmap_ext_Forall. rewrite Forall_forall in *. intros r Hr.
    apply (pushed_of_sub_question_continues _ _ _ _ A4); auto. }
  by rewrite L1, L2, L3, L4, L5.
Qed.

End Rewriter.

End RewriterFacts.

(** ** The orchestrator *)

Module OrchestratorFacts.
Import Js Gateway UploadService Schema Frame Slots Audit.

Section Facts.
Context {W : Type} (OS : ObjectStore W) (DS : DocumentStore W).
Hypothesis Hnames : names_its_objects OS.

Lemma bind_reads {S A B} (f : S → A) (k : A → Eff S B) (s : S) :
  bind (reads f) k s = k (f s) s.
Proof. reflexivity. Qed.

Lemma bind_Normal {S A B} (c : Eff S A) (k : A → Eff S B) (s s' : S) (a : A) :
  c s = (Normal a, s') → bind c k s = k a s'.
Proof. intros H. unfold bind. by rewrite H. Qed.

Lemma bind_Throw {S A B} (c : Eff S A) (k : A → Eff S B) (s s' : S) (e : thrown) :
  c s = (Throw e, s') → bind c k s = (Throw e, s').
Proof. intros H. unfold bind. by rewrite H. Qed.

Lemma migrated_app (l1 l2 : list Call) : migrated (l1 ++ l2) = migrated l1 ++ migrated l2.
Proof. apply omap_app. Qed.

Lemma rejected_app (l1 l2 : list Call) : rejected (l1 ++ l2) = rejected l1 ++ rejected l2.
Proof. apply omap_app. Qed.

Lemma deleted_keys_app (l1 l2 : list Call) :
  deleted_keys (l1 ++ l2) = deleted_keys l1 ++ deleted_keys l2.
Proof. apply omap_app. Qed.

Lemma deleted_documents_app (l1 l2 : list Call) :
  deleted_documents (l1 ++ l2) = deleted_documents l1 ++ deleted_documents l2.
Proof. apply omap_app. Qed.

Lemma saved_app (l1 l2 : list Call) : saved (l1 ++ l2) = saved l1 ++ saved l2.
Proof. apply omap_app. Qed.

Lemma deleted_keys_uploads (outcomes : list Outcome) : deleted_keys (uploads outcomes) = [].
Proof. induction outcomes as [| [u o] l IH]; [done |]. simpl. exact IH. Qed.

Lemma deleted_documents_uploads (outcomes : list Outcome) :
  deleted_documents (uploads outcomes) = [].
Proof. induction outcomes as [| [u o] l IH]; [done |]. simpl. exact IH. Qed.

Lemma saved_uploads (outcomes : list Outcome) : saved (uploads outcomes) = [].
Proof. induction outcomes as [| [u o] l IH]; [done |]. simpl. exact IH. Qed.

Lemma uploads_app (l1 l2 : list Outcome) : uploads (l1 ++ l2) = uploads l1 ++ uploads l2.
Proof. apply fmap_app. Qed.

(** One pass through the loop body. *)
Lemma upload_one_spec (imageUrl : value) (failed : list FailedImage) (r : Run W)
    (res : completion (list FailedImage)) (r' : Run W) :
  upload_one OS imageUrl failed r = (res, r') →
  ∃ o w,
    uploadImageToS3 OS (heap (machine r)) imageUrl (world (machine r)) = (o, w)
    ∧ match o with
      | Normal s3Url =>
          ∃ s3Key, extractS3Key OS s3Url = Normal s3Key ∧ s3Url ≠ ""
            ∧ res = Normal failed
            ∧ r' = push_key s3Key
                     (set_url imageUrl s3Url (logged (CallUploadImageToS3 imageUrl o) w r))
      | Throw e =>
          r' = logged (CallUploadImageToS3 imageUrl o) w r
          ∧ match error_message (heap (machine r)) e with
            | Normal msg => res = Normal (failed ++ [{| url := imageUrl; error := msg |}])
            | Throw e' => res = Throw e'
            end
      end.
Proof.
  unfold upload_one, try_catch, bind, call_uploadImageToS3.
  destruct (uploadImageToS3 OS _ imageUrl _) as [o w] eqn:Hup.
  intros Hrun. exists o, w. split; [reflexivity |].
  destruct o as [s3Url | e].
  - destruct (Hnames _ _ _ _ _ Hup) as [Hne [s3Key Hkey]].
    exists s3Key. unfold modify, lift, ret in Hrun. simpl in Hrun.
    rewrite Hkey in Hrun. by simplify_eq.
  - unfold inspect, ret in Hrun. simpl in Hrun.
    destruct (error_message (heap (machine r)) e); by simplify_eq.
Qed.

(** The whole loop: every pass logs one upload; a returned URL goes to the
    map and its key to the rollback list; a caught error goes to
    [failedImages]. *)
Lemma upload_all_spec (imageUrls : list value) (failed : list FailedImage) (r : Run W)
    (res : completion (list FailedImage)) (r' : Run W) :
  upload_all OS imageUrls failed r = (res, r') →
  ∃ outcomes keys,
    heap (machine r') = heap (machine r)
    ∧ calls (machine r') = calls (machine r) ++ uploads outcomes
    ∧ mongoId r' = mongoId r
    ∧ s3UrlMap r' = record (s3UrlMap r) (migrated (uploads outcomes))
    ∧ uploadedS3Keys r' = uploadedS3Keys r ++ keys
    ∧ Forall2 (key_of OS) (migrated (uploads outcomes)) keys
    ∧ Forall (fun us => us.2 ≠ "") (migrated (uploads outcomes))
    ∧ outcomes.*1 `prefix_of` imageUrls
    ∧ ∀ failed', res = Normal failed' →
        outcomes.*1 = imageUrls
        ∧ ∃ entries,
            failed' = failed ++ entries
            ∧ Forall2 (filed (heap (machine r))) (rejected (uploads outcomes)) entries.
Proof.
  revert failed r res r'.
  induction imageUrls as [| imageUrl rest IH]; intros failed r res r' Hrun.
  - unfold upload_all, ret in Hrun. simplify_eq.
    exists [], []. simpl. rewrite !app_nil_r.
    split_and!; try done; try apply Forall2_nil_2; try apply Forall_nil_2.
    intros failed' [= <-]. split; [done |]. exists []. rewrite app_nil_r.
    split; [done | constructor].
  - simpl in Hrun. unfold bind in Hrun.
    destruct (upload_one OS imageUrl failed r) as [res1 r1] eqn:Hone.
    apply upload_one_spec in Hone as (o & w & Hup & Hcase).
    destruct o as [s3Url | e].
    + destruct Hcase as (s3Key & Hkey & Hne & -> & ->).
      apply IH in Hrun
        as (outcomes & keys & Hheap & Hcalls & Hid & Hmap & Hkeys & Hder & Hnon & Hpre & Hres).
      exists ((imageUrl, Normal s3Url) :: outcomes), (s3Key :: keys).
      simpl in *. rewrite <- !app_assoc in *. simpl in *.
      split_and!; try done.
      * by constructor.
      * by constructor.
      * by apply prefix_cons.
      * intros failed' ->. destruct (Hres _ eq_refl) as [Heq Hentries].
        split; [by f_equal | done].
    + destruct Hcase as [-> Hmsg].
      destruct (error_message (heap (machine r)) e) as [msg | e'] eqn:Herr; subst res1.
      * apply IH in Hrun
          as (outcomes & keys & Hheap & Hcalls & Hid & Hmap & Hkeys & Hder & Hnon & Hpre & Hres).
        exists ((imageUrl, Throw e) :: outcomes), keys.
        simpl in *. rewrite <- !app_assoc in *. simpl in *.
        split_and!; try done.
        -- by apply prefix_cons.
        -- intros failed' ->. destruct (Hres _ eq_refl) as [Heq (entries & -> & Hfiled)].
           split; [by f_equal |].
           exists ({| url := imageUrl; error := msg |} :: entries).
           rewrite <- app_assoc. split; [done |]. by constructor.
      * simplify_eq.
        exists [(imageUrl, Throw e)], [].
        simpl. rewrite !app_nil_r.
        split_and!; try done; try apply Forall2_nil_2; try apply Forall_nil_2.
        apply prefix_cons, prefix_nil.
Qed.

Lemma map_set_fresh (k : value) (s : string) (m : JsMap) :
  k ∉ m.*1 → map_set k s m = m ++ [(k, s)].
Proof.
  induction m as [| [k' s'] m IH]; intros Hk; [done |].
  simpl in *. apply not_elem_of_cons in Hk as [Hne Hk].
  rewrite decide_False by done. by rewrite IH.
Qed.

Lemma record_fresh (l m : JsMap) :
  NoDup (m.*1 ++ l.*1) → record m l = m ++ l.
Proof.
  revert m. induction l as [| [k s] l IH]; intros m Hnd; simpl.
  - by rewrite app_nil_r.
  - simpl in Hnd. unfold record in *. simpl.
    rewrite map_set_fresh.
    + rewrite IH; [by rewrite <- app_assoc |].
      rewrite fmap_app. simpl. by rewrite <- app_assoc.
    + apply NoDup_app in Hnd as (_ & Hdisj & _).
      intros Hk. apply (Hdisj _ Hk). by left.
Qed.

Lemma migrated_uploads_sublist (outcomes : list Outcome) :
  (migrated (uploads outcomes)).*1 `sublist_of` outcomes.*1.
Proof.
  induction outcomes as [| [u [s | e]] l IH]; simpl.
  - done.
  - by apply sublist_skip.
  - by apply sublist_cons.
Qed.

Lemma collectImageUrls_NoDup (h : Heap) (question : value) (imageUrls : list value) :
  collectImageUrls h question = Normal imageUrls → NoDup imageUrls.
Proof.
  unfold collectImageUrls.
  destruct (pushedImageUrls h question) as [pushed | e]; [| done]. simpl.
  destruct (filter_urls pushed) as [kept | e]; [| done]. simpl.
  intros [= <-]. apply ExtractorFacts.set_of_NoDup.
Qed.

Lemma get_prop_Normal_field (h : Heap) (v : value) (k : string) (x : value) :
  get_prop h v k = Normal x → nullish v = false ∧ x = field h v k.
Proof.
  intros Hget. unfold field. rewrite Hget.
  split; [| done]. by destruct v.
Qed.

Ltac close_attempt :=
  rewrite ?deleted_keys_app, ?deleted_documents_app, ?migrated_app, ?saved_app,
    ?deleted_keys_uploads, ?deleted_documents_uploads, ?saved_uploads;
  simpl;
  repeat match goal with
         | H : calls (machine _) = _ |- _ => rewrite H
         | H : heap (machine _) = _ |- _ => rewrite H
         end;
  rewrite <- ?app_assoc;
  cbn; rewrite ?app_nil_r;
  first [ done | apply Forall2_nil_2 | apply Forall_nil_2
        | apply Forall_singleton; by eexists | idtac ].

(** The [try] block ends in one of three ways. *)
Lemma try_spec (question : value) (m : Machine W) (res : completion UploadResult)
    (r1 : Run W) :
  uploadQuestionToDB_try OS DS question (start m) = (res, r1) →
  attempt OS DS question m res r1.
Proof.
  unfold uploadQuestionToDB_try, bind, inspect, start. simpl.
  destruct (get_prop (heap m) question "id") as [questionId | e] eqn:Hid.
  2: { intros [= <- <-]. eapply (attempt_fault _ _ _ _ _ [] []); close_attempt. }
  unfold call_questionExists. simpl.
  destruct (questionExists DS (heap m) questionId (world m)) as [[[] | e] w] eqn:Hex.
  - unfold reads, ret. simpl. intros [= <- <-]. by apply attempt_duplicate.
  - unfold logged. simpl.
    destruct (collectImageUrls (heap m) question) as [imageUrls | e] eqn:Hcollect.
    2: { intros [= <- <-].
         eapply (attempt_fault _ _ _ _ _ [CallQuestionExists questionId (Normal false)] []);
           close_attempt. }
    match goal with
    | |- context [upload_all OS imageUrls [] ?r] =>
        destruct (upload_all OS imageUrls [] r) as [resL r2] eqn:Hloop
    end.
    apply upload_all_spec in Hloop
      as (outcomes & keys & Hheap & Hcalls & Hmid & Hmap & Hkeys & Hder & Hnon & Hpre & Hres).
    simpl in *.
    destruct resL as [entries | e].
    2: { intros [= <- <-].
         eapply (attempt_fault _ _ _ _ _ ([CallQuestionExists questionId (Normal false)] ++ uploads outcomes) keys);
           close_attempt. }
    destruct (Hres _ eq_refl) as [Hall (entries' & Heq & Hfiled)].
    simpl in Heq. subst entries'.
    assert (Hrecord : s3UrlMap r2 = migrated (uploads outcomes)).
    { rewrite Hmap. rewrite record_fresh; [done |]. simpl.
      apply (sublist_NoDup _ (outcomes.*1)); [| apply migrated_uploads_sublist].
      rewrite Hall. by eapply collectImageUrls_NoDup. }
    unfold reads, on_heap. simpl. rewrite Hheap.
    destruct (replaceImageUrls question (s3UrlMap r2) (heap m)) as [[question' | e] h'] eqn:Hrw.
    2: { intros [= <- <-].
         eapply (attempt_fault _ _ _ _ _ ([CallQuestionExists questionId (Normal false)] ++ uploads outcomes) keys);
           close_attempt. }
    simpl.
    destruct (get_prop h' question "imageUrl") as [legacy | e] eqn:Hlegacy.
    2: { intros [= <- <-].
         eapply (attempt_fault _ _ _ _ _ ([CallQuestionExists questionId (Normal false)] ++ uploads outcomes) keys);
           close_attempt. }
    apply get_prop_Normal_field in Hlegacy as [_ ->].
    unfold call_saveQuestionToMongoDB. simpl.
    destruct (saveQuestionToMongoDB DS h' question' _ (world (machine r2)))
      as [[documentId | e] w'] eqn:Hsave.
    + unfold modify, ret. simpl. intros [= <- <-].
      eapply (attempt_saved _ _ _ _ _ _ outcomes keys entries question' documentId
                (set_mongoId documentId (logged _ w' (with_heap h' r2))));
        close_attempt.
    + intros [= <- <-].
      eapply (attempt_fault _ _ _ _ _
                ([CallQuestionExists questionId (Normal false)] ++ uploads outcomes
                   ++ [CallSaveQuestionToMongoDB question'
                         (map_get_v (s3UrlMap r2) (field h' question "imageUrl")) (Throw e)])
                keys);
        close_attempt.
  - intros [= <- <-].
    eapply (attempt_fault _ _ _ _ _ [CallQuestionExists questionId (Throw e)] []);
      close_attempt.
Qed.

(** Every recorded key gets its delete call, whatever the calls before it
    returned or threw. *)
Lemma delete_uploaded_spec (keys : list string) (r : Run W) :
  ∃ r' deletions,
    delete_uploaded OS keys r = (Normal tt, r')
    ∧ heap (machine r') = heap (machine r)
    ∧ calls (machine r') = calls (machine r) ++ deletions
    ∧ Forall2 deletes deletions keys.
Proof.
  revert r. induction keys as [| s3Key keys IH]; intros r.
  - exists r, []. simpl. rewrite app_nil_r. split_and!; done.
  - simpl. unfold bind, swallow, try_catch, call_deleteImageFromS3.
    destruct (deleteImageFromS3 OS (heap (machine r)) s3Key (world (machine r)))
      as [res w] eqn:Hdel.
    destruct (IH (logged (CallDeleteImageFromS3 s3Key res) w r))
      as (r' & deletions & Hrun & Hheap & Hcalls & Hall).
    exists r', (CallDeleteImageFromS3 s3Key res :: deletions).
    simpl in *. rewrite <- app_assoc in Hcalls.
    split_and!; try done.
    + destruct res; exact Hrun.
    + constructor; [by exists res | done].
Qed.

Lemma catch_spec (e : thrown) (r : Run W) :
  ∃ r' removal deletions,
    uploadQuestionToDB_catch OS DS e r
    = (Normal {| success := false;
                 message := "Upload failed: " +:+ errorMessage e
                              +:+ ". All changes have been rolled back.";
                 s3Urls := None; resultMongoId := None; failedImages := None |}, r')
    ∧ heap (machine r') = heap (machine r)
    ∧ calls (machine r') = calls (machine r) ++ removal ++ deletions
    ∧ removal_of (mongoId r) removal
    ∧ Forall2 deletes deletions (uploadedS3Keys r).
Proof.
  assert (Hremoval : ∃ r1 removal,
    (match mongoId r with
     | Some id =>
         if truthy (VStr id) then swallow (call_deleteQuestionFromMongoDB DS id) else ret tt
     | None => ret tt
     end) r = (Normal tt, r1)
    ∧ heap (machine r1) = heap (machine r)
    ∧ uploadedS3Keys r1 = uploadedS3Keys r
    ∧ calls (machine r1) = calls (machine r) ++ removal
    ∧ removal_of (mongoId r) removal).
  { unfold removal_of. destruct (mongoId r) as [documentId |].
    - destruct (truthy (VStr documentId)).
      + unfold swallow, try_catch, call_deleteQuestionFromMongoDB.
        destruct (deleteQuestionFromMongoDB DS _ documentId _) as [res w] eqn:Hdel.
        exists (logged (CallDeleteQuestionFromMongoDB documentId res) w r),
          [CallDeleteQuestionFromMongoDB documentId res].
        split_and!; try done; [destruct res as [[] | ?]; reflexivity | by exists res].
      + exists r, []. rewrite app_nil_r. split_and!; done.
    - exists r, []. rewrite app_nil_r. split_and!; done. }
  destruct Hremoval as (r1 & removal & Hrun1 & Hheap1 & Hkeys1 & Hcalls1 & Hrem).
  destruct (delete_uploaded_spec (uploadedS3Keys r1) r1)
    as (r' & deletions & Hrun2 & Hheap & Hcalls & Hall).
  exists r', removal, deletions.
  unfold uploadQuestionToDB_catch.
  rewrite bind_reads, (bind_Normal _ _ _ _ _ Hrun1), bind_reads,
    (bind_Normal _ _ _ _ _ Hrun2).
  split_and!; try done.
  - congruence.
  - by rewrite Hcalls, Hcalls1, <- app_assoc.
  - by rewrite <- Hkeys1.
Qed.

Lemma uploadQuestionToDB_unfold (question : value) (m : Machine W) :
  nullish question = false →
  uploadQuestionToDB OS DS question m
  = match uploadQuestionToDB_try OS DS question (start m) with
    | (Normal result, r1) => (Normal result, machine r1)
    | (Throw e, r1) =>
        let '(res, r') := uploadQuestionToDB_catch OS DS e r1 in (res, machine r')
    end.
Proof.
  intros Hq. unfold uploadQuestionToDB, try_catch.
  rewrite (ExtractorFacts.get_prop_field _ _ _ Hq).
  by destruct (uploadQuestionToDB_try OS DS question (start m)) as [[result | e] r1].
Qed.

(** C1. Suppose the [try] block of [uploadQuestionToDB] throws, whatever the
    cause (the insert, or any other fault) and wherever it happens, after [K]
    uploads had returned. Then the function does not throw: it returns
    [{success: false, message: "Upload failed: <cause>. All changes have been
    rolled back."}], where [<cause>] is the message of the [Error] thrown,
    and [Unknown error occurred] when what was thrown is not an [Error].
    After the calls of the [try] block it makes exactly one
    [deleteImageFromS3] call per recorded key, in order, whatever each call
    returns or throws; the recorded keys are the keys of the [K] returned
    URLs, so there are [K] such calls. No store id is held at that point, and
    no [deleteQuestionFromMongoDB] call is made. *)
Theorem rollback_completeness (question : value) (m : Machine W) (e : thrown)
    (r1 : Run W) :
  nullish question = false →
  uploadQuestionToDB_try OS DS question (start m) = (Throw e, r1) →
  ∃ m' tr deletions,
    uploadQuestionToDB OS DS question m
    = (Normal {| success := false;
                 message := "Upload failed: "
                              +:+ match e with
                                  | JsError msg => msg
                                  | JsThrow _ => "Unknown error occurred"
                                  end
                              +:+ ". All changes have been rolled back.";
                 s3Urls := None; resultMongoId := None; failedImages := None |}, m')
    ∧ calls (machine r1) = calls m ++ tr
    ∧ calls m' = calls m ++ tr ++ deletions
    ∧ Forall2 deletes deletions (uploadedS3Keys r1)
    ∧ Forall2 (key_of OS) (migrated tr) (uploadedS3Keys r1)
    ∧ deleted_keys (tr ++ deletions) = uploadedS3Keys r1
    ∧ length (deleted_keys (tr ++ deletions)) = length (migrated tr)
    ∧ mongoId r1 = None
    ∧ deleted_documents (tr ++ deletions) = [].
Proof.
  intros Hq Htry.
  pose proof (try_spec _ _ _ _ Htry) as Hattempt.
  inversion Hattempt as [| | e' tr keys r1' Hcalls Hnokeys Hnodocs Hkeys Hder Hid]; subst.
  destruct (catch_spec e r1) as (r' & removal & deletions & Hcatch & _ & Hcalls' & Hrem & Hdel).
  rewrite Hid in Hrem. simpl in Hrem. subst removal.
  assert (Hdeleted : deleted_keys deletions = uploadedS3Keys r1).
  { clear -Hdel. induction Hdel as [| c k l ks [res ->] _ IH]; [done |].
    simpl. by rewrite <- IH. }
  assert (Hnone : deleted_documents deletions = []).
  { clear -Hdel. induction Hdel as [| c k l ks [res ->] _ IH]; [done |]. done. }
  exists (machine r'), tr, deletions.
  rewrite (uploadQuestionToDB_unfold _ _ Hq), Htry, Hcatch. simpl.
  rewrite deleted_keys_app, deleted_documents_app, Hnokeys, Hnodocs. simpl.
  rewrite Hcalls', Hcalls, <- app_assoc.
  split_and!; try done.
  rewrite Hdeleted. symmetry. by eapply Forall2_length.
Qed.

(** The single-question protocol returns; it throws only on [null] or
    [undefined], where reading [question.id] fails before the [try]. *)
Lemma uploadQuestionToDB_returns (question : value) (m : Machine W) :
  nullish question = false →
  ∃ result m', uploadQuestionToDB OS DS question m = (Normal result, m').
Proof.
  intros Hq. rewrite (uploadQuestionToDB_unfold _ _ Hq).
  destruct (uploadQuestionToDB_try OS DS question (start m)) as [[result | e] r1]; [eauto |].
  destruct (catch_spec e r1) as (r' & removal & deletions & -> & _). simpl. eauto.
Qed.

Lemma upload_each_spec (questions : list value) (acc : BatchResult) (m : Machine W) :
  Forall (fun q => nullish q = false) questions →
  ∃ new m',
    upload_each OS DS questions acc m = (Normal (tally acc new), m')
    ∧ in_sequence OS DS questions m new m'.
Proof.
  intros Hall. revert acc m.
  induction Hall as [| question questions Hq _ IH]; intros acc m.
  - exists [], m. split; [| constructor].
    unfold tally. simpl. rewrite app_nil_r, !Nat.add_0_r. by destruct acc.
  - destruct (uploadQuestionToDB_returns question m Hq) as (result & m1 & Hone).
    simpl. rewrite (bind_Normal _ _ _ _ _ Hone).
    match goal with |- context [upload_each OS DS questions ?acc' m1] =>
      destruct (IH acc' m1) as (new & m' & Hrest & Hseq)
    end.
    exists (result :: new), m'. split; [| by econstructor].
    rewrite Hrest. f_equal. unfold tally. simpl.
    rewrite <- app_assoc. simpl.
    destruct (success result) eqn:Hs.
    + rewrite filter_cons_True by done. rewrite filter_cons_False by (by rewrite Hs).
      simpl. by rewrite Nat.add_succ_r.
    + rewrite filter_cons_False by (by rewrite Hs). rewrite filter_cons_True by done.
      simpl. by rewrite Nat.add_succ_r.
Qed.

Lemma in_sequence_length (questions : list value) (m m' : Machine W)
    (rs : list UploadResult) :
  in_sequence OS DS questions m rs m' → length rs = length questions.
Proof. induction 1; simpl; congruence. Qed.

Lemma for_of_iterate (source : string) (h : Heap) (v : value) (vs : list value) :
  iterate h v = Normal vs → for_of source h v = Normal vs.
Proof. unfold for_of. by intros ->. Qed.

(** Given an array of questions, none of them [null] or [undefined],
    [uploadMultipleQuestions] returns (it does not throw) the three fields
    [{successful, failed, results}]: [results] holds one result per question,
    in the order submitted, each being what [uploadQuestionToDB] returned when
    run on the state the previous question left; [successful] and [failed]
    count the results whose [success] is [true] and [false]. A duplicate or a
    rolled-back question is one more [failed] entry and the loop goes on. *)
Theorem batch_runs_every_question (questions : value) (qs : list value) (m : Machine W) :
  iterate (heap m) questions = Normal qs →
  Forall (fun q => nullish q = false) qs →
  ∃ rs m',
    uploadMultipleQuestions OS DS questions m
    = (Normal {| successful := length (filter (fun r => success r = true) rs);
                 failed := length (filter (fun r => success r = false) rs);
                 results := rs |}, m')
    ∧ in_sequence OS DS qs m rs m'
    ∧ length rs = length qs
    ∧ (length (filter (fun r => success r = true) rs)
       + length (filter (fun r => success r = false) rs) = length qs)%nat.
Proof.
  intros Hiter Hall.
  destruct (upload_each_spec qs {| successful := 0; failed := 0; results := [] |} m Hall)
    as (rs & m' & Hrun & Hseq).
  exists rs, m'. unfold uploadMultipleQuestions, bind.
  rewrite (for_of_iterate _ _ _ _ Hiter), Hrun.
  pose proof (in_sequence_length _ _ _ _ Hseq) as Hlen.
  split_and!; try done.
  rewrite <- Hlen. clear. induction rs as [| r rs IH]; [done |].
  destruct (success r) eqn:Hs.
  - rewrite filter_cons_True by done. rewrite filter_cons_False by (by rewrite Hs).
    simpl. lia.
  - rewrite filter_cons_False by (by rewrite Hs). rewrite filter_cons_True by done.
    simpl. lia.
Qed.

Lemma migrated_rejected_length (outcomes : list Outcome) :
  (length (migrated (uploads outcomes)) + length (rejected (uploads outcomes)))%nat
  = length outcomes.
Proof.
  induction outcomes as [| [u [s | e]] l IH]; simpl in *; lia.
Qed.

(** C9. When the [try] block of [uploadQuestionToDB] ends in a success
    result, one upload was attempted for each reference the extractor
    produced, in order; the map holds exactly one entry per upload that
    returned (the reference and the URL returned for it) and none for an
    upload that threw; the rollback list holds exactly one key per entry, the
    key derived from that entry's URL; [failedImages] holds one entry per
    upload that threw. So [s3Urls] is the list of the map's values, and its
    length plus the length of [failedImages] is the number of references. *)
Theorem bookkeeping_in_sync (question : value) (m : Machine W) (result : UploadResult)
    (r1 : Run W) :
  uploadQuestionToDB_try OS DS question (start m) = (Normal result, r1) →
  success result = true →
  ∃ imageUrls outcomes entries,
    collectImageUrls (heap m) question = Normal imageUrls
    ∧ outcomes.*1 = imageUrls
    ∧ migrated (drop (length (calls m)) (calls (machine r1))) = migrated (uploads outcomes)
    ∧ rejected (drop (length (calls m)) (calls (machine r1))) = rejected (uploads outcomes)
    ∧ s3UrlMap r1 = migrated (uploads outcomes)
    ∧ Forall2 (key_of OS) (s3UrlMap r1) (uploadedS3Keys r1)
    ∧ url <$> entries = (rejected (uploads outcomes)).*1
    ∧ s3Urls result = Some (map_values (s3UrlMap r1))
    ∧ failedImages result = (if bool_decide (entries = []) then None else Some entries)
    ∧ (length (map_values (s3UrlMap r1)) + length entries = length imageUrls)%nat.
Proof.
  intros Htry Hsuccess.
  pose proof (try_spec _ _ _ _ Htry) as Hattempt.
  inversion Hattempt
    as [ | questionId imageUrls outcomes keys entries question' documentId r1'
           Hid Hcollect Hall Hmap Hkeys Hder Hnon Hfiled Hrw Hcalls Hmongo | ];
    subst; [done |].
  exists (outcomes.*1), outcomes, entries.
  assert (Hurls : url <$> entries = (rejected (uploads outcomes)).*1).
  { clear -Hfiled. induction Hfiled as [| ue f l fs [Hurl _] _ IH]; [done |].
    rewrite !fmap_cons. by rewrite Hurl, IH. }
  rewrite Hcalls, drop_app_length.
  rewrite !migrated_app, !rejected_app. simpl. rewrite !app_nil_r.
  split_and!; try done.
  - by rewrite Hmap.
  - unfold map_values. rewrite length_fmap, Hmap.
    rewrite <- (length_fmap url entries), Hurls, length_fmap.
    rewrite migrated_rejected_length. by rewrite length_fmap.
Qed.

Lemma map_ok_nonempty (M : JsMap) : Forall (fun us => us.2 ≠ "") M → map_ok M.
Proof.
  intros HM k s. induction HM as [| [k' s'] M Hs _ IH]; simpl; [done |].
  destruct (decide (k = k')); [by intros [= <-] | exact IH].
Qed.

Lemma map_get_elem (M : JsMap) (v : value) (s : string) :
  NoDup M.*1 → (v, s) ∈ M → map_get M v = Some s.
Proof.
  induction M as [| [k' s'] M IH]; simpl; intros Hnd Hin; [by apply elem_of_nil in Hin |].
  apply NoDup_cons in Hnd as [Hk' Hnd].
  apply elem_of_cons in Hin as [[= -> ->] | Hin].
  - by rewrite decide_True.
  - rewrite decide_False; [by apply IH |].
    intros ->. apply Hk'. apply list_elem_of_fmap. by exists (k', s).
Qed.

Lemma map_get_none (M : JsMap) (v : value) : v ∉ M.*1 → map_get M v = None.
Proof.
  induction M as [| [k' s'] M IH]; simpl; intros Hv; [done |].
  apply not_elem_of_cons in Hv as [Hne Hv].
  rewrite decide_False by done. by apply IH.
Qed.

Lemma outcome_sorted (outcomes : list Outcome) (v : value) :
  v ∈ outcomes.*1 →
  (∃ e, (v, e) ∈ rejected (uploads outcomes)) ∨ (∃ s, (v, s) ∈ migrated (uploads outcomes)).
Proof.
  induction outcomes as [| [u [s | e]] l IH]; simpl; intros Hv.
  - by apply elem_of_nil in Hv.
  - apply elem_of_cons in Hv as [-> | Hv].
    + right. exists s. by left.
    + destruct (IH Hv) as [[e He] | [s' Hs']]; [left; by exists e | right; exists s'; by right].
  - apply elem_of_cons in Hv as [-> | Hv].
    + left. exists e. by left.
    + destruct (IH Hv) as [[e' He] | [s' Hs']]; [left; exists e'; by right | right; by exists s'].
Qed.

Lemma rejected_not_migrated (outcomes : list Outcome) (v : value) (e : thrown) :
  NoDup outcomes.*1 → (v, e) ∈ rejected (uploads outcomes) →
  v ∉ (migrated (uploads outcomes)).*1.
Proof.
  induction outcomes as [| [u [s | e']] l IH]; simpl; intros Hnd Hv.
  - by apply elem_of_nil in Hv.
  - apply NoDup_cons in Hnd as [Hu Hnd].
    apply not_elem_of_cons. split; [| by apply IH].
    intros ->. apply Hu.
    assert (Hin : (u, e) ∈ rejected (uploads l)) by done.
    clear -Hin. induction l as [| [u' [s' | e'']] l IH]; simpl in *.
    + by apply elem_of_nil in Hin.
    + right. by apply IH.
    + apply elem_of_cons in Hin as [[= -> _] | Hin]; [by left | right; by apply IH].
  - apply NoDup_cons in Hnd as [Hu Hnd].
    apply elem_of_cons in Hv as [[= -> ->] | Hv]; [| by apply IH].
    intros Hin. apply Hu.
    exact (elem_of_sublist _ _ _ Hin (migrated_uploads_sublist l)).
Qed.

Lemma saved_deletions (deletions : list Call) (keys : list string) :
  Forall2 deletes deletions keys → saved deletions = [].
Proof. induction 1 as [| c k l ks [res ->] _ IH]; [done | exact IH]. Qed.

Lemma saved_removal (held : option string) (removal : list Call) :
  removal_of held removal → saved removal = [].
Proof.
  unfold removal_of. destruct held as [documentId |]; [| by intros ->].
  destruct (truthy (VStr documentId)); [by intros [res ->] | by intros ->].
Qed.

Lemma rejected_deletions (deletions : list Call) (keys : list string) :
  Forall2 deletes deletions keys → rejected deletions = [] ∧ migrated deletions = [].
Proof. induction 1 as [| c k l ks [res ->] _ IH]; [done | exact IH]. Qed.

Lemma rejected_removal (held : option string) (removal : list Call) :
  removal_of held removal → rejected removal = [] ∧ migrated removal = [].
Proof.
  unfold removal_of. destruct held as [documentId |]; [| by intros ->].
  destruct (truthy (VStr documentId)); [by intros [res ->] | by intros ->].
Qed.

(** The loop throws only when its own [catch] does: reading [error.message]
    of what an upload threw has failed. *)
Lemma upload_all_throws (imageUrls : list value) (failed : list FailedImage) (r : Run W)
    (e : thrown) (r' : Run W) :
  upload_all OS imageUrls failed r = (Throw e, r') →
  ∃ outcomes u e0,
    calls (machine r') = calls (machine r) ++ uploads outcomes
    ∧ (u, e0) ∈ rejected (uploads outcomes)
    ∧ error_message (heap (machine r)) e0 = Throw e.
Proof.
  revert failed r. induction imageUrls as [| imageUrl rest IH]; intros failed r Hrun.
  - done.
  - simpl in Hrun. unfold bind in Hrun.
    destruct (upload_one OS imageUrl failed r) as [res1 r1] eqn:Hone.
    apply upload_one_spec in Hone as (o & w & Hup & Hcase).
    destruct o as [s3Url | e0].
    + destruct Hcase as (s3Key & Hkey & Hne & -> & ->).
      apply IH in Hrun as (outcomes & u & e1 & Hcalls & Hin & Hmsg).
      exists ((imageUrl, Normal s3Url) :: outcomes), u, e1.
      simpl in *. rewrite Hcalls, <- app_assoc. done.
    + destruct Hcase as [-> Hmsg].
      destruct (error_message (heap (machine r)) e0) as [msg | e'] eqn:Herr; subst res1.
      * apply IH in Hrun as (outcomes & u & e1 & Hcalls & Hin & Hmsg).
        exists ((imageUrl, Throw e0) :: outcomes), u, e1.
        simpl in *. rewrite Hcalls, <- app_assoc. split_and!; [done | by right | done].
      * simplify_eq. exists [(imageUrl, Throw e0)], imageUrl, e0.
        simpl. split_and!; [done | by left | done].
Qed.

(** A run of the [try] block in which an upload threw an [Error] went on to
    the insert, provided the rewriter can do its work: every reference was
    tried, the question was rewritten with the URLs of the uploads that
    returned, and [saveQuestionToMongoDB] was called on it. *)
Lemma try_reaches_insert (question : value) (m : Machine W)
    (res : completion UploadResult) (r1 : Run W) (tr : list Call) :
  uploadQuestionToDB_try OS DS question (start m) = (res, r1) →
  calls (machine r1) = calls m ++ tr →
  rejected tr ≠ [] →
  Forall (fun ue => ∃ msg, ue.2 = JsError msg) (rejected tr) →
  (∀ M, map_ok M → ∃ q h', replaceImageUrls question M (heap m) = (Normal q, h')) →
  ∃ questionId imageUrls outcomes entries question' outcome,
    collectImageUrls (heap m) question = Normal imageUrls
    ∧ outcomes.*1 = imageUrls
    ∧ Forall (fun us => us.2 ≠ "") (migrated (uploads outcomes))
    ∧ Forall2 (filed (heap m)) (rejected (uploads outcomes)) entries
    ∧ replaceImageUrls question (migrated (uploads outcomes)) (heap m)
      = (Normal question', heap (machine r1))
    ∧ tr = [CallQuestionExists questionId (Normal false)] ++ uploads outcomes
           ++ [CallSaveQuestionToMongoDB question'
                 (map_get_v (migrated (uploads outcomes))
                    (field (heap (machine r1)) question "imageUrl"))
                 outcome]
    ∧ match outcome with
      | Normal documentId =>
          res = Normal {| success := true;
                          message := success_message entries;
                          s3Urls := Some (map_values (migrated (uploads outcomes)));
                          resultMongoId := Some documentId;
                          failedImages :=
                            if bool_decide (entries = []) then None else Some entries |}
      | Throw e => res = Throw e
      end.
Proof.
  unfold uploadQuestionToDB_try, bind, inspect, start. simpl.
  destruct (get_prop (heap m) question "id") as [questionId | e] eqn:Hid.
  2: { intros [= <- <-] Hcalls Hrej. simpl in Hcalls.
       rewrite <- (app_nil_r (calls m)) in Hcalls at 1.
       apply app_inv_head in Hcalls. by subst tr. }
  unfold call_questionExists. simpl.
  destruct (questionExists DS (heap m) questionId (world m)) as [[[] | e] w] eqn:Hex.
  - unfold reads, ret. simpl. intros [= <- <-] Hcalls Hrej. simpl in Hcalls.
    apply app_inv_head in Hcalls. by subst tr.
  - unfold logged. simpl.
    destruct (collectImageUrls (heap m) question) as [imageUrls | e] eqn:Hcollect.
    2: { intros [= <- <-] Hcalls Hrej. simpl in Hcalls.
         apply app_inv_head in Hcalls. by subst tr. }
    match goal with
    | |- context [upload_all OS imageUrls [] ?r] =>
        destruct (upload_all OS imageUrls [] r) as [resL r2] eqn:Hloop
    end.
    destruct resL as [entries | e].
    2: { intros [= <- <-] Hcalls Hrej Herrors _.
         apply upload_all_throws in Hloop as (outcomes & u & e0 & Hcalls2 & Hin & Hmsg).
         simpl in Hcalls2, Hmsg. rewrite Hcalls2, <- app_assoc in Hcalls.
         apply app_inv_head in Hcalls. subst tr.
         simpl in Herrors. rewrite Forall_forall in Herrors.
         destruct (Herrors _ Hin) as [msg Hmsg']. simpl in Hmsg'. by subst e0. }
    apply upload_all_spec in Hloop
      as (outcomes & keys & Hheap & Hcalls2 & Hmid & Hmap & Hkeys & Hder & Hnon & Hpre & Hres).
    simpl in *.
    destruct (Hres _ eq_refl) as [Hall (entries' & Heq & Hfiled)].
    simpl in Heq. subst entries'.
    assert (Hrecord : s3UrlMap r2 = migrated (uploads outcomes)).
    { rewrite Hmap. rewrite record_fresh; [done |]. simpl.
      apply (sublist_NoDup _ (outcomes.*1)); [| apply migrated_uploads_sublist].
      rewrite Hall. by eapply collectImageUrls_NoDup. }
    unfold reads, on_heap. simpl. rewrite Hheap, Hrecord.
    destruct (replaceImageUrls question (migrated (uploads outcomes)) (heap m))
      as [[question' | e] h'] eqn:Hrw.
    2: { intros _ _ _ _ Hrewrites.
         destruct (Hrewrites _ (map_ok_nonempty _ Hnon)) as (q & h2 & Hrw2). congruence. }
    simpl.
    destruct (get_prop h' question "imageUrl") as [legacy | e] eqn:Hlegacy.
    2: { exfalso. clear -Hid Hlegacy. destruct question; simpl in *; try done; by case_match. }
    apply get_prop_Normal_field in Hlegacy as [_ ->].
    unfold call_saveQuestionToMongoDB. simpl.
    destruct (saveQuestionToMongoDB DS h' question' _ (world (machine r2)))
      as [[documentId | e] w'] eqn:Hsave.
    + unfold modify, ret. simpl. rewrite ?Hrecord. intros [= <- <-] Hcalls _ _ _. simpl in *.
      rewrite Hcalls2, <- !app_assoc in Hcalls. apply app_inv_head in Hcalls. subst tr.
      exists questionId, imageUrls, outcomes, entries, question', (Normal documentId).
      split_and!; done.
    + intros [= <- <-] Hcalls _ _ _. simpl in *.
      rewrite Hcalls2, <- !app_assoc in Hcalls. apply app_inv_head in Hcalls. subst tr.
      exists questionId, imageUrls, outcomes, entries, question', (Throw e).
      split_and!; done.
  - intros [= <- <-] Hcalls Hrej. simpl in Hcalls.
    apply app_inv_head in Hcalls. by subst tr.
Qed.

(** C3. Suppose [uploadQuestionToDB] runs on a question whose image-bearing
    fields have the types of the data model and whose image blocks are
    distinct objects, and that exactly one upload throws (an [Error] with
    message [msg], for the reference [failed_url]). Then processing goes on:
    every non-blank reference of the question is tried, and
    [saveQuestionToMongoDB] is called, once, on a question that holds, in
    each place, the object-store URL of the reference that was there if its
    upload returned and the reference itself otherwise -- so [failed_url]
    stays as it was, and every other reference is replaced. If that insert
    returns, the function returns [success: true]; [failedImages] is the one
    entry [{url: failed_url, error: msg}] and the message says that 1 image
    failed. (If the insert throws, the result is the failure of the
    rollback.) *)
Theorem partial_failure_tolerated (question : value) (m : Machine W)
    (result : UploadResult) (m' : Machine W) (log : list Call)
    (failed_url : value) (msg : string) :
  closed (heap m) →
  question_ok (heap m) question →
  NoDup (image_blocks (heap m) question) →
  uploadQuestionToDB OS DS question m = (Normal result, m') →
  calls m' = calls m ++ log →
  rejected log = [(failed_url, JsError msg)] →
  ∃ question' s3ImageUrl outcome,
    saved log = [(question', s3ImageUrl, outcome)]
    ∧ pushed_of_question (heap m') question'
      = mapped_or_same (migrated log) <$> pushed_of_question (heap m) question
    ∧ mapped_or_same (migrated log) failed_url = failed_url
    ∧ (∀ v s3Url, (v, s3Url) ∈ migrated log → mapped_or_same (migrated log) v = VStr s3Url)
    ∧ (∀ v, image_location (heap m) question v → non_blank v →
            v = failed_url ∨ ∃ s3Url, (v, s3Url) ∈ migrated log)
    ∧ match outcome with
      | Normal documentId =>
          success result = true
          ∧ failedImages result = Some [{| url := failed_url; error := VStr msg |}]
          ∧ message result
            = "Successfully uploaded to database! Warning: 1 image(s) failed to upload to S3. The question was saved with original image URLs."
          ∧ resultMongoId result = Some documentId
      | Throw e => success result = false ∧ resultMongoId result = None
      end.
Proof.
  intros Hclosed Hok Hdistinct Hrun Hlog Hrejected.
  pose proof Hok as (Hq & _).
  rewrite (uploadQuestionToDB_unfold _ _ Hq) in Hrun.
  destruct (uploadQuestionToDB_try OS DS question (start m)) as [res0 r1] eqn:Htry.
  assert (Hrewrites : ∀ M, map_ok M →
            ∃ q h', replaceImageUrls question M (heap m) = (Normal q, h')).
  { intros M HM.
    destruct (RewriterFacts.replaceImageUrls_spec M HM _ _ Hclosed Hok Hdistinct)
      as (q & h' & Hrw & _). eauto. }
  (* what the [try] block logged, and what the whole run logged *)
  assert (Htr : ∃ tr, calls (machine r1) = calls m ++ tr
                      ∧ rejected tr = rejected log ∧ migrated tr = migrated log
                      ∧ saved tr = saved log
                      ∧ heap m' = heap (machine r1)
                      ∧ match res0 with
                        | Normal r => result = r
                        | Throw e => success result = false ∧ resultMongoId result = None
                        end).
  { pose proof (try_spec _ _ _ _ Htry) as Hattempt.
    destruct res0 as [r | e].
    - injection Hrun as -> <-. exists log. split_and!; done.
    - inversion Hattempt as [| | e' tr keys r1' Hcalls Hnokeys Hnodocs Hkeys Hder Hid Hnosave];
        subst.
      destruct (catch_spec e r1)
        as (r' & removal & deletions & Hcatch & Hheap & Hcalls' & Hrem & Hdel).
      rewrite Hcatch in Hrun. injection Hrun as <- <-.
      rewrite Hcalls', Hcalls, <- app_assoc in Hlog. apply app_inv_head in Hlog. subst log.
      destruct (rejected_deletions _ _ Hdel) as [Hrd Hmd].
      destruct (rejected_removal _ _ Hrem) as [Hrr Hmr].
      exists tr. rewrite !rejected_app, !migrated_app, !saved_app, Hrd, Hmd, Hrr, Hmr,
        (saved_removal _ _ Hrem), (saved_deletions _ _ Hdel), !app_nil_r.
      split_and!; done. }
  destruct Htr as (tr & Hcalls & Hrej & Hmig & Hsav & Hheap & Hres).
  assert (Hrejtr : rejected tr = [(failed_url, JsError msg)]) by congruence.
  destruct (try_reaches_insert _ _ _ _ _ Htry Hcalls) as
    (questionId & imageUrls & outcomes & entries & question' & outcome
       & Hcollect & Hall & Hnon & Hfiled & Hrw & -> & Hout); [by rewrite Hrejtr | | done |].
  { rewrite Hrejtr. apply Forall_singleton. by exists msg. }
  rewrite <- Hmig, <- Hsav, Hheap.
  rewrite !rejected_app in Hrejtr. rewrite !saved_app, saved_uploads, !migrated_app.
  simpl in Hrejtr |- *. rewrite app_nil_r in Hrejtr |- *.
  rewrite Hrejtr in Hfiled.
  apply Forall2_cons_inv_l in Hfiled as ([url0 error0] & entries' & [Hurl Herr] & Hnil & ->).
  apply Forall2_nil_inv_l in Hnil as ->.
  simpl in Hurl, Herr. injection Herr as <-. subst url0.
  pose proof (collectImageUrls_NoDup _ _ _ Hcollect) as Hnodup.
  assert (Hkeysnd : NoDup (migrated (uploads outcomes)).*1).
  { apply (sublist_NoDup _ (outcomes.*1)); [| apply migrated_uploads_sublist]. by rewrite Hall. }
  destruct (RewriterFacts.replaceImageUrls_spec _ (map_ok_nonempty _ Hnon) _ _
              Hclosed Hok Hdistinct) as (q2 & h2 & Hrw2 & _ & _ & Hpushed).
  rewrite Hrw in Hrw2. injection Hrw2 as <- <-.
  eexists question', _, outcome. split; [reflexivity |].
  split_and!.
  - done.
  - unfold mapped_or_same, map_get_v.
    rewrite (map_get_none _ failed_url); [done |].
    apply (rejected_not_migrated outcomes _ (JsError msg)); [by rewrite Hall |].
    rewrite Hrejtr. by left.
  - intros v s3Url Hin. unfold mapped_or_same, map_get_v.
    rewrite (map_get_elem _ _ _ Hkeysnd Hin). simpl.
    rewrite Forall_forall in Hnon. specialize (Hnon _ Hin). simpl in Hnon.
    by rewrite bool_decide_eq_false_2.
  - intros v Hloc Hnb.
    assert (Hv : v ∈ outcomes.*1).
    { rewrite (ExtractorFacts.collectImageUrls_ok _ _ Hok) in Hcollect.
      injection Hcollect as <-. rewrite Hall.
      rewrite ExtractorFacts.elem_of_set_of, list_elem_of_filter,
        ExtractorFacts.kept_non_blank.
      split; [done |]. by apply ExtractorFacts.kept_pushed_iff_location. }
    destruct (outcome_sorted _ _ Hv) as [[e He] | [s Hs]]; [left | right; by exists s].
    rewrite Hrejtr in He. apply list_elem_of_singleton in He. by injection He.
  - destruct outcome as [documentId | e]; subst res0; [| done].
    subst result. simpl. done.
Qed.

End Facts.

Section Duplicates.
Import Platform.
Context {X D : Type} (lib : Sdk X D) (OS : ObjectStore (Process X)).


End Duplicates.
End OrchestratorFacts.

(** ** The scripted world *)

Module LabFacts.
Import Js Json Gateway Platform UploadService Audit Scenarios.

(** Every URL an upload returns is an [https] URL on the bucket's host. *)
Lemma S3Lazy_upload_https {X D} (lib : Sdk X D) (h : Heap) (imageUrl : value)
    (p p' : Process X) (s3Url : string) :
  S3Lazy.uploadImageToS3 lib h imageUrl p = (Normal s3Url, p') →
  ∃ rest, s3Url = "https://" +:+ rest.
Proof.
  unfold S3Lazy.uploadImageToS3.
  destruct (negb (truthy imageUrl)); [done |].
  unfold try_catch, bind, throw, ret, reads.
  repeat match goal with
         | |- context [match ?c with _ => _ end] =>
             lazymatch c with
             | context [match _ with _ => _ end] => fail
             | _ => destruct c as [[?|?] ?] eqn:?
             end
         end; intros; simplify_eq; eauto.
Qed.

Lemma lab_names_its_objects : names_its_objects (S3Lazy.gateway Lab.lab).
Proof.
  intros h imageUrl w s3Url w' Hup. simpl in Hup.
  apply S3Lazy_upload_https in Hup as [rest ->].
  split; [done |].
  exists (substring_from 1 (Lab.from_slash rest)). reflexivity.
Qed.

End LabFacts.

(** ** Runs in the scripted world *)

Module Runs.
Import Js Json Gateway Platform UploadService Schema Frame Slots Audit Scenarios.

Lemma rollback_completeness_witness :
  nullish refused.1 = false
  ∧ uploadQuestionToDB_try lab_s3 lab_mongo refused.1 (start refused.2)
    = (Throw (JsError "E11000 duplicate key error"), refused_run)
  ∧ ∃ m',
      uploadQuestionToDB lab_s3 lab_mongo refused.1 refused.2
      = (Normal {| success := false;
                   message := "Upload failed: E11000 duplicate key error. All changes have been rolled back.";
                   s3Urls := None; resultMongoId := None; failedImages := None |}, m')
      ∧ mongoId refused_run = None.
Proof.
  assert (Hq : nullish refused.1 = false) by reflexivity.
  assert (Htry : uploadQuestionToDB_try lab_s3 lab_mongo refused.1 (start refused.2)
                 = (Throw (JsError "E11000 duplicate key error"), refused_run)).
  { vm_compute. reflexivity. }
  split; [exact Hq |]. split; [exact Htry |].
  destruct (OrchestratorFacts.rollback_completeness lab_s3 lab_mongo
              LabFacts.lab_names_its_objects _ _ _ _ Hq Htry)
    as (m' & tr & deletions & Hrun & _ & _ & _ & _ & _ & _ & Hid & _).
  exists m'. split; [exact Hrun | exact Hid].
Defined.


Lemma batch_runs_every_question_witness :
  iterate (heap three_questions.2) three_questions.1
  = Normal (items (heap three_questions.2) three_questions.1)
  ∧ Forall (fun q => nullish q = false) (items (heap three_questions.2) three_questions.1)
  ∧ ∃ rs m',
      uploadMultipleQuestions lab_s3 lab_mongo three_questions.1 three_questions.2
      = (Normal {| successful := length (filter (fun r => success r = true) rs);
                   failed := length (filter (fun r => success r = false) rs);
                   results := rs |}, m')
      ∧ length rs = 3%nat.
Proof.
  assert (Hiter : iterate (heap three_questions.2) three_questions.1
                  = Normal (items (heap three_questions.2) three_questions.1))
    by reflexivity.
  assert (Hall : Forall (fun q => nullish q = false)
                   (items (heap three_questions.2) three_questions.1)).
  { vm_compute. repeat constructor. }
  split; [exact Hiter |]. split; [exact Hall |].
  destruct (OrchestratorFacts.batch_runs_every_question lab_s3 lab_mongo _ _ _ Hiter Hall)
    as (rs & m' & Hrun & _ & Hlen & _).
  exists rs, m'. split; [exact Hrun | exact Hlen].
Defined.

Lemma bookkeeping_in_sync_witness :
  uploadQuestionToDB_try lab_s3 lab_mongo partial.1 (start partial.2)
  = (Normal partial_result, partial_run)
  ∧ success partial_result = true
  ∧ ∃ imageUrls (entries : list FailedImage),
      collectImageUrls (heap partial.2) partial.1 = Normal imageUrls
      ∧ (length (map_values (s3UrlMap partial_run)) + length entries
         = length imageUrls)%nat.
Proof.
  assert (Htry : uploadQuestionToDB_try lab_s3 lab_mongo partial.1 (start partial.2)
                 = (Normal partial_result, partial_run)).
  { vm_compute. reflexivity. }
  split; [exact Htry |]. split; [reflexivity |].
  destruct (OrchestratorFacts.bookkeeping_in_sync lab_s3 lab_mongo
              LabFacts.lab_names_its_objects _ _ _ _ Htry eq_refl)
    as (imageUrls & outcomes & entries & Hcollect & _ & _ & _ & _ & _ & _ & _ & _ & Hlen).
  exists imageUrls, entries. split; [exact Hcollect | exact Hlen].
Defined.

Lemma partial_failure_tolerated_witness :
  closed (heap partial.2)
  ∧ question_ok (heap partial.2) partial.1
  ∧ NoDup (image_blocks (heap partial.2) partial.1)
  ∧ uploadQuestionToDB lab_s3 lab_mongo partial.1 partial.2
    = (Normal partial_result, machine partial_run)
  ∧ calls (machine partial_run) = calls partial.2 ++ partial_log
  ∧ rejected partial_log
    = [(VStr "http://x/b.png", JsError "request to http://x/b.png failed")]
  ∧ saved partial_log = [(VRef 3, VUndef, Normal "oid0")]
  ∧ failedImages partial_result
    = Some [{| url := VStr "http://x/b.png";
               error := VStr "request to http://x/b.png failed" |}]
  ∧ pushed_of_question (heap (machine partial_run)) (VRef 3)
    = mapped_or_same (migrated partial_log) <$> pushed_of_question (heap partial.2) partial.1
  ∧ mapped_or_same (migrated partial_log) (VStr "http://x/b.png") = VStr "http://x/b.png".
Proof.
  assert (Hclosed : closed (heap partial.2)) by (vm_compute; repeat constructor).
  assert (Hok : question_ok (heap partial.2) partial.1).
  { vm_compute heap. vm_compute partial.
    unfold question_ok, images_ok, options_ok. ExtractorFacts.shape_here. }
  assert (Hdistinct : NoDup (image_blocks (heap partial.2) partial.1))
    by (vm_compute; apply NoDup_singleton).
  assert (Hrun : uploadQuestionToDB lab_s3 lab_mongo partial.1 partial.2
                 = (Normal partial_result, machine partial_run))
    by (vm_compute; reflexivity).
  assert (Hlog : calls (machine partial_run) = calls partial.2 ++ partial_log)
    by (vm_compute; reflexivity).
  assert (Hrejected : rejected partial_log
            = [(VStr "http://x/b.png", JsError "request to http://x/b.png failed")])
    by reflexivity.
  assert (Hsaved : saved partial_log = [(VRef 3, VUndef, Normal "oid0")]) by reflexivity.
  destruct (OrchestratorFacts.partial_failure_tolerated lab_s3 lab_mongo
              LabFacts.lab_names_its_objects _ _ _ _ _ _ _
              Hclosed Hok Hdistinct Hrun Hlog Hrejected)
    as (question' & s3ImageUrl & outcome & Hreached & Hpushed & Hkept & _ & _ & Hresult).
  rewrite Hsaved in Hreached. injection Hreached as <- <- <-.
  destruct Hresult as (_ & Hfailed & _).
  split_and!; assumption.
Defined.

(** C6 does not hold of the code. [uploadQuestionToDB] hands the rewritten
    question to [saveQuestionToMongoDB], which reads [originalImageUrl] from
    it. For the legacy question of the README, whose image is
    [http://x/a.png], the stored document carries the object-store URL in
    [originalImageUrl], as it does in [imageUrl] and [s3ImageUrl]; the
    caller's URL is stored nowhere. *)
Theorem originalImageUrl_holds_the_migrated_url :
  let '(question, m) := Lab.request legacy_question Lab.quiet in
  let '(result, m') := uploadQuestionToDB lab_s3 lab_mongo question m in
  field (heap m) question "imageUrl" = VStr "http://x/a.png"
  ∧ (∃ r, result = Normal r ∧ success r = true)
  ∧ ∃ document,
      Lab.documents (outside (world m')) = [("oid0", document)]
      ∧ lookup_prop "originalImageUrl" document
        = Some (VStr "https://paperplane-diagrams.s3.ap-southeast-2.amazonaws.com/questions/digest1853.png")
      ∧ lookup_prop "s3ImageUrl" document
        = Some (VStr "https://paperplane-diagrams.s3.ap-southeast-2.amazonaws.com/questions/digest1853.png")
      ∧ lookup_prop "imageUrl" document
        = Some (VStr "https://paperplane-diagrams.s3.ap-southeast-2.amazonaws.com/questions/digest1853.png")
      ∧ lookup_prop "uploadedAt" document = Some (VDate 1001).
Proof.
  vm_compute. split; [reflexivity |]. split; [eexists; split; reflexivity |].
  eexists. split; [reflexivity |]. repeat split.
Qed.

(** C7 does not hold of the code. [uploadMultipleQuestions] is given the
    array [[q1, null, q2]], which [POST /upload-batch] lets through (it
    checks [Array.isArray] and the length). The first question is uploaded
    and stored; at the second element [uploadQuestionToDB] throws, on the
    line that reads [question.id] before its [try], and the [for] loop has
    no [catch]: the batch throws, the third question is never run and no
    [{successful, failed, results}] is returned. The earlier revision, which
    first reads [question.id] inside the [try], returns three results on the
    same input. *)
Theorem batch_aborts_at_a_null_element :
  let '(questions, m) := null_among_questions in
  let '(res, m') := uploadMultipleQuestions lab_s3 lab_mongo questions m in
  items (heap m) questions = [VRef 1; VNull; VRef 4]
  ∧ res = Throw (JsError "Cannot read properties of null (reading 'id')")
  ∧ calls m'
    = [CallQuestionExists (VNum 1) (Normal false);
       CallUploadImageToS3 (VStr "http://x/a.png")
         (Normal "https://paperplane-diagrams.s3.ap-southeast-2.amazonaws.com/questions/digest1853.png");
       CallSaveQuestionToMongoDB (VRef 6)
         (VStr "https://paperplane-diagrams.s3.ap-southeast-2.amazonaws.com/questions/digest1853.png")
         (Normal "oid0")]
  ∧ fst <$> Lab.documents (outside (world m')) = ["oid0"]
  ∧ ∃ report m'',
      UploadServiceOld.uploadMultipleQuestions lab_s3 lab_mongo questions m
      = (Normal report, m'')
      ∧ success <$> results report = [true; false; true]
      ∧ (successful report, failed report) = (2, 1)%nat
      ∧ fst <$> Lab.documents (outside (world m'')) = ["oid0"; "oid1"].
Proof.
  vm_compute. split_and!; try reflexivity.
  eexists _, _. split; [reflexivity |]. split_and!; reflexivity.
Qed.

(** C8 does not hold of the code. A question whose [id] is the string
    ["test-question-123"] is uploaded and stored under that id;
    [questionExists] finds it by the id as given. [getQuestionById], given
    the same id, asks the store for [{id: parseInt(id)}], here [NaN], and
    answers [null]. The same happens with the id ["42"]: the document holds
    the string, the query asks for the number [42]. *)
Theorem getQuestionById_misses_string_ids :
  (let '(question, m) := Lab.request named_question Lab.quiet in
   let '(result, m') := uploadQuestionToDB lab_s3 lab_mongo question m in
   let found := MongoDB.getQuestionById Lab.lab (heap m') (VStr "test-question-123") (world m') in
   (∃ r, result = Normal r ∧ success r = true)
   ∧ (∃ document,
        Lab.documents (outside (world m')) = [("oid0", document)]
        ∧ lookup_prop "id" document = Some (VStr "test-question-123"))
   ∧ (MongoDB.questionExists Lab.lab (heap m') (VStr "test-question-123") (world m')).1
     = Normal true
   ∧ found.1 = Normal None
   ∧ last (sdk_calls found.2)
     = Some (FindOne {| dbName := Some "question_bank"; collectionName := Some "questions" |}
               VNaN))
  ∧ (let '(question, m) := Lab.request numeral_question Lab.quiet in
     let '(result, m') := uploadQuestionToDB lab_s3 lab_mongo question m in
     let found := MongoDB.getQuestionById Lab.lab (heap m') (VStr "42") (world m') in
     (∃ r, result = Normal r ∧ success r = true)
     ∧ (∃ document,
          Lab.documents (outside (world m')) = [("oid0", document)]
          ∧ lookup_prop "id" document = Some (VStr "42"))
     ∧ (MongoDB.questionExists Lab.lab (heap m') (VStr "42") (world m')).1 = Normal true
     ∧ found.1 = Normal None
     ∧ last (sdk_calls found.2)
       = Some (FindOne {| dbName := Some "question_bank"; collectionName := Some "questions" |}
                 (VNum 42))).
Proof.
  vm_compute.
  split; (split; [eexists; split; reflexivity |]);
    (split; [eexists; split; reflexivity |]); split_and!; reflexivity.
Qed.

End Runs.

(** ** The object store, call by call *)

Module S3Runs.
Import Js Platform S3Common SdkLog.

Section WithSdk.
Context {X D : Type} (lib : Sdk X D).

Lemma after_calls_refl (p : Process X) : after_calls [] p p.
Proof. split; [done | by rewrite app_nil_r]. Qed.

Lemma after_calls_trans (l1 l2 : list SdkCall) (p1 p2 p3 : Process X) :
  after_calls l1 p1 p2 → after_calls l2 p2 p3 → after_calls (l1 ++ l2) p1 p3.
Proof.
  intros [Hc1 Hl1] [Hc2 Hl2]. split; [congruence |].
  by rewrite Hl2, Hl1, app_assoc.
Qed.

Lemma same_s3_trans (p1 p2 p3 : Process X) :
  same_s3 p1 p2 → same_s3 p2 p3 → same_s3 p1 p3.
Proof. intros [? ?] [? ?]. split; congruence. Qed.

Lemma downloadImage_calls (h : Heap) (imageUrl : value) (p p' : Process X)
    (res : completion string) :
  downloadImage lib h imageUrl p = (res, p') →
  after_calls [Fetch (ToString h imageUrl)] p p' ∧ same_s3 p p' ∧ same_mongo p p'.
Proof.
  unfold downloadImage, bind, sdk, throw, lift.
  destruct (fetch lib (ToString h imageUrl) (outside p)) as [[r | e] x].
  - destruct (negb (ok r)); intros [= <- <-]; repeat split.
  - intros [= <- <-]. repeat split.
Qed.

Lemma generateImageHash_calls (h : Heap) (imageUrl : value) (p p' : Process X)
    (res : completion string) :
  generateImageHash lib h imageUrl p = (res, p') →
  after_calls [] p p' ∧ same_s3 p p' ∧ same_mongo p p'.
Proof.
  unfold generateImageHash, bind, ask, throw, ret.
  destruct (Date_now lib (outside p)) as [t x1]. simpl.
  destruct (random_suffix lib x1) as [r x2]. simpl.
  destruct imageUrl; intros [= <- <-]; repeat split; simpl; by rewrite app_nil_r.
Qed.

(** Takes a run apart along the calls into the SDK. *)
Ltac run_apart :=
  repeat match goal with
         | |- context [match ?c with _ => _ end] =>
             lazymatch c with
             | context [match _ with _ => _ end] => fail
             | _ => destruct c as [[?|?] ?] eqn:?
             end
         | |- context [if ?c then _ else _] =>
             lazymatch c with
             | context [match _ with _ => _ end] => fail
             | context [if _ then _ else _] => fail
             | _ => destruct c eqn:?
             end
         end.

Ltac bucket_present :=
  simpl;
  match goal with
  | H : negb (present ?b) = false |- present ?b = true => by apply negb_false_iff in H
  end.

(** X1. The lazy revision of [uploadImageToS3] never writes to an unnamed
    bucket. Whatever the outside answers, a run leaves the configuration and
    the MongoDB connection alone. When it returns, it has made exactly two
    SDK calls, the download and one [PutObject]; the command names a
    configured (non-empty) bucket, has [ContentType: 'image/jpeg'] whatever
    the extension and no [ACL]; the URL returned is
    [https://<bucket>.s3.<region>.amazonaws.com/<key>] for the bucket and key
    of that command. When it throws, either no [PutObject] was sent, or the
    one sent named a configured bucket. *)
Theorem S3Lazy_upload_goes_to_the_configured_bucket (h : Heap) (imageUrl : value)
    (p : Process X) :
  let '(res, p') := S3Lazy.uploadImageToS3 lib h imageUrl p in
  ∃ new,
    after_calls new p p' ∧ same_mongo p p'
    ∧ match res with
      | Normal s3Url =>
          ∃ cmd,
            new = [Fetch (ToString h imageUrl); SendPutObject cmd]
            ∧ present (put_Bucket cmd) = true
            ∧ put_ContentType cmd = "image/jpeg"
            ∧ put_ACL cmd = None
            ∧ s3Url = "https://" +:+ shown (put_Bucket cmd) +:+ ".s3."
                        +:+ shown (aws_region (config p)) +:+ ".amazonaws.com/"
                        +:+ put_Key cmd
      | Throw e =>
          puts new = []
          ∨ ∃ cmd, new = [Fetch (ToString h imageUrl); SendPutObject cmd]
                   ∧ present (put_Bucket cmd) = true
      end.
Proof.
  destruct (S3Lazy.uploadImageToS3 lib h imageUrl p) as [res p'] eqn:Hrun.
  revert Hrun. unfold S3Lazy.uploadImageToS3.
  destruct (negb (truthy imageUrl)).
  { intros [= <- <-]. exists []. split; [apply after_calls_refl |]. split; [done | by left]. }
  unfold try_catch, bind.
  destruct (downloadImage lib h imageUrl p) as [[body | e] p1] eqn:Hdown.
  2: { intros [= <- <-]. destruct (downloadImage_calls _ _ _ _ _ Hdown) as (Hc & _ & Hm).
       eexists. split; [exact Hc |]. split; [exact Hm | by left]. }
  destruct (downloadImage_calls _ _ _ _ _ Hdown) as (Hc1 & Hs1 & Hm1).
  destruct (generateImageHash lib h imageUrl p1) as [[key | e] p2] eqn:Hhash.
  2: { intros [= <- <-]. destruct (generateImageHash_calls _ _ _ _ _ Hhash) as (Hc & _ & Hm).
       eexists. split; [exact (after_calls_trans _ _ _ _ _ Hc1 Hc) |].
       split; [unfold same_mongo in *; congruence | by left]. }
  destruct (generateImageHash_calls _ _ _ _ _ Hhash) as (Hc2 & Hs2 & Hm2).
  pose proof (after_calls_trans _ _ _ _ _ Hc1 Hc2) as Hc12. simpl in Hc12.
  assert (Hm12 : same_mongo p p2) by (unfold same_mongo in *; congruence).
  clear Hdown Hhash Hc1 Hc2 Hm1 Hm2 Hs1 Hs2.
  destruct Hc12 as [Hcfg Hlog]. unfold same_mongo in Hm12.
  unfold S3Lazy.getBucketName, S3Lazy.getS3Client, bind, reads, modify, throw, ret, sdk.
  simpl.
  run_apart; intros; simplify_eq; simpl in *;
    (eexists; split; [split; simpl; [eassumption | rewrite ?Hlog, <- ?app_assoc; reflexivity] |];
     split; [exact Hm12 |]);
    first [ left; reflexivity
          | right; eexists; split; [reflexivity | bucket_present]
          | eexists; split_and!;
            [reflexivity | bucket_present | reflexivity | reflexivity
            | simpl; by rewrite ?Hcfg] ].
Qed.

(** X2. The eager revision of [uploadImageToS3] does not check the bucket
    name. When [S3_BUCKET_NAME] is not configured and the SDK accepts the
    command, the function returns normally: it has sent a [PutObject] whose
    [Bucket] is [undefined], with [ACL: 'public-read'], and the URL it returns
    starts with [https://undefined.s3.]. *)
Theorem S3Eager_upload_without_bucket (h : Heap) (imageUrl : value)
    (p p' : Process X) (s3Url : string) :
  BUCKET_NAME p = None →
  S3Eager.uploadImageToS3 lib h imageUrl p = (Normal s3Url, p') →
  ∃ cmd rest,
    sdk_calls p' = sdk_calls p ++ [Fetch (ToString h imageUrl); SendPutObject cmd]
    ∧ put_Bucket cmd = None
    ∧ put_ACL cmd = Some "public-read"
    ∧ s3Url = "https://undefined.s3." +:+ rest.
Proof.
  intros Hnone. unfold S3Eager.uploadImageToS3.
  destruct (negb (truthy imageUrl)); [done |].
  unfold bind.
  destruct (downloadImage lib h imageUrl p) as [[body | e] p1] eqn:Hdown; [| done].
  destruct (downloadImage_calls _ _ _ _ _ Hdown) as ([Hcfg1 Hlog1] & [Hb1 _] & _).
  destruct (generateImageHash lib h imageUrl p1) as [[key | e] p2] eqn:Hhash; [| done].
  destruct (generateImageHash_calls _ _ _ _ _ Hhash) as ([Hcfg2 Hlog2] & [Hb2 _] & _).
  unfold reads, sdk, ret. simpl.
  destruct (send_PutObject lib _ (outside p2)) as [[[] | e] x]; [| done].
  intros [= <- <-]. simpl.
  rewrite Hb2, Hb1, Hnone.
  eexists _, (shown (aws_region (config p2)) +:+ ".amazonaws.com/" +:+ key).
  split; [by rewrite Hlog2, Hlog1, app_nil_r, <- app_assoc |].
  split_and!; reflexivity.
Qed.

(** X3. A response that is not [ok] ends the upload, in both revisions: for
    a truthy URL whose download is answered with such a response,
    [uploadImageToS3] throws
    [Error('Failed to download image from <url>: <statusText>')]; the download
    is the only SDK call made, so nothing is written to the bucket, and the
    module-level variables are as before. *)
Theorem upload_stops_at_a_failed_download (h : Heap) (imageUrl : value) (p : Process X)
    (response : Response) (x : X) :
  truthy imageUrl = true →
  fetch lib (ToString h imageUrl) (outside p) = (Normal response, x) →
  ok response = false →
  let failure :=
    (Throw (JsError ("Failed to download image from " +:+ ToString h imageUrl +:+ ": "
                       +:+ statusText response)),
     mkProcess (config p) (BUCKET_NAME p) (s3Client p) (db p) x
       (sdk_calls p ++ [Fetch (ToString h imageUrl)])) in
  S3Eager.uploadImageToS3 lib h imageUrl p = failure
  ∧ S3Lazy.uploadImageToS3 lib h imageUrl p = failure.
Proof.
  intros Htruthy Hfetch Hok failure.
  unfold S3Eager.uploadImageToS3, S3Lazy.uploadImageToS3, downloadImage, try_catch, bind,
    sdk, throw.
  rewrite Htruthy. cbn beta iota delta [negb]. rewrite Hfetch. cbn beta iota.
  rewrite Hok. split; reflexivity.
Qed.

(** X4. The lazy revision of [deleteImageFromS3] makes at most one SDK call,
    a [DeleteObject] for the key it was given in a configured (non-empty)
    bucket; it never connects to MongoDB or changes the configuration. For an
    empty key it returns at once: no call, no change of state. *)
Theorem S3Lazy_delete_goes_to_the_configured_bucket (h : Heap) (s3Key : string)
    (p : Process X) :
  let '(res, p') := S3Lazy.deleteImageFromS3 lib h s3Key p in
  ∃ new,
    after_calls new p p' ∧ same_mongo p p'
    ∧ (new = []
       ∨ ∃ cmd, new = [SendDeleteObject cmd]
                ∧ del_Key cmd = s3Key ∧ s3Key ≠ ""
                ∧ present (del_Bucket cmd) = true)
    ∧ (s3Key = "" → new = [] ∧ res = Normal tt ∧ p' = p).
Proof.
  destruct (S3Lazy.deleteImageFromS3 lib h s3Key p) as [res p'] eqn:Hrun.
  revert Hrun. unfold S3Lazy.deleteImageFromS3.
  destruct (negb (truthy (VStr s3Key))) eqn:Hkey.
  { intros [= <- <-]. exists []. split; [apply after_calls_refl |]. split; [done |].
    split; [by left | done]. }
  assert (Hne : s3Key ≠ "").
  { intros ->. done. }
  unfold S3Lazy.getBucketName, S3Lazy.getS3Client, bind, reads, modify, throw, ret, sdk.
  simpl.
  run_apart; intros; simplify_eq; simpl in *;
    (eexists; split;
       [split; simpl; [reflexivity | first [reflexivity | symmetry; apply app_nil_r]] |];
     split; [reflexivity |]; split; [| done]);
    first [ left; reflexivity
          | right; eexists; split; [reflexivity |]; split_and!;
            [reflexivity | done | bucket_present] ].
Qed.

End WithSdk.
End S3Runs.

(** ** Pieces of text *)

Module SplitFacts.
Import Js Text.

Lemma append_cons (x : ascii) (a b : string) : String x a +:+ b = String x (a +:+ b).
Proof. reflexivity. Qed.

Lemma append_assoc (a b c : string) : (a +:+ b) +:+ c = a +:+ (b +:+ c).
Proof. induction a as [| x a IH]; [done |]. by rewrite !append_cons, IH. Qed.

Lemma append_nil_r (a : string) : a +:+ "" = a.
Proof. induction a as [| x a IH]; [done |]. by rewrite append_cons, IH. Qed.

Lemma rev_app_append (a b : string) : String.rev_app a b = String.rev a +:+ b.
Proof.
  revert b. induction a as [| x a IH]; intros b; [done |].
  unfold String.rev. simpl. rewrite (IH (String x b)), (IH (String x "")).
  by rewrite append_assoc.
Qed.

Lemma rev_cons (x : ascii) (a : string) : String.rev (String x a) = String.rev a +:+ String x "".
Proof. unfold String.rev at 1. simpl. apply rev_app_append. Qed.

Lemma occurs_cons (c x : ascii) (s : string) :
  occurs c (String x s) ↔ c = x ∨ occurs c s.
Proof. unfold occurs. simpl. apply elem_of_cons. Qed.

Lemma occurs_append (c : ascii) (a b : string) :
  occurs c (a +:+ b) ↔ occurs c a ∨ occurs c b.
Proof.
  induction a as [| x a IH].
  - change ("" +:+ b) with b. unfold occurs at 2. simpl. rewrite elem_of_nil. tauto.
  - rewrite append_cons, !occurs_cons, IH. tauto.
Qed.

Lemma occurs_empty (c : ascii) : ¬ occurs c "".
Proof. unfold occurs. simpl. apply not_elem_of_nil. Qed.

(** The first piece is what precedes the first separator. *)
Lemma split_go_head (sep : ascii) (cur s : string) :
  ∃ part,
    head (split_go sep cur s) = Some (String.rev cur +:+ part)
    ∧ ¬ occurs sep part
    ∧ (s = part ∨ ∃ rest, s = part +:+ String sep rest).
Proof.
  revert cur. induction s as [| c s IH]; intros cur; simpl.
  - exists "". rewrite append_nil_r. split_and!; [done | apply occurs_empty | by left].
  - destruct (decide (c = sep)) as [-> | Hne]; simpl.
    + exists "". rewrite append_nil_r.
      split_and!; [done | apply occurs_empty | right; by exists s].
    + destruct (IH (String c cur)) as (part & Hhead & Hno & Hs).
      exists (String c part). split_and!.
      * rewrite Hhead, rev_cons. by rewrite append_assoc.
      * rewrite occurs_cons. intros [? | ?]; [congruence | done].
      * destruct Hs as [-> | [rest ->]]; [by left | right; by exists rest].
Qed.

(** The last piece is what follows the last separator; there is more than
    one piece exactly when the separator occurs. *)
Lemma split_go_last (sep : ascii) (cur s : string) :
  (¬ occurs sep s ∧ split_go sep cur s = [String.rev cur +:+ s])
  ∨ (∃ stem ext,
       s = stem +:+ String sep ext
       ∧ ¬ occurs sep ext
       ∧ last (split_go sep cur s) = Some ext
       ∧ (1 < length (split_go sep cur s))%nat).
Proof.
  revert cur. induction s as [| c s IH]; intros cur; simpl.
  - left. rewrite append_nil_r. split; [apply occurs_empty | done].
  - destruct (decide (c = sep)) as [-> | Hne].
    + right. destruct (IH "") as [[Hno Heq] | (stem & ext & -> & Hno & Hlast & Hlen)].
      * exists "", s. rewrite Heq. simpl. split_and!; [done | done | done | lia].
      * exists (String sep stem), ext. split_and!; [done | done | | simpl; lia].
        rewrite last_cons, Hlast. done.
    + destruct (IH (String c cur)) as [[Hno Heq] | (stem & ext & -> & Hno & Hlast & Hlen)].
      * left. split.
        -- rewrite occurs_cons. intros [? | ?]; [congruence | done].
        -- rewrite Heq, rev_cons. by rewrite append_assoc.
      * right. exists (String c stem), ext. split_and!; done.
Qed.

End SplitFacts.

Module HashFacts.
Import Js Platform S3Common Text SplitFacts.

Section WithSdk.
Context {X D : Type} (lib : Sdk X D).

(** X5. [generateImageHash] on a string makes no SDK call and returns
    [questions/<hash>.<extension>]. The extension is read from the URL up to
    its first [?]: it is what follows the last [.] of that part (and so holds
    no [.], though it may hold a [/]), or [jpg] when that part has no [.]. *)
Theorem generateImageHash_extension (h : Heap) (s : string) (p : Process X) :
  let '(res, p') := generateImageHash lib h (VStr s) p in
  config p' = config p ∧ sdk_calls p' = sdk_calls p
  ∧ ∃ hash path ext,
      res = Normal ("questions/" +:+ hash +:+ "." +:+ ext)
      ∧ ¬ occurs "?" path
      ∧ (s = path ∨ ∃ query, s = path +:+ String "?" query)
      ∧ ((¬ occurs "." path ∧ ext = "jpg")
         ∨ (∃ stem, path = stem +:+ String "." ext ∧ ¬ occurs "." ext)).
Proof.
  unfold generateImageHash, bind, ask, ret.
  destruct (Date_now lib (outside p)) as [t x1]. simpl.
  destruct (random_suffix lib x1) as [r x2]. simpl.
  split; [done |]. split; [done |].
  destruct (split_go_head "?" "" s) as (path & Hhead & Hno & Hs).
  change (String.rev "" +:+ path) with path in Hhead.
  unfold split. rewrite Hhead. simpl.
  eexists _, path, _. split; [reflexivity |]. split; [done |]. split; [done |].
  destruct (split_go_last "." "" path) as [[Hnodot Heq] | (stem & ext & Hpath & Hnodot & Hlast & Hlen)].
  - left. split; [done |]. rewrite Heq. simpl. reflexivity.
  - right. exists stem. rewrite Hlast. simpl.
    rewrite bool_decide_eq_true_2 by done. by split.
Qed.

End WithSdk.
End HashFacts.

(** ** Numerals *)

Module ParseFacts.
Import Js MongoDB Text.

Lemma digit_value_pretty (d : N) :
  (d < 10)%N → digit_value 10 (pretty_N_char d) = Some (Z.of_N d).
Proof.
  intros Hd.
  assert (d = 0 ∨ d = 1 ∨ d = 2 ∨ d = 3 ∨ d = 4 ∨ d = 5 ∨ d = 6 ∨ d = 7 ∨ d = 8 ∨ d = 9)%N
    as Hcases by lia.
  repeat destruct Hcases as [-> | Hcases]; try subst d; reflexivity.
Qed.

Lemma pretty_N_char_plain (d : N) :
  (d < 10)%N →
  is_whitespace (pretty_N_char d) = false
  ∧ pretty_N_char d ≠ "-"%char ∧ pretty_N_char d ≠ "+"%char
  ∧ (d ≠ 0%N → pretty_N_char d ≠ "0"%char).
Proof.
  intros Hd.
  assert (d = 0 ∨ d = 1 ∨ d = 2 ∨ d = 3 ∨ d = 4 ∨ d = 5 ∨ d = 6 ∨ d = 7 ∨ d = 8 ∨ d = 9)%N
    as Hcases by lia.
  repeat destruct Hcases as [-> | Hcases]; try subst d; split_and!; done.
Qed.

(** Reading the digits of [x] back gives [x]. *)
Lemma parse_digits_pretty_N_go (x : N) (s : string) (acc : option Z) :
  (0 < x)%N → default 0 acc = 0 →
  parse_digits 10 acc (pretty_N_go x s) = parse_digits 10 (Some (Z.of_N x)) s.
Proof.
  revert s acc. induction (N.lt_wf_0 x) as [x _ IH]; intros s acc Hx Hacc.
  rewrite pretty_N_go_step by done.
  assert (Hmod : (x `mod` 10 < 10)%N) by (apply N.mod_lt; lia).
  destruct (decide (x `div` 10 = 0)%N) as [Hz | Hnz].
  - rewrite Hz, pretty_N_go_0. simpl. rewrite (digit_value_pretty _ Hmod), Hacc.
    f_equal. f_equal.
    pose proof (N.div_mod x 10 ltac:(lia)). lia.
  - assert (Hlt : (x `div` 10 < x)%N) by (apply N.div_lt; lia).
    assert (Hpos : (0 < x `div` 10)%N) by (by apply N.neq_0_lt_0).
    rewrite (IH _ Hlt _ acc Hpos Hacc).
    simpl. rewrite (digit_value_pretty _ Hmod). simpl. f_equal. f_equal.
    pose proof (N.div_mod x 10 ltac:(lia)). lia.
Qed.

(** The rendering of a positive number starts with a digit other than [0]. *)
Lemma pretty_N_go_head_digit (x : N) (s : string) :
  (0 < x)%N →
  ∃ d s', (0 < d < 10)%N ∧ pretty_N_go x s = String (pretty_N_char d) s'.
Proof.
  revert s. induction (N.lt_wf_0 x) as [x _ IH]; intros s Hx.
  rewrite pretty_N_go_step by done.
  destruct (decide (x `div` 10 = 0)%N) as [Hz | Hnz].
  - rewrite Hz, pretty_N_go_0. exists (x `mod` 10)%N, s. split; [| done].
    pose proof (N.div_mod x 10 ltac:(lia)).
    pose proof (N.mod_lt x 10 ltac:(lia)). lia.
  - apply IH; [apply N.div_lt; lia | by apply N.neq_0_lt_0].
Qed.

Lemma pretty_N_go_append (x : N) (s rest : string) :
  pretty_N_go x s +:+ rest = pretty_N_go x (s +:+ rest).
Proof.
  revert s. induction (N.lt_wf_0 x) as [x _ IH]; intros s.
  destruct (decide (x = 0)%N) as [-> | Hx]; [by rewrite !pretty_N_go_0 |].
  rewrite (pretty_N_go_step x s), (pretty_N_go_step x (s +:+ rest)) by lia.
  rewrite IH; [reflexivity | apply N.div_lt; lia].
Qed.

Lemma parse_digits_stops (n m : Z) (rest : string) :
  stops n rest → parse_digits 10 (Some m) rest = Some m.
Proof. destruct rest as [| c rest]; [done |]. intros [Hc _]. simpl. by rewrite Hc. Qed.

(** The digits of a positive number, followed by [rest]: no white space or
    sign in front, no hexadecimal prefix, and the digits read back. *)
Lemma digits_read_back (x : positive) (rest : string) :
  stops (Z.pos x) rest →
  let body := pretty_N_go (N.pos x) rest in
  trimStart body = body
  ∧ (match body with
     | String "-" s' => (-1, s')
     | String "+" s' => (1, s')
     | _ => (1, body)
     end) = (1, body)
  ∧ (match body with
     | String "0" (String "x" s') | String "0" (String "X" s') => (16, s')
     | _ => (10, body)
     end) = (10, body)
  ∧ parse_digits 10 None body = Some (Z.pos x).
Proof.
  intros Hstops body. unfold body.
  destruct (pretty_N_go_head_digit (N.pos x) rest ltac:(lia)) as (d & s' & [Hd0 Hd] & Heq).
  destruct (pretty_N_char_plain d Hd) as (Hws & Hminus & Hplus & Hzero).
  specialize (Hzero ltac:(lia)).
  split_and!.
  - rewrite Heq. simpl. by rewrite Hws.
  - rewrite Heq. destruct (pretty_N_char d) as [[] [] [] [] [] [] [] []]; done.
  - rewrite Heq. destruct (pretty_N_char d) as [[] [] [] [] [] [] [] []]; done.
  - rewrite parse_digits_pretty_N_go by (done || lia).
    by rewrite (parse_digits_stops _ _ _ Hstops).
Qed.

(** The decimal text of [n], followed by text that does not carry the
    numeral on, is read as the double nearest to [n]. *)
Lemma parseInt_reads_back (n : Z) (rest : string) :
  stops n rest → parseInt (pretty n +:+ rest) = number n.
Proof.
  intros Hstops. destruct n as [| x | x].
  - change (pretty 0 +:+ rest) with (String "0" rest).
    unfold parseInt. simpl.
    destruct rest as [| c rest]; [done |].
    destruct Hstops as [Hc [Hx HX]]; [done |].
    assert (Hdec :
      (match String c rest with
       | String "x" s' | String "X" s' => (16, s')
       | _ => (10, String "0" (String c rest))
       end) = (10, String "0" (String c rest))).
    { destruct c as [[] [] [] [] [] [] [] []]; done. }
    rewrite Hdec. simpl. by rewrite Hc.
  - change (pretty (Z.pos x)) with (pretty_N_go (N.pos x) "").
    rewrite pretty_N_go_append. change ("" +:+ rest) with rest.
    destruct (digits_read_back x rest Hstops) as (Htrim & Hsign & Hdec & Hparse).
    unfold parseInt. by rewrite Htrim, Hsign, Hdec, Hparse.
  - change (pretty (Z.neg x) +:+ rest) with (String "-" (pretty_N_go (N.pos x) "" +:+ rest)).
    rewrite pretty_N_go_append. change ("" +:+ rest) with rest.
    destruct (digits_read_back x rest) as (Htrim & Hsign & Hdec & Hparse).
    { destruct rest as [| c rest]; [done |]. destruct Hstops as [Hc _]. by split. }
    unfold parseInt. simpl. by rewrite Hdec, Hparse.
Qed.

(** Up to [2^53] in size an integer is a double. *)
Lemma number_exact (n : Z) : Z.abs n ≤ 2 ^ 53 → number n = VNum n.
Proof.
  intros Hn. destruct (decide (Z.abs n = 2 ^ 53)) as [Heq | Hne].
  - assert (n = 2 ^ 53 ∨ n = - 2 ^ 53) as [-> | ->] by lia; vm_compute; reflexivity.
  - unfold number, round_to_double.
    assert (Hlt : Z.abs n < 2 ^ 53) by lia.
    rewrite (proj2 (Z.ltb_lt _ _) Hlt).
    assert (Hbig : 2 ^ 53 < 2 ^ 1024) by (apply Z.pow_lt_mono_r; lia).
    rewrite (proj2 (Z.leb_gt _ _)) by lia.
    f_equal. lia.
Qed.

Lemma number_text_exact (n : Z) : Z.abs n ≤ 2 ^ 53 → number_text n = pretty n.
Proof. intros Hn. unfold number_text. by rewrite (proj2 (Z.leb_le _ _) Hn). Qed.

End ParseFacts.

(** ** The document store, call by call *)

Module MongoRuns.
Import Js Platform MongoDB SdkLog.

Section WithSdk.
Context {X D : Type} (lib : Sdk X D).

(** X6. [connectToMongo] connects at most once. When it returns, the
    database is kept in [db], and calling it again returns the same database
    without any call or change of state; if the process was not connected
    the run made exactly one [connect], to the configured URI, and if it was,
    the run changed nothing. When it throws, the process was not connected
    and still is not, and at most one [connect] was attempted. *)
Theorem connectToMongo_connects_once (p : Process X) :
  let '(res, p1) := connectToMongo lib p in
  match res with
  | Normal database =>
      db p1 = Some database
      ∧ connectToMongo lib p1 = (Normal database, p1)
      ∧ (db p = None →
         sdk_calls p1 = sdk_calls p ++ [MongoConnect (shown (mongodb_uri (config p)))])
      ∧ (db p ≠ None → p1 = p)
  | Throw e =>
      db p = None ∧ db p1 = None ∧ length (connects (sdk_calls p1)) ≤ S (length (connects (sdk_calls p)))
  end%nat.
Proof.
  unfold connectToMongo, bind, reads, throw, ret, modify, sdk. simpl.
  destruct (db p) as [database |] eqn:Hdb.
  - simpl. rewrite Hdb. split_and!; try done.
  - destruct (negb (present (mongodb_uri (config p)))).
    + split_and!; [done | done | lia].
    + destruct (connect lib _ (outside p)) as [[[] | e] x]; simpl.
      * split_and!; try done.
      * split_and!; [done | done |]. unfold connects. rewrite omap_app, length_app. simpl. lia.
Qed.

End WithSdk.
End MongoRuns.

Module LookupFacts.
Import Js Platform MongoDB SdkLog Text ParseFacts.

Section WithSdk.
Context {X D : Type} (lib : Sdk X D).

(** X7. [getQuestionById] looks for the leading integer of what it is
    given, as a double. For every integer [n] and every text [rest] that
    does not continue the numeral (empty, or starting with a code unit that
    is not a decimal digit, nor the [x] of a hexadecimal prefix after a lone
    [0]), asking for the string [<n><rest>] queries the store for [{id: x}]
    where [x] is the double nearest to [n] (an infinity from [2^1024] on).
    Up to [2^53] in size [x] is the number [n] itself, and asking for the
    string is the same run as asking for the number [n]. *)
Theorem getQuestionById_reads_the_leading_number (h : Heap) (n : Z) (rest : string)
    (p p1 : Process X) (coll : Collection) :
  getQuestionsCollection lib p = (Normal coll, p1) →
  stops n rest →
  getQuestionById lib h (VStr (pretty n +:+ rest)) p
  = sdk (FindOne coll (number n)) (findOne lib coll (number n)) p1
  ∧ (Z.abs n ≤ 2 ^ 53 →
     number n = VNum n
     ∧ getQuestionById lib h (VNum n) p
       = getQuestionById lib h (VStr (pretty n +:+ rest)) p).
Proof.
  intros Hcoll Hstops.
  assert (Hstr : parseInt (ToString h (VStr (pretty n +:+ rest))) = number n).
  { replace (ToString h (VStr (pretty n +:+ rest))) with (pretty n +:+ rest)
      by (unfold ToString; by destruct (length h)).
    by apply parseInt_reads_back. }
  split.
  { unfold getQuestionById, bind. by rewrite Hcoll, Hstr. }
  intros Hn. split; [by apply number_exact |].
  assert (Hnum : parseInt (ToString h (VNum n)) = number n).
  { replace (ToString h (VNum n)) with (pretty n)
      by (unfold ToString; destruct (length h); simpl; by rewrite number_text_exact).
    pose proof (parseInt_reads_back n "" I) as Hback.
    by rewrite SplitFacts.append_nil_r in Hback. }
  unfold getQuestionById, bind. by rewrite Hcoll, Hnum, Hstr.
Qed.

End WithSdk.
End LookupFacts.

Module SaveFacts.
Import Js Platform MongoDB SdkLog.

Section WithSdk.
Context {X D : Type} (lib : Sdk X D).

Lemma getQuestionsCollection_calls (p p1 : Process X) (res : completion Collection) :
  getQuestionsCollection lib p = (res, p1) →
  ∃ new, after_calls new p p1 ∧ inserts new = [].
Proof.
  unfold getQuestionsCollection, connectToMongo, bind, reads, throw, ret, modify, sdk. simpl.
  destruct (db p) as [database |].
  - intros [= <- <-]. exists []. split; [| done]. split; [done | by rewrite app_nil_r].
  - destruct (negb (present (mongodb_uri (config p)))).
    + intros [= <- <-]. exists []. split; [| done]. split; [done | by rewrite app_nil_r].
    + destruct (connect lib _ (outside p)) as [[[] | e] x]; simpl;
        intros [= <- <-]; eexists [_]; (split; [split; reflexivity | done]).
Qed.

(** X18. [saveQuestionToMongoDB] fetches the collection and throws what
    that throws; it then reads the clock, and throws for a question that is
    [null] or [undefined]. In neither case is anything inserted. Failing
    that, it makes exactly one [insertOne] and returns or throws what the
    driver does. The document it inserts has [uploadedAt] set to the time
    the clock gave, [originalImageUrl] set to the [imageUrl] of the question
    it was given, and [imageUrl] and [s3ImageUrl] both set to the second
    argument when that is truthy and to the question's [imageUrl] otherwise;
    every other property, [id] and [_id] included, is the question's own. *)
Theorem saveQuestionToMongoDB_stores_the_question (h : Heap) (question s3ImageUrl : value)
    (p : Process X) :
  let '(res, p') := saveQuestionToMongoDB lib h question s3ImageUrl p in
  match getQuestionsCollection lib p with
  | (Throw e, p1) => res = Throw e ∧ p' = p1 ∧ inserts (sdk_calls p') = inserts (sdk_calls p)
  | (Normal coll, p1) =>
      let '(now, x1) := Date_now lib (outside p1) in
      inserts (sdk_calls p1) = inserts (sdk_calls p)
      ∧ if nullish question then
          (∃ e, res = Throw e) ∧ sdk_calls p' = sdk_calls p1
        else
          ∃ document,
            sdk_calls p' = sdk_calls p1 ++ [InsertOne coll document]
            ∧ res = (insertOne lib coll h document x1).1
            ∧ lookup_prop "uploadedAt" document = Some (VDate now)
            ∧ lookup_prop "originalImageUrl" document = Some (field h question "imageUrl")
            ∧ lookup_prop "imageUrl" document
              = Some (if truthy s3ImageUrl then s3ImageUrl else field h question "imageUrl")
            ∧ lookup_prop "s3ImageUrl" document = lookup_prop "imageUrl" document
            ∧ ∀ k, k ∉ ["uploadedAt"; "originalImageUrl"; "s3ImageUrl"; "imageUrl"] →
                   lookup_prop k document = lookup_prop k (spread_props h question)
  end.
Proof.
  unfold saveQuestionToMongoDB. unfold bind at 1.
  destruct (getQuestionsCollection lib p) as [[coll | e] p1] eqn:Hcoll.
  2: { destruct (getQuestionsCollection_calls _ _ _ Hcoll) as (new & [_ Hlog] & Hins).
       split_and!; [done | done |]. unfold inserts in *. by rewrite Hlog, omap_app, Hins, app_nil_r. }
  destruct (getQuestionsCollection_calls _ _ _ Hcoll) as (new & [Hcfg Hlog] & Hins).
  unfold bind, ask, lift, sdk. simpl.
  destruct (Date_now lib (outside p1)) as [now x1]. simpl.
  assert (Hsame : inserts (sdk_calls p1) = inserts (sdk_calls p)).
  { unfold inserts in *. by rewrite Hlog, omap_app, Hins, app_nil_r. }
  destruct (nullish question) eqn:Hq.
  { destruct question; try done; simpl; eauto. }
  rewrite (ExtractorFacts.get_prop_field _ _ _ Hq). simpl.
  destruct (insertOne lib coll h _ x1) as [res x2] eqn:Hinsert. simpl.
  split; [done |].
  eexists. split; [reflexivity |]. rewrite Hinsert. split; [done |].
  unfold document_of.
  split_and!; rewrite ?HeapFacts.lookup_set_prop; simpl; try done.
  intros k Hk. rewrite !HeapFacts.lookup_set_prop.
  repeat (apply not_elem_of_cons in Hk as [? Hk]).
  by rewrite !decide_False by done.
Qed.

End WithSdk.
End SaveFacts.

(** ** The two revisions of the upload service *)

Module RevisionFacts.
Import Js Gateway UploadService Audit OrchestratorFacts.

Section Facts.
Context {W : Type} (OS : ObjectStore W) (DS : DocumentStore W).

Lemma upload_one_agrees (imageUrl : value) (failedImages : list FailedImage) (r : Run W) :
  let '(res, r1) := upload_one OS imageUrl failedImages r in
  UploadServiceOld.upload_one OS imageUrl r
  = (match res with Normal _ => Normal tt | Throw e => Throw e end, r1).
Proof.
  unfold upload_one, UploadServiceOld.upload_one, try_catch, bind, call_uploadImageToS3,
    modify, lift, inspect, ret.
  destruct (uploadImageToS3 OS _ imageUrl _) as [[s3Url | e] w]; simpl.
  - destruct (extractS3Key OS s3Url) as [key | e]; simpl; [done |].
    by destruct (error_message _ e).
  - by destruct (error_message _ e).
Qed.

Lemma upload_all_agrees (imageUrls : list value) (failedImages : list FailedImage)
    (r : Run W) :
  let '(res, r1) := upload_all OS imageUrls failedImages r in
  UploadServiceOld.upload_all OS imageUrls r
  = (match res with Normal _ => Normal tt | Throw e => Throw e end, r1).
Proof.
  revert failedImages r. induction imageUrls as [| imageUrl rest IH]; intros failedImages r.
  - reflexivity.
  - simpl.
    pose proof (upload_one_agrees imageUrl failedImages r) as Hone.
    destruct (upload_one OS imageUrl failedImages r) as [[failed' | e] r1] eqn:Hnew.
    + rewrite (bind_Normal _ _ _ _ _ Hnew), (bind_Normal _ _ _ _ _ Hone). apply IH.
    + by rewrite (bind_Throw _ _ _ _ _ Hnew), (bind_Throw _ _ _ _ _ Hone).
Qed.

Lemma tries_agree (question : value) (r : Run W) :
  let '(res, r1) := uploadQuestionToDB_try OS DS question r in
  UploadServiceOld.uploadQuestionToDB_try OS DS question r
  = (match res with
     | Normal result => Normal (UploadServiceOld.reported_before result)
     | Throw e => Throw e
     end, r1).
Proof.
  unfold uploadQuestionToDB_try, UploadServiceOld.uploadQuestionToDB_try.
  assert (Hinspect : ∀ A (f : Heap → completion A) (r0 : Run W),
            inspect f r0 = (f (heap (machine r0)), r0)) by reflexivity.
  pose proof (Hinspect _ (fun h => get_prop h question "id") r) as Hid.
  destruct (get_prop (heap (machine r)) question "id") as [questionId | e].
  2: { by rewrite !(bind_Throw _ _ _ _ _ Hid). }
  rewrite !(bind_Normal _ _ _ _ _ Hid).
  destruct (call_questionExists DS questionId r) as [[[] | e] r1] eqn:Hex.
  - by rewrite !(bind_Normal _ _ _ _ _ Hex).
  - rewrite !(bind_Normal _ _ _ _ _ Hex).
    pose proof (Hinspect _ (fun h => collectImageUrls h question) r1) as Hcollect.
    destruct (collectImageUrls (heap (machine r1)) question) as [imageUrls | e].
    2: { by rewrite !(bind_Throw _ _ _ _ _ Hcollect). }
    rewrite !(bind_Normal _ _ _ _ _ Hcollect).
    pose proof (upload_all_agrees imageUrls [] r1) as Hold.
    destruct (upload_all OS imageUrls [] r1) as [[failed | e] r2] eqn:Hnew.
    2: { by rewrite (bind_Throw _ _ _ _ _ Hnew), (bind_Throw _ _ _ _ _ Hold). }
    rewrite (bind_Normal _ _ _ _ _ Hnew), (bind_Normal _ _ _ _ _ Hold).
    rewrite !bind_reads.
    destruct (on_heap (replaceImageUrls question (s3UrlMap r2)) r2) as [[q' | e] r3] eqn:Hrw.
    2: { by rewrite !(bind_Throw _ _ _ _ _ Hrw). }
    rewrite !(bind_Normal _ _ _ _ _ Hrw).
    pose proof (Hinspect _ (fun h => get_prop h question "imageUrl") r3) as Hlegacy.
    destruct (get_prop (heap (machine r3)) question "imageUrl") as [legacy | e].
    2: { by rewrite !(bind_Throw _ _ _ _ _ Hlegacy). }
    rewrite !(bind_Normal _ _ _ _ _ Hlegacy).
    destruct (call_saveQuestionToMongoDB DS q' (map_get_v (s3UrlMap r2) legacy) r3)
      as [[id | e] r4] eqn:Hsave.
    2: { by rewrite !(bind_Throw _ _ _ _ _ Hsave). }
    rewrite !(bind_Normal _ _ _ _ _ Hsave). reflexivity.
  - by rewrite !(bind_Throw _ _ _ _ _ Hex).
Qed.

(** X8. The two revisions of [uploadQuestionToDB] do the same work. Run on
    the same question (not [null] or [undefined]) from the same state, the
    earlier revision makes the same gateway calls and leaves the same heap
    and outside world as the current one; it throws when the current one
    throws, and returns the same result otherwise, except that a success
    result carries the plain message and no [failedImages]. *)
Theorem revisions_differ_in_the_report_only (question : value) (m : Machine W) :
  nullish question = false →
  let '(res, m') := uploadQuestionToDB OS DS question m in
  UploadServiceOld.uploadQuestionToDB OS DS question m
  = (match res with
     | Normal result => Normal (UploadServiceOld.reported_before result)
     | Throw e => Throw e
     end, m').
Proof.
  intros Hq. rewrite (uploadQuestionToDB_unfold _ _ _ _ Hq).
  unfold UploadServiceOld.uploadQuestionToDB, try_catch.
  pose proof (tries_agree question (start m)) as Htry.
  destruct (uploadQuestionToDB_try OS DS question (start m)) as [[result | e] r1];
    rewrite Htry; [done |].
  destruct (catch_spec OS DS e r1) as (r' & removal & deletions & -> & _).
  reflexivity.
Qed.

(** The earlier revision returns a result whatever it is given. *)
Lemma old_uploadQuestionToDB_returns (question : value) (m : Machine W) :
  ∃ result m', UploadServiceOld.uploadQuestionToDB OS DS question m = (Normal result, m').
Proof.
  unfold UploadServiceOld.uploadQuestionToDB, try_catch.
  destruct (UploadServiceOld.uploadQuestionToDB_try OS DS question (start m))
    as [[result | e] r1]; [eauto |].
  destruct (catch_spec OS DS e r1) as (r' & removal & deletions & -> & _). eauto.
Qed.

End Facts.
End RevisionFacts.

Module ReportFacts.
Import Js Gateway UploadService Audit OrchestratorFacts RevisionFacts.

Section Facts.
Context {W : Type} (OS : ObjectStore W) (DS : DocumentStore W).

Lemma old_uploadQuestionToDB_missing (question : value) (m : Machine W) :
  nullish question = true →
  ∃ result m',
    UploadServiceOld.uploadQuestionToDB OS DS question m = (Normal result, m')
    ∧ success result = false ∧ calls m' = calls m.
Proof.
  intros Hq. unfold UploadServiceOld.uploadQuestionToDB, try_catch,
    UploadServiceOld.uploadQuestionToDB_try.
  assert (Hget : ∃ e, inspect (fun h => get_prop h question "id") (start m) = (Throw e, start m)).
  { destruct question; try done; eexists; reflexivity. }
  destruct Hget as [e Hget]. rewrite (bind_Throw _ _ _ _ _ Hget).
  destruct (catch_spec OS DS e (start m))
    as (r' & removal & deletions & -> & _ & Hcalls & Hrem & Hdel).
  eexists _, _. split; [reflexivity |]. split; [done |].
  simpl in *. subst removal. inversion Hdel; subst. by rewrite Hcalls, app_nil_r.
Qed.

Lemma old_upload_each_every (questions : list value) (acc : BatchResult) (m : Machine W) :
  ∃ new m',
    UploadServiceOld.upload_each OS DS questions acc m = (Normal (tally acc new), m')
    ∧ Forall2 (fun q r => nullish q = true → success r = false) questions new.
Proof.
  revert acc m. induction questions as [| question questions IH]; intros acc m.
  - exists [], m. split; [| done].
    unfold tally. simpl. rewrite app_nil_r, !Nat.add_0_r. by destruct acc.
  - assert (Hone : ∃ result m1,
              UploadServiceOld.uploadQuestionToDB OS DS question m = (Normal result, m1)
              ∧ (nullish question = true → success result = false)).
    { destruct (nullish question) eqn:Hq.
      - destruct (old_uploadQuestionToDB_missing question m Hq) as (r & m1 & Hr & Hs & _).
        by exists r, m1.
      - destruct (old_uploadQuestionToDB_returns OS DS question m) as (r & m1 & Hr).
        by exists r, m1. }
    destruct Hone as (result & m1 & Hone & Hmiss).
    simpl. rewrite (bind_Normal _ _ _ _ _ Hone).
    match goal with |- context [UploadServiceOld.upload_each OS DS questions ?acc' m1] =>
      destruct (IH acc' m1) as (new & m' & Hrest & Hall)
    end.
    exists (result :: new), m'. split; [| by constructor].
    rewrite Hrest. f_equal. unfold tally. simpl.
    rewrite <- app_assoc. simpl.
    destruct (success result) eqn:Hs.
    + rewrite filter_cons_True by done. rewrite filter_cons_False by (by rewrite Hs).
      simpl. by rewrite Nat.add_succ_r.
    + rewrite filter_cons_False by (by rewrite Hs). rewrite filter_cons_True by done.
      simpl. by rewrite Nat.add_succ_r.
Qed.

(** X9. The earlier revision of [uploadMultipleQuestions] never throws on
    an array: it returns [{successful, failed, results}] with one result per
    element, [null] and [undefined] elements included -- for those the result
    has [success: false], since [question.id] is first read inside the
    [try]. *)
Theorem earlier_revision_reports_every_question (questions : value) (qs : list value)
    (m : Machine W) :
  iterate (heap m) questions = Normal qs →
  ∃ rs m',
    UploadServiceOld.uploadMultipleQuestions OS DS questions m
    = (Normal {| successful := length (filter (fun r => success r = true) rs);
                 failed := length (filter (fun r => success r = false) rs);
                 results := rs |}, m')
    ∧ Forall2 (fun q r => nullish q = true → success r = false) qs rs.
Proof.
  intros Hiter.
  destruct (old_upload_each_every qs {| successful := 0; failed := 0; results := [] |} m)
    as (rs & m' & Hrun & Hall).
  exists rs, m'. split; [| done].
  unfold UploadServiceOld.uploadMultipleQuestions, bind. cbn beta.
  by rewrite (for_of_iterate _ _ _ _ Hiter), Hrun.
Qed.

Hypothesis Hnames : names_its_objects OS.

(** X10. What [uploadQuestionToDB] reports is what happened to the store.
    When it returns [success: true], exactly one [saveQuestionToMongoDB] call
    was made, it returned the id reported in [mongoId], and nothing was
    deleted. When it returns [success: false], no [saveQuestionToMongoDB]
    call returned (so no document was stored), no id is reported, and there
    is one [deleteImageFromS3] call for each upload that had returned. *)
Theorem success_is_reported_iff_stored (question : value) (m m' : Machine W)
    (result : UploadResult) :
  nullish question = false →
  uploadQuestionToDB OS DS question m = (Normal result, m') →
  ∃ log,
    calls m' = calls m ++ log
    ∧ (if success result
       then (∃ question' s3ImageUrl documentId,
               saved log = [(question', s3ImageUrl, Normal documentId)]
               ∧ resultMongoId result = Some documentId)
            ∧ deleted_keys log = [] ∧ deleted_documents log = []
       else Forall (fun x => ∃ e, x.2 = Throw e) (saved log)
            ∧ resultMongoId result = None
            ∧ length (deleted_keys log) = length (migrated log)).
Proof.
  intros Hq. rewrite (uploadQuestionToDB_unfold _ _ _ _ Hq).
  destruct (uploadQuestionToDB_try OS DS question (start m)) as [res r1] eqn:Htry.
  pose proof (try_spec OS DS Hnames _ _ _ _ Htry) as Hattempt.
  inversion Hattempt
    as [questionId w Hid Hex
       | questionId imageUrls outcomes keys entries question' documentId r1' Hid Hcollect
           Hfst Hmap Hkeys Hder Hnon Hfiled Hrw Hcalls Hmongo
       | e tr keys r1' Hcalls Hnokeys Hnodocs Hkeys Hder Hmongo Hsaved]; subst.
  - intros [= <- <-]. eexists. split; [reflexivity |]. simpl. split_and!; done.
  - intros [= <- <-]. eexists. split; [exact Hcalls |]. simpl.
    rewrite !saved_app, !deleted_keys_app, !deleted_documents_app,
      saved_uploads, deleted_keys_uploads, deleted_documents_uploads. simpl.
    split_and!; eauto.
  - destruct (catch_spec OS DS e r1) as (r' & removal & deletions & -> & _ & Hcalls' & Hrem & Hdel).
    intros [= <- <-]. rewrite Hmongo in Hrem. simpl in Hrem. subst removal.
    exists (tr ++ deletions). split; [by rewrite Hcalls', Hcalls, <- app_assoc |]. simpl.
    assert (Hdeleted : deleted_keys deletions = uploadedS3Keys r1).
    { clear -Hdel. induction Hdel as [| c k l ks [res ->] _ IH]; [done |].
      simpl. by rewrite <- IH. }
    assert (Hmig : migrated deletions = []).
    { clear -Hdel. induction Hdel as [| c k l ks [res ->] _ IH]; [done | exact IH]. }
    rewrite saved_app, (saved_deletions _ _ Hdel), app_nil_r.
    rewrite deleted_keys_app, migrated_app, Hnokeys, Hmig, app_nil_r, Hdeleted. simpl.
    split_and!; [done | done |]. symmetry. by eapply Forall2_length.
Qed.

End Facts.
End ReportFacts.

(** ** The upload endpoints *)

Module RouteFacts.
Import Js Gateway UploadService Audit ExtractorFacts OrchestratorFacts Routes.

Lemma truthy_not_nullish (v : value) : truthy v = true → nullish v = false.
Proof. by destruct v. Qed.

Lemma destructure_field (h : Heap) (v : value) (k source : string) :
  nullish v = false → destructure h v k source = Normal (field h v k).
Proof. intros Hv. destruct v; try done; by apply get_prop_field. Qed.

Lemma type_refusal_returns (h : Heap) (questionType question : value) :
  nullish question = false →
  ∃ refusal, type_refusal h questionType question = Normal refusal.
Proof.
  intros Hq. unfold type_refusal.
  repeat case_decide; rewrite ?(get_prop_field _ _ _ Hq); simpl;
    repeat (case_match; rewrite ?(get_prop_field _ _ _ Hq); simpl); eauto.
Qed.

Lemma isArray_array (h : Heap) (v : value) :
  isArray h v = true → truthy v = true ∧ iterate h v = Normal (items h v).
Proof.
  destruct v as [| | | | | | | | l]; try done. simpl.
  destruct (h !! l) as [[[vs |] ps] |]; done.
Qed.

Section Facts.
Context {W : Type} (OS : ObjectStore W) (DS : DocumentStore W).

(** X11. [POST /upload] with a body always answers, with status 200 or 400,
    never 500. The status is 200 exactly when the reply is the result of
    [uploadQuestionToDB] and that result has [success: true]; every refusal
    of the validation and every failed or duplicate upload is a 400. The
    gateways are called only for a question with a truthy [id]. *)
Theorem post_upload_answers_200_or_400 (reqBody : value) (m : Machine W) :
  nullish reqBody = false →
  ∃ reply m',
    post_upload OS DS reqBody m = (Normal reply, m')
    ∧ (status reply = 200 ∨ status reply = 400)
    ∧ (status reply = 200 ↔ ∃ result, body reply = Uploaded result ∧ success result = true)
    ∧ (calls m' ≠ calls m →
       truthy (field (heap m) (field (heap m) reqBody "question") "id") = true).
Proof.
  intros Hbody. unfold post_upload, try_catch.
  set (question := field (heap m) reqBody "question").
  assert (Hlook : ∀ A (f : Heap → completion A), look f m = (f (heap m), m)) by reflexivity.
  pose proof (Hlook _ (fun h => destructure h reqBody "question" "req.body")) as Hq.
  simpl in Hq. rewrite (destructure_field _ _ _ _ Hbody) in Hq. fold question in Hq.
  rewrite (bind_Normal _ _ _ _ _ Hq).
  destruct (truthy question) eqn:Htruthy; simpl.
  2: { eexists _, m. split; [reflexivity |]. simpl. split_and!; [by right | | done].
       split; [done | by intros (r & [=] & _)]. }
  pose proof (truthy_not_nullish _ Htruthy) as Hnn.
  pose proof (Hlook _ (fun h => get_prop h question "type")) as Htype.
  simpl in Htype. rewrite (get_prop_field _ _ _ Hnn) in Htype.
  rewrite (bind_Normal _ _ _ _ _ Htype).
  pose proof (Hlook _ (fun h => get_prop h question "id")) as Hid.
  simpl in Hid. rewrite (get_prop_field _ _ _ Hnn) in Hid.
  rewrite (bind_Normal _ _ _ _ _ Hid).
  destruct (truthy (field (heap m) question "id")) eqn:Hidt; simpl.
  2: { eexists _, m. split; [reflexivity |]. simpl. split_and!; [by right | | done].
       split; [done | by intros (r & [=] & _)]. }
  match goal with |- context [type_refusal _ ?t question] =>
    destruct (type_refusal_returns (heap m) t question Hnn) as (refusal & Href);
    pose proof (Hlook _ (fun h => type_refusal h t question)) as Hcheck
  end.
  simpl in Hcheck. rewrite Href in Hcheck.
  rewrite (bind_Normal _ _ _ _ _ Hcheck).
  destruct refusal as [message |].
  { eexists _, m. split; [reflexivity |]. simpl. split_and!; [by right | | done].
    split; [done | by intros (r & [=] & _)]. }
  destruct (uploadQuestionToDB_returns OS DS question m Hnn) as (result & m' & Hrun).
  rewrite (bind_Normal _ _ _ _ _ Hrun).
  eexists _, m'. split; [reflexivity |]. simpl.
  destruct (success result) eqn:Hs; split_and!; auto.
  - split; [eauto | done].
  - split; [done |]. intros (r & [= <-] & Hr). congruence.
Qed.

(** The loop of [uploadMultipleQuestions] ends where [question.id] cannot
    be read; what came before has run. *)
Lemma upload_each_stops (before after : list value) (question : value)
    (acc : BatchResult) (m : Machine W) :
  Forall (fun q => nullish q = false) before →
  nullish question = true →
  ∃ rs m1 msg,
    in_sequence OS DS before m rs m1
    ∧ get_prop (heap m1) question "id" = Throw (JsError msg)
    ∧ msg ≠ ""
    ∧ upload_each OS DS (before ++ question :: after) acc m = (Throw (JsError msg), m1).
Proof.
  intros Hall Hq. revert acc m.
  induction Hall as [| q before Hqq _ IH]; intros acc m.
  - exists [], m. destruct question; try done; eexists; (split; [constructor |]);
      (split; [reflexivity |]); (split; [done |]); reflexivity.
  - destruct (uploadQuestionToDB_returns OS DS q m Hqq) as (result & m1 & Hone).
    simpl. rewrite (bind_Normal _ _ _ _ _ Hone).
    match goal with |- context [upload_each OS DS _ ?acc' m1] =>
      destruct (IH acc' m1) as (rs & m2 & msg & Hseq & Hget & Hmsg & Hrest)
    end.
    exists (result :: rs), m2, msg. split_and!; [by econstructor | done | done | done].
Qed.

(** X12. [POST /upload-batch] with a non-empty array of questions (none
    [null] or [undefined]) answers 200 whatever the outcome of each upload:
    the reply carries the counts and the results of running
    [uploadQuestionToDB] on each question in turn. *)
Theorem post_upload_batch_reports_success (reqBody : value) (m : Machine W) :
  let questions := field (heap m) reqBody "questions" in
  nullish reqBody = false →
  isArray (heap m) questions = true →
  field (heap m) questions "length" ≠ VNum 0 →
  Forall (fun q => nullish q = false) (items (heap m) questions) →
  ∃ rs m',
    post_upload_batch OS DS reqBody m
    = (Normal {| status := 200;
                 body := BatchReport
                           {| successful := length (filter (fun r => success r = true) rs);
                              failed := length (filter (fun r => success r = false) rs);
                              results := rs |} |}, m')
    ∧ in_sequence OS DS (items (heap m) questions) m rs m'.
Proof.
  intros questions Hbody Harr Hlen Hall. unfold post_upload_batch, try_catch.
  assert (Hlook : ∀ A (f : Heap → completion A), look f m = (f (heap m), m)) by reflexivity.
  pose proof (Hlook _ (fun h => destructure h reqBody "questions" "req.body")) as Hq.
  simpl in Hq. rewrite (destructure_field _ _ _ _ Hbody) in Hq. fold questions in Hq.
  rewrite (bind_Normal _ _ _ _ _ Hq).
  destruct (isArray_array _ _ Harr) as [Htruthy Hiter].
  rewrite (bind_Normal _ _ _ _ _ (Hlook _ (fun h => Normal (isArray h questions)))).
  rewrite Harr, Htruthy. simpl.
  pose proof (Hlook _ (fun h => get_prop h questions "length")) as Hl.
  simpl in Hl. rewrite (get_prop_field _ _ _ (truthy_not_nullish _ Htruthy)) in Hl.
  rewrite (bind_Normal _ _ _ _ _ Hl).
  rewrite decide_False by done.
  destruct (upload_each_spec OS DS (items (heap m) questions)
              {| successful := 0; failed := 0; results := [] |} m Hall)
    as (rs & m' & Hrun & Hseq).
  exists rs, m'. split; [| done].
  assert (Hbatch : uploadMultipleQuestions OS DS questions m
                   = (Normal (tally {| successful := 0; failed := 0; results := [] |} rs), m')).
  { unfold uploadMultipleQuestions, bind. cbn beta.
    by rewrite (for_of_iterate _ _ _ _ Hiter), Hrun. }
  rewrite (bind_Normal _ _ _ _ _ Hbatch). reflexivity.
Qed.

(** X13. A [null] or [undefined] element aborts a batch. The questions
    before it are uploaded, one after the other; at the element
    [uploadMultipleQuestions] throws the [TypeError] of reading [question.id];
    the elements after it are never run, and [POST /upload-batch] answers 500
    with that error's message, so the results of the uploads already made are
    not reported. *)
Theorem post_upload_batch_stops_at_a_missing_question (reqBody : value) (m : Machine W)
    (before after : list value) (question : value) :
  let questions := field (heap m) reqBody "questions" in
  nullish reqBody = false →
  isArray (heap m) questions = true →
  field (heap m) questions "length" ≠ VNum 0 →
  items (heap m) questions = before ++ question :: after →
  Forall (fun q => nullish q = false) before →
  nullish question = true →
  ∃ rs m' msg,
    in_sequence OS DS before m rs m'
    ∧ uploadMultipleQuestions OS DS questions m = (Throw (JsError msg), m')
    ∧ get_prop (heap m') question "id" = Throw (JsError msg)
    ∧ post_upload_batch OS DS reqBody m
      = (Normal {| status := 500; body := Message false (VStr msg) |}, m').
Proof.
  intros questions Hbody Harr Hlen Hitems Hall Hnull.
  destruct (upload_each_stops before after question
              {| successful := 0; failed := 0; results := [] |} m Hall Hnull)
    as (rs & m' & msg & Hseq & Hget & Hmsg & Hrun).
  destruct (isArray_array _ _ Harr) as [Htruthy Hiter].
  assert (Hbatch : uploadMultipleQuestions OS DS questions m = (Throw (JsError msg), m')).
  { unfold uploadMultipleQuestions, bind. cbn beta.
    by rewrite (for_of_iterate _ _ _ _ Hiter), Hitems, Hrun. }
  exists rs, m', msg. split_and!; try done.
  unfold post_upload_batch, try_catch.
  assert (Hlook : ∀ A (f : Heap → completion A), look f m = (f (heap m), m)) by reflexivity.
  pose proof (Hlook _ (fun h => destructure h reqBody "questions" "req.body")) as Hq.
  simpl in Hq. rewrite (destructure_field _ _ _ _ Hbody) in Hq. fold questions in Hq.
  rewrite (bind_Normal _ _ _ _ _ Hq).
  rewrite (bind_Normal _ _ _ _ _ (Hlook _ (fun h => Normal (isArray h questions)))).
  rewrite Harr, Htruthy. simpl.
  pose proof (Hlook _ (fun h => get_prop h questions "length")) as Hl.
  simpl in Hl. rewrite (get_prop_field _ _ _ (truthy_not_nullish _ Htruthy)) in Hl.
  rewrite (bind_Normal _ _ _ _ _ Hl).
  rewrite decide_False by done.
  rewrite (bind_Throw _ _ _ _ _ Hbatch).
  unfold look, internal_error. simpl.
  destruct msg; [done | reflexivity].
Qed.

(** X14. [POST /delete-batch] never answers 200. The handler changes no
    state and calls no gateway; its reply is a 400 of the validation or a
    500, and for a body that is an object the 500 carries
    ['deleteMultipleQuestionsFromMongoDB is not a function']: the handler
    takes that name from [mongodb.js], which exports none of that name. *)
Theorem post_delete_batch_never_succeeds (reqBody : value) (m : Machine W) :
  let '(res, m') := post_delete_batch (W := W) reqBody m in
  m' = m
  ∧ ∀ reply, res = Normal reply →
      status reply = 400
      ∨ (status reply = 500
         ∧ (nullish reqBody = false →
            body reply
            = Message false (VStr "deleteMultipleQuestionsFromMongoDB is not a function"))).
Proof.
  unfold post_delete_batch, try_catch, bind, look, throw, ret, internal_error.
  destruct (destructure (heap m) reqBody "questionIds" "req.body") as [ids | e] eqn:Hd.
  - simpl. destruct (truthy ids) eqn:Htruthy; simpl.
    2: { split; [done |]. intros reply [= <-]. by left. }
    destruct (isArray (heap m) ids); simpl.
    2: { split; [done |]. intros reply [= <-]. by left. }
    rewrite (get_prop_field _ _ _ (truthy_not_nullish _ Htruthy)). simpl.
    destruct (decide (field (heap m) ids "length" = VNum 0)).
    + split; [done |]. intros reply [= <-]. by left.
    + split; [done |]. intros reply [= <-]. by right.
  - destruct (error_message (heap m) e) eqn:Hmsg; split; try done.
    intros reply [= <-]. right. split; [done |]. intros Hbody.
    by rewrite (destructure_field _ _ _ _ Hbody) in Hd.
Qed.

End Facts.
End RouteFacts.

(** ** Queries and updates *)

Module QueryFacts.
Import Js Platform MongoDB MongoQueries OrchestratorFacts.

Lemma query_entry_spec (h : Heap) (filters : value) (k : string)
    (entry : list (string * value)) :
  query_entry h filters k = Normal entry →
  entry = if truthy (field h filters k) then [(k, field h filters k)] else [].
Proof.
  unfold query_entry, field. destruct filters; simpl; try (by intros [= <-]).
  destruct (h !! l); by intros [= <-].
Qed.

Lemma ltb_leb (a b : string) : String.ltb a b = true → String.leb a b = true.
Proof. unfold String.ltb, String.leb. by destruct (String.compare a b). Qed.

Lemma not_ltb_leb (a b : string) : String.ltb a b = false → String.leb b a = true.
Proof.
  unfold String.ltb, String.leb. rewrite (String.compare_antisym a b).
  by destruct (String.compare b a).
Qed.

Lemma sort_insert_Permutation (h : Heap) (v : value) (l : list value) :
  sort_insert h v l ≡ₚ v :: l.
Proof.
  induction l as [| w l IH]; simpl; [done |].
  destruct (String.ltb _ _); [done |]. rewrite IH. apply Permutation_swap.
Qed.

Lemma sort_insert_Sorted (h : Heap) (v : value) (l : list value) :
  Sorted (in_order h) l → Sorted (in_order h) (sort_insert h v l).
Proof.
  induction 1 as [| w l Hl IH Hhd]; simpl.
  - by repeat constructor.
  - destruct (String.ltb (ToString h v) (ToString h w)) eqn:Hlt.
    + constructor; [by constructor |]. constructor. by apply ltb_leb.
    + constructor; [done |].
      destruct l as [| w' l']; simpl in *.
      * constructor. by apply not_ltb_leb.
      * destruct (String.ltb (ToString h v) (ToString h w')).
        -- constructor. by apply not_ltb_leb.
        -- constructor. by inversion Hhd.
Qed.

Lemma sort_snoc (h : Heap) (vs : list value) (v : value) :
  sort h (vs ++ [v]) = sort_insert h v (sort h vs).
Proof. unfold sort. by rewrite foldl_app. Qed.

Lemma sort_Permutation (h : Heap) (vs : list value) : sort h vs ≡ₚ vs.
Proof.
  induction vs as [| v vs IH] using rev_ind; [done |].
  rewrite sort_snoc, sort_insert_Permutation, IH.
  by rewrite Permutation_app_comm.
Qed.

Lemma sort_Sorted (h : Heap) (vs : list value) : Sorted (in_order h) (sort h vs).
Proof.
  induction vs as [| v vs IH] using rev_ind; [constructor |].
  rewrite sort_snoc. by apply sort_insert_Sorted.
Qed.

Lemma sort_known_presented (h : Heap) (answer : list value) :
  presented h answer (sort h (known answer)).
Proof.
  split_and!; [apply sort_Sorted | apply sort_Permutation |].
  intros v. rewrite sort_Permutation. unfold known. rewrite list_elem_of_filter. tauto.
Qed.

Lemma lookup_without_id (k : string) (ps : list (string * value)) :
  lookup_prop k (without_id ps) = if decide (k = "_id") then None else lookup_prop k ps.
Proof.
  unfold without_id. induction ps as [| [k' v'] ps IH]; simpl.
  - by destruct (decide (k = "_id")).
  - destruct (decide (k' = "_id")) as [-> | Hne].
    + rewrite filter_cons_False by (simpl; auto). rewrite IH.
      repeat case_decide; simplify_eq; done.
    + rewrite filter_cons_True by done. simpl. rewrite IH.
      repeat case_decide; simplify_eq; done.
Qed.

Section WithSdk.
Context {X D : Type} (lib : Sdk X D) (driver : Driver X D).

Lemma in_process_calls {A} (c : Eff (Process X) A) (s : Session X) :
  driver_calls (in_process c s).2 = driver_calls s.
Proof. unfold in_process. by destruct (c (process s)). Qed.

Lemma getAllQuestions_asks_for_the_three_filters (h : Heap) (filters : value)
    (s : Session X) :
  let '(res, s') := getAllQuestions lib driver h filters s in
  driver_calls s' = driver_calls s
  ∨ ∃ coll query,
      driver_calls s' = driver_calls s ++ [Find coll query]
      ∧ query
        = concat ((fun k => if truthy (field h filters k) then [(k, field h filters k)] else [])
                    <$> ["subject"; "chapter"; "section"]).
Proof.
  unfold getAllQuestions, bind, lift, drive, drive_logged, in_process.
  destruct (getQuestionsCollection lib (process s)) as [[coll | e] p1]; [| by left].
  destruct (query_entry h filters "subject") as [subject | e] eqn:H1; [| by left].
  destruct (query_entry h filters "chapter") as [chapter | e] eqn:H2; [| by left].
  destruct (query_entry h filters "section") as [section | e] eqn:H3; [| by left].
  apply query_entry_spec in H1, H2, H3. subst. simpl.
  destruct (find_toArray driver coll _ (outside p1)) as [res x].
  right. eexists _, _. split; [reflexivity |]. simpl. by rewrite app_nil_r.
Qed.

(** X15. When [getFilterOptions] returns, it has asked the collection for
    the distinct values of [subject], [chapter] and [section], in that order
    and nothing else, and each list it returns is the answer without its
    falsy values and without ['Unknown'], in ascending order of the string
    forms: a permutation of the values kept, so a value is listed exactly
    when the store answered it, it is truthy and it is not ['Unknown']. *)
Theorem getFilterOptions_presents_known_values (h : Heap) (s : Session X) :
  let '(res, s') := getFilterOptions lib driver h s in
  ∀ options, res = Normal options →
    ∃ coll p1 a x1 b x2 c x3,
      getQuestionsCollection lib (process s) = (Normal coll, p1)
      ∧ distinct driver coll "subject" (outside p1) = (Normal a, x1)
      ∧ distinct driver coll "chapter" x1 = (Normal b, x2)
      ∧ distinct driver coll "section" x2 = (Normal c, x3)
      ∧ driver_calls s'
        = driver_calls s
            ++ [Distinct coll "subject"; Distinct coll "chapter"; Distinct coll "section"]
      ∧ presented h a (subjects options)
      ∧ presented h b (chapters options)
      ∧ presented h c (sections options).
Proof.
  unfold getFilterOptions, bind, drive, drive_logged, in_process, ret.
  destruct (getQuestionsCollection lib (process s)) as [[coll | e] p1]; [| done].
  simpl.
  destruct (distinct driver coll "subject" (outside p1)) as [[a | e] x1] eqn:Ha; [| done].
  simpl.
  destruct (distinct driver coll "chapter" x1) as [[b | e] x2] eqn:Hb; [| done].
  simpl.
  destruct (distinct driver coll "section" x2) as [[c | e] x3] eqn:Hc; [| done].
  intros options [= <-]. simpl.
  exists coll, p1, a, x1, b, x2, c, x3.
  split_and!; try done; try apply sort_known_presented.
  by rewrite <- !app_assoc.
Qed.

Lemma create_each_calls (coll : Collection) (specs : list IndexSpec) (s : Session X) :
  let '(res, s') := create_each driver coll specs s in
  match res with
  | Normal _ =>
      driver_calls s' = driver_calls s ++ ((fun spec => CreateIndex coll spec (Normal tt)) <$> specs)
  | Throw e =>
      ∃ before spec after,
        specs = before ++ spec :: after
        ∧ driver_calls s'
          = driver_calls s ++ ((fun spec => CreateIndex coll spec (Normal tt)) <$> before)
              ++ [CreateIndex coll spec (Throw e)]
  end.
Proof.
  revert s. induction specs as [| spec specs IH]; intros s; simpl.
  - by rewrite app_nil_r.
  - unfold bind, drive_logged at 1.
    destruct (createIndex driver coll spec (outside (process s))) as [[[] | e] x].
    + match goal with |- context [create_each driver coll specs ?s1] =>
        specialize (IH s1); destruct (create_each driver coll specs s1) as [res s']
      end.
      destruct res as [[] | e].
      * rewrite IH. simpl. by rewrite <- app_assoc.
      * destruct IH as (before & failed & after & -> & Hcalls).
        exists (spec :: before), failed, after. split; [done |].
        rewrite Hcalls. simpl. by rewrite <- !app_assoc.
    + exists [], spec, specs. done.
Qed.

(** X16. [createIndexes] asks for its five indexes in the order written,
    one after the other, and stops at the first [createIndex] that fails:
    when it returns, it has made the five calls and each has returned; when
    it throws, either the collection could not be reached and no call was
    made, or the calls made are the first ones of the list, all but the last
    have returned, and what the last one threw is what the function
    throws. Nothing is asked for after a failure. *)
Theorem createIndexes_stops_at_the_first_failure (s : Session X) :
  let '(res, s') := createIndexes lib driver s in
  match getQuestionsCollection lib (process s) with
  | (Throw e, p1) => res = Throw e ∧ driver_calls s' = driver_calls s
  | (Normal coll, p1) =>
      match res with
      | Normal _ =>
          driver_calls s'
          = driver_calls s ++ ((fun spec => CreateIndex coll spec (Normal tt)) <$> the_indexes)
      | Throw e =>
          ∃ before spec after,
            the_indexes = before ++ spec :: after
            ∧ driver_calls s'
              = driver_calls s ++ ((fun spec => CreateIndex coll spec (Normal tt)) <$> before)
                  ++ [CreateIndex coll spec (Throw e)]
      end
  end.
Proof.
  unfold createIndexes, bind, in_process.
  destruct (getQuestionsCollection lib (process s)) as [[coll | e] p1]; [| done].
  exact (create_each_calls coll the_indexes (mkSession p1 (driver_calls s))).
Qed.

(** X17. [updateQuestionInMongoDB] never writes [_id]. With an empty
    document id it throws ['Document ID is required'] before anything else.
    Otherwise it fetches the collection, and throws what that throws; it
    throws for a question that is [null] or [undefined]; it reads the clock,
    builds the [ObjectId] of the document id, and throws what that throws.
    In none of these cases is the driver called. Failing that, it makes
    exactly one [updateOne], on that [ObjectId]: what it [$set]s has no
    [_id], has [updatedAt] set to the time the clock gave (overriding any
    such field of the question), and agrees with the question on every other
    property. It then throws ['Question not found'] when the driver reports
    that no document matched, throws what the driver throws, and returns
    otherwise. *)
Theorem updateQuestionInMongoDB_sets_no_id (h : Heap) (documentId : string)
    (updatedQuestion : value) (s : Session X) :
  let '(res, s') := updateQuestionInMongoDB lib driver h documentId updatedQuestion s in
  if decide (documentId = "") then
    res = Throw (JsError "Document ID is required") ∧ s' = s
  else
    match getQuestionsCollection lib (process s) with
    | (Throw e, p1) => res = Throw e ∧ driver_calls s' = driver_calls s
    | (Normal coll, p1) =>
        if nullish updatedQuestion then
          (∃ e, res = Throw e) ∧ driver_calls s' = driver_calls s
        else
          let '(now, x1) := Date_now lib (outside p1) in
          match ObjectId lib documentId with
          | Throw e => res = Throw e ∧ driver_calls s' = driver_calls s
          | Normal _id =>
              ∃ data,
                driver_calls s' = driver_calls s ++ [UpdateOne coll _id data]
                ∧ lookup_prop "_id" data = None
                ∧ lookup_prop "updatedAt" data = Some (VDate now)
                ∧ (∀ k, k ≠ "_id" → k ≠ "updatedAt" →
                        lookup_prop k data = lookup_prop k (spread_props h updatedQuestion))
                ∧ match (updateOne driver coll _id data x1).1 with
                  | Normal matchedCount =>
                      res = if decide (matchedCount = 0)
                            then Throw (JsError "Question not found")
                            else Normal matchedCount
                  | Throw e => res = Throw e
                  end
          end
    end.
Proof.
  unfold updateQuestionInMongoDB.
  destruct (decide (documentId = "")) as [-> | Hne]; [done |].
  assert (Hid : negb (truthy (VStr documentId)) = false).
  { simpl. by rewrite bool_decide_eq_false_2. }
  rewrite Hid.
  unfold bind, in_process, lift, drive, drive_logged, ask, throw, ret.
  destruct (getQuestionsCollection lib (process s)) as [[coll | e] p1]; [| done].
  destruct (nullish updatedQuestion) eqn:Hq.
  { destruct updatedQuestion; try done; simpl; eauto. }
  assert (Hdata : rest_without_id h updatedQuestion
                  = Normal (without_id (spread_props h updatedQuestion)))
    by (by destruct updatedQuestion).
  rewrite Hdata. simpl.
  assert (Hrest : ∀ now k,
            lookup_prop k (set_prop "updatedAt" (VDate now)
                             (without_id (spread_props h updatedQuestion)))
            = if decide (k = "updatedAt") then Some (VDate now)
              else if decide (k = "_id") then None
              else lookup_prop k (spread_props h updatedQuestion)).
  { intros now k. by rewrite HeapFacts.lookup_set_prop, lookup_without_id. }
  destruct (Date_now lib (outside p1)) as [now x1]. simpl.
  destruct (ObjectId lib documentId) as [_id | e]; [| done]. simpl.
  match goal with |- context [updateOne driver coll _id ?data x1] =>
    destruct (updateOne driver coll _id data x1) as [[n0 | e] x2] eqn:Hup
  end; simpl.
  - destruct (decide (n0 = 0)) as [Hzero | Hpos]; simpl;
      eexists; (split; [reflexivity |]);
      (split; [by rewrite Hrest |]); (split; [by rewrite Hrest |]);
      (split; [intros k Hk1 Hk2; rewrite Hrest; by rewrite !decide_False |]);
      rewrite Hup; simpl.
    + by rewrite decide_True.
    + by rewrite decide_False.
  - eexists. split; [reflexivity |].
    split; [by rewrite Hrest |]. split; [by rewrite Hrest |].
    split; [intros k Hk1 Hk2; rewrite Hrest; by rewrite !decide_False |].
    by rewrite Hup.
Qed.

End WithSdk.
End QueryFacts.

(** ** Runs of the further properties *)

Module MoreRuns.
Import Js Json Gateway Platform UploadService Audit Scenarios Requests Routes Text.

Lemma S3Eager_upload_without_bucket_witness :
  BUCKET_NAME unconfigured = None
  ∧ (S3Eager.uploadImageToS3 Lab.lab [] (VStr "http://x/a.png") unconfigured).1
    = Normal "https://undefined.s3.ap-southeast-2.amazonaws.com/questions/digest1853.png"
  ∧ ∃ cmd,
      sdk_calls (S3Eager.uploadImageToS3 Lab.lab [] (VStr "http://x/a.png") unconfigured).2
      = [Fetch "http://x/a.png"; SendPutObject cmd]
      ∧ put_Bucket cmd = None.
Proof.
  assert (Hrun : S3Eager.uploadImageToS3 Lab.lab [] (VStr "http://x/a.png") unconfigured
                 = (Normal "https://undefined.s3.ap-southeast-2.amazonaws.com/questions/digest1853.png",
                    (S3Eager.uploadImageToS3 Lab.lab [] (VStr "http://x/a.png") unconfigured).2))
    by (vm_compute; reflexivity).
  split; [reflexivity |]. split; [by rewrite Hrun |].
  destruct (S3Runs.S3Eager_upload_without_bucket Lab.lab [] (VStr "http://x/a.png")
              unconfigured _ _ eq_refl Hrun) as (cmd & rest & Hlog & Hbucket & _).
  exists cmd. split; [exact Hlog | exact Hbucket].
Defined.

Lemma upload_stops_at_a_failed_download_witness :
  truthy (VStr "http://x/a.png") = true
  ∧ fetch not_found "http://x/a.png" Lab.quiet
    = (Normal {| ok := false; statusText := "Not Found"; arrayBuffer := Normal "" |}, Lab.quiet)
  ∧ S3Eager.uploadImageToS3 not_found [] (VStr "http://x/a.png") (Lab.boot Lab.quiet)
    = (Throw (JsError "Failed to download image from http://x/a.png: Not Found"),
       mkProcess Lab.lab_config None false None Lab.quiet [Fetch "http://x/a.png"])
  ∧ S3Lazy.uploadImageToS3 not_found [] (VStr "http://x/a.png") (Lab.boot Lab.quiet)
    = (Throw (JsError "Failed to download image from http://x/a.png: Not Found"),
       mkProcess Lab.lab_config None false None Lab.quiet [Fetch "http://x/a.png"]).
Proof.
  split; [reflexivity |]. split; [reflexivity |].
  exact (S3Runs.upload_stops_at_a_failed_download not_found [] (VStr "http://x/a.png")
           (Lab.boot Lab.quiet)
           {| ok := false; statusText := "Not Found"; arrayBuffer := Normal "" |}
           Lab.quiet eq_refl eq_refl eq_refl).
Defined.

Lemma getQuestionById_reads_the_leading_number_witness :
  MongoDB.getQuestionsCollection Lab.lab (Lab.boot holding_q1)
  = (Normal {| dbName := Some "question_bank"; collectionName := Some "questions" |},
     mkProcess Lab.lab_config None false (Some (Some "question_bank")) holding_q1
       [MongoConnect "mongodb://localhost"])
  ∧ stops 42 "abc"
  ∧ stops 9007199254740993 "abc"
  ∧ MongoDB.getQuestionById Lab.lab [] (VStr "42abc") (Lab.boot holding_q1)
    = MongoDB.getQuestionById Lab.lab [] (VNum 42) (Lab.boot holding_q1)
  ∧ sdk_calls (MongoDB.getQuestionById Lab.lab [] (VStr "9007199254740993abc")
                 (Lab.boot holding_q1)).2
    = [MongoConnect "mongodb://localhost";
       FindOne {| dbName := Some "question_bank"; collectionName := Some "questions" |}
         (VNum 9007199254740992)].
Proof.
  assert (Hstops : stops 42 "abc") by (split; [reflexivity | lia]).
  assert (Hbig : stops 9007199254740993 "abc") by (split; [reflexivity | lia]).
  split; [reflexivity |]. split; [exact Hstops |]. split; [exact Hbig |].
  destruct (LookupFacts.getQuestionById_reads_the_leading_number Lab.lab [] 42 "abc"
              (Lab.boot holding_q1) _ _ eq_refl Hstops) as [_ Hsame].
  destruct (Hsame ltac:(vm_compute; discriminate)) as [_ Heq].
  destruct (LookupFacts.getQuestionById_reads_the_leading_number Lab.lab []
              9007199254740993 "abc" (Lab.boot holding_q1) _ _ eq_refl Hbig) as [Hrun _].
  split; [symmetry; exact Heq |].
  change (pretty 9007199254740993 +:+ "abc") with "9007199254740993abc" in Hrun.
  rewrite Hrun. vm_compute. reflexivity.
Defined.

Lemma revisions_differ_in_the_report_only_witness :
  nullish partial.1 = false
  ∧ uploadQuestionToDB lab_s3 lab_mongo partial.1 partial.2
    = (Normal partial_result, machine partial_run)
  ∧ UploadServiceOld.uploadQuestionToDB lab_s3 lab_mongo partial.1 partial.2
    = (Normal
         {| success := true;
            message := "Successfully uploaded to database!";
            s3Urls :=
              Some ["https://paperplane-diagrams.s3.ap-southeast-2.amazonaws.com/questions/digest1853.png"];
            resultMongoId := Some "oid0";
            failedImages := None |}, machine partial_run).
Proof.
  assert (Hrun : uploadQuestionToDB lab_s3 lab_mongo partial.1 partial.2
                 = (Normal partial_result, machine partial_run))
    by (vm_compute; reflexivity).
  split; [reflexivity |]. split; [exact Hrun |].
  pose proof (RevisionFacts.revisions_differ_in_the_report_only lab_s3 lab_mongo
                partial.1 partial.2 eq_refl) as Hold.
  rewrite Hrun in Hold. exact Hold.
Defined.

Lemma earlier_revision_reports_every_question_witness :
  iterate (heap with_null.2) with_null.1 = Normal [VNull; VRef 1]
  ∧ ∃ failure stored m',
      UploadServiceOld.uploadMultipleQuestions lab_s3 lab_mongo with_null.1 with_null.2
      = (Normal {| successful := length (filter (fun r => success r = true) [failure; stored]);
                   failed := length (filter (fun r => success r = false) [failure; stored]);
                   results := [failure; stored] |}, m')
      ∧ success failure = false.
Proof.
  assert (Hiter : iterate (heap with_null.2) with_null.1 = Normal [VNull; VRef 1])
    by reflexivity.
  split; [exact Hiter |].
  destruct (ReportFacts.earlier_revision_reports_every_question lab_s3 lab_mongo
              with_null.1 _ with_null.2 Hiter) as (rs & m' & Hrun & Hall).
  destruct rs as [| failure [| stored [| extra rs]]];
    [exfalso; inversion Hall
    | exfalso; inversion Hall as [| ? ? ? ? _ Hrest]; inversion Hrest
    |
    | exfalso; inversion Hall as [| ? ? ? ? _ Hrest];
        inversion Hrest as [| ? ? ? ? _ Hrest']; inversion Hrest'].
  exists failure, stored, m'. split; [exact Hrun |].
  inversion Hall as [| ? ? ? ? Hfirst _]. exact (Hfirst eq_refl).
Defined.

Lemma success_is_reported_iff_stored_witness :
  nullish partial.1 = false
  ∧ uploadQuestionToDB lab_s3 lab_mongo partial.1 partial.2
    = (Normal partial_result, machine partial_run)
  ∧ ∃ log question' s3ImageUrl,
      calls (machine partial_run) = calls partial.2 ++ log
      ∧ saved log = [(question', s3ImageUrl, Normal "oid0")]
      ∧ deleted_keys log = [] ∧ deleted_documents log = [].
Proof.
  assert (Hrun : uploadQuestionToDB lab_s3 lab_mongo partial.1 partial.2
                 = (Normal partial_result, machine partial_run))
    by (vm_compute; reflexivity).
  split; [reflexivity |]. split; [exact Hrun |].
  destruct (ReportFacts.success_is_reported_iff_stored lab_s3 lab_mongo
              LabFacts.lab_names_its_objects partial.1 partial.2 _ _ eq_refl Hrun)
    as (log & Hlog & Hstored).
  change (success partial_result) with true in Hstored. cbv iota in Hstored.
  destruct Hstored as ((question' & s3ImageUrl & documentId & Hsaved & Hid) & Hkeys & Hdocs).
  exists log, question', s3ImageUrl.
  assert (documentId = "oid0") as -> by (injection Hid; congruence).
  split; [exact Hlog |]. split; [exact Hsaved |]. split; [exact Hkeys | exact Hdocs].
Defined.

Lemma post_upload_answers_200_or_400_witness :
  nullish upload_request.1 = false
  ∧ ∃ reply m',
      post_upload lab_s3 lab_mongo upload_request.1 upload_request.2 = (Normal reply, m')
      ∧ (status reply = 200 ∨ status reply = 400).
Proof.
  split; [reflexivity |].
  destruct (RouteFacts.post_upload_answers_200_or_400 lab_s3 lab_mongo
              upload_request.1 upload_request.2 eq_refl)
    as (reply & m' & Hrun & Hstatus & _).
  exists reply, m'. split; [exact Hrun | exact Hstatus].
Defined.

Lemma post_upload_batch_reports_success_witness :
  nullish batch_request.1 = false
  ∧ isArray (heap batch_request.2) (field (heap batch_request.2) batch_request.1 "questions")
    = true
  ∧ field (heap batch_request.2) (field (heap batch_request.2) batch_request.1 "questions")
      "length" = VNum 2
  ∧ items (heap batch_request.2) (field (heap batch_request.2) batch_request.1 "questions")
    = [VRef 1; VRef 4]
  ∧ ∃ rs m',
      post_upload_batch lab_s3 lab_mongo batch_request.1 batch_request.2
      = (Normal {| status := 200;
                   body := BatchReport
                             {| successful := length (filter (fun r => success r = true) rs);
                                failed := length (filter (fun r => success r = false) rs);
                                results := rs |} |}, m').
Proof.
  assert (Hall : Forall (fun q => nullish q = false)
                   (items (heap batch_request.2)
                      (field (heap batch_request.2) batch_request.1 "questions"))).
  { vm_compute. repeat constructor. }
  assert (Hlen : field (heap batch_request.2)
                   (field (heap batch_request.2) batch_request.1 "questions") "length"
                 ≠ VNum 0) by (vm_compute; discriminate).
  split; [reflexivity |]. split; [reflexivity |]. split; [reflexivity |].
  split; [reflexivity |].
  destruct (RouteFacts.post_upload_batch_reports_success lab_s3 lab_mongo
              batch_request.1 batch_request.2 eq_refl eq_refl Hlen Hall)
    as (rs & m' & Hrun & _).
  exists rs, m'. exact Hrun.
Defined.

Lemma post_upload_batch_stops_at_a_missing_question_witness :
  nullish broken_batch.1 = false
  ∧ isArray (heap broken_batch.2) (field (heap broken_batch.2) broken_batch.1 "questions")
    = true
  ∧ items (heap broken_batch.2) (field (heap broken_batch.2) broken_batch.1 "questions")
    = [VRef 1] ++ VNull :: [VRef 4]
  ∧ ∃ rs m',
      in_sequence lab_s3 lab_mongo [VRef 1] broken_batch.2 rs m'
      ∧ post_upload_batch lab_s3 lab_mongo broken_batch.1 broken_batch.2
        = (Normal {| status := 500;
                     body := Message false
                               (VStr "Cannot read properties of null (reading 'id')") |}, m').
Proof.
  assert (Hlen : field (heap broken_batch.2)
                   (field (heap broken_batch.2) broken_batch.1 "questions") "length"
                 ≠ VNum 0) by (vm_compute; discriminate).
  assert (Hbefore : Forall (fun q => nullish q = false) [VRef 1]) by (repeat constructor).
  split; [reflexivity |]. split; [reflexivity |]. split; [reflexivity |].
  destruct (RouteFacts.post_upload_batch_stops_at_a_missing_question lab_s3 lab_mongo
              broken_batch.1 broken_batch.2 [VRef 1] [VRef 4] VNull
              eq_refl eq_refl Hlen eq_refl Hbefore eq_refl)
    as (rs & m' & msg & Hseq & _ & Hget & Hreply).
  exists rs, m'. split; [exact Hseq |].
  assert (msg = "Cannot read properties of null (reading 'id')") as <-
    by (vm_compute in Hget; congruence).
  exact Hreply.
Defined.

End MoreRuns.
